(** * bradenaw/encode: a shallow embedding of [encode.go]

    The package composes codec items ([Item]: [Encode], [Decode], [Size])
    into an [Encoding] that writes and parses one contiguous byte buffer.
    Every item is bound to a variable through a pointer; the variables live
    in a store here, and the methods are written in a small state monad in
    which a Go run-time panic is the failure.

    Conventions.
    - A byte is a [Z] in [0, 256); a [[]byte] or [string] is a [list Z].
    - [uint16], [uint32], [uint64] are [Z] with the wrap-around written out
      ([u16], [u32], [u64]).
    - Go's [int] holds lengths and indices of buffers that exist in memory;
      it is a [Z] here (64-bit [int], as [math.MaxUint32] in an [int]
      comparison requires). Where the program adds sizes that need not be
      lengths of existing buffers ([totalSize] in [Encoding.Encode]), the
      wrap-around of [int] and the largest length that [make] accepts are
      stated apart ([int], [totalSize_int], [maxAlloc]), and the
      properties of sequences with paddings keep within them.
    - The functions of Go's standard library that the package calls
      ([math/bits], [encoding/binary], [copy], [make]) are transcribed from
      the library. *)

From Stdlib Require Import ZArith Lia.
From stdpp Require Import base option list gmap.

Local Open Scope Z_scope.

(** ** Machine integers *)

(** Conversions [byte(x)], [uint16(x)], [uint32(x)], [uint64(x)]. *)
Definition u8 (x : Z) : Z := x mod 2 ^ 8.
Definition u16 (x : Z) : Z := x mod 2 ^ 16.
Definition u32 (x : Z) : Z := x mod 2 ^ 32.
Definition u64 (x : Z) : Z := x mod 2 ^ 64.

(** [x << s] and [x >> s] on a [w]-bit unsigned operand with an unsigned
    shift count: the bits shifted out are lost, and the result is 0 once
    the count reaches the width. *)
Definition shl (w x s : Z) : Z :=
  if w <=? s then 0 else Z.shiftl x s mod 2 ^ w.
Definition shr (w x s : Z) : Z :=
  if w <=? s then 0 else Z.shiftr x s.

(** [^b] on a byte. *)
Definition not8 (b : Z) : Z := Z.lxor b 0xFF.

(** Go's integer division truncates toward zero. *)
Definition idiv (a b : Z) : Z := Z.quot a b.

(** ** Slices *)

(** [buf[i]] as a value; [None] is the index-out-of-range panic. *)
Definition idx (buf : list Z) (i : Z) : option Z :=
  if i <? 0 then None else buf !! Z.to_nat i.

(** [buf[i] = x]. *)
Definition upd (buf : list Z) (i x : Z) : option (list Z) :=
  if (0 <=? i) && (i <? Z.of_nat (length buf))
  then Some (<[Z.to_nat i := x]> buf) else None.

(** [buf[i:]], [buf[:j]] and [buf[i:j]]; [None] is the slice-bounds panic. *)
Definition slice_from (buf : list Z) (i : Z) : option (list Z) :=
  if (0 <=? i) && (i <=? Z.of_nat (length buf))
  then Some (drop (Z.to_nat i) buf) else None.
Definition slice_to (buf : list Z) (j : Z) : option (list Z) :=
  if (0 <=? j) && (j <=? Z.of_nat (length buf))
  then Some (take (Z.to_nat j) buf) else None.
Definition slice (buf : list Z) (i j : Z) : option (list Z) :=
  if (0 <=? i) && (i <=? j) && (j <=? Z.of_nat (length buf))
  then Some (take (Z.to_nat (j - i)) (drop (Z.to_nat i) buf)) else None.

(** The built-in [copy(dst, src)]: the first [min(len(dst), len(src))]
    elements of [dst] are overwritten. The result is the new [dst]. *)
Definition copy (dst src : list Z) : list Z :=
  take (length dst) src ++ drop (length src) dst.

(** [make([]byte, n)]; panics on a negative length. The runtime also
    refuses a length above [maxAlloc] (below); lengths are kept under it
    where a property says that [make] returns. *)
Definition make (n : Z) : option (list Z) :=
  if n <? 0 then None else Some (replicate (Z.to_nat n) 0).

(** A window [buf[i:i+n]] shares its memory with [buf]: after a callee has
    written the window, the caller's buffer holds the new contents. *)
Definition splice (buf : list Z) (i : Z) (w : list Z) : list Z :=
  take (Z.to_nat i) buf ++ w ++ drop (Z.to_nat i + length w) buf.

(** [bytes.Compare]: lexicographic, a proper prefix is smaller. *)
Fixpoint bytes_Compare (a b : list Z) : comparison :=
  match a, b with
  | [], [] => Eq
  | [], _ :: _ => Lt
  | _ :: _, [] => Gt
  | x :: a', y :: b' =>
      match x ?= y with
      | Eq => bytes_Compare a' b'
      | c => c
      end
  end.

(** ** math/bits *)

Definition bits_Len (x : Z) : Z := if x =? 0 then 0 else Z.log2 x + 1.
Definition bits_Len64 (x : Z) : Z := bits_Len x.
Definition bits_LeadingZeros8 (x : Z) : Z := 8 - bits_Len x.

(** ** encoding/binary *)

Definition MaxVarintLen64 : Z := 10.

(** [binary.BigEndian.PutUint16(b, v)] and friends start with the bounds
    check [_ = b[1]] (resp. [b[3]], [b[7]]). *)
Definition PutUint16 (b : list Z) (v : Z) : option (list Z) :=
  _ ← idx b 1;
  b ← upd b 0 (u8 (shr 16 v 8));
  upd b 1 (u8 v).

Definition Uint16 (b : list Z) : option Z :=
  _ ← idx b 1;
  b0 ← idx b 0; b1 ← idx b 1;
  Some (Z.lor b1 (shl 16 b0 8)).

Definition PutUint32 (b : list Z) (v : Z) : option (list Z) :=
  _ ← idx b 3;
  b ← upd b 0 (u8 (shr 32 v 24));
  b ← upd b 1 (u8 (shr 32 v 16));
  b ← upd b 2 (u8 (shr 32 v 8));
  upd b 3 (u8 v).

Definition Uint32 (b : list Z) : option Z :=
  _ ← idx b 3;
  b0 ← idx b 0; b1 ← idx b 1; b2 ← idx b 2; b3 ← idx b 3;
  Some (Z.lor (Z.lor (Z.lor b3 (shl 32 b2 8)) (shl 32 b1 16)) (shl 32 b0 24)).

Definition PutUint64 (b : list Z) (v : Z) : option (list Z) :=
  _ ← idx b 7;
  b ← upd b 0 (u8 (shr 64 v 56));
  b ← upd b 1 (u8 (shr 64 v 48));
  b ← upd b 2 (u8 (shr 64 v 40));
  b ← upd b 3 (u8 (shr 64 v 32));
  b ← upd b 4 (u8 (shr 64 v 24));
  b ← upd b 5 (u8 (shr 64 v 16));
  b ← upd b 6 (u8 (shr 64 v 8));
  upd b 7 (u8 v).

Definition Uint64 (b : list Z) : option Z :=
  _ ← idx b 7;
  b0 ← idx b 0; b1 ← idx b 1; b2 ← idx b 2; b3 ← idx b 3;
  b4 ← idx b 4; b5 ← idx b 5; b6 ← idx b 6; b7 ← idx b 7;
  Some (Z.lor (Z.lor (Z.lor (Z.lor (Z.lor (Z.lor (Z.lor
    b7 (shl 64 b6 8)) (shl 64 b5 16)) (shl 64 b4 24)) (shl 64 b3 32))
    (shl 64 b2 40)) (shl 64 b1 48)) (shl 64 b0 56)).

(** [binary.PutUvarint(buf, x)]:
<<
    i := 0
    for x >= 0x80 { buf[i] = byte(x) | 0x80; x >>= 7; i++ }
    buf[i] = byte(x)
    return i + 1
>>
    Every turn of the loop drops seven bits of [x], so a [uint64] leaves
    the loop within nine turns; [fuel] counts the evaluations of the loop
    condition. [None] is a panic (or no fuel: [PutUvarint_loop_Some] below
    shows that ten evaluations are enough for every [uint64]). *)
Fixpoint PutUvarint_loop (fuel : nat) (buf : list Z) (x i : Z)
  : option (list Z * Z) :=
  match fuel with
  | O => None
  | S fuel =>
      if 0x80 <=? x then
        buf ← upd buf i (Z.lor (u8 x) 0x80);
        PutUvarint_loop fuel buf (shr 64 x 7) (i + 1)
      else
        buf ← upd buf i (u8 x);
        Some (buf, i + 1)
  end.

Definition PutUvarint (buf : list Z) (x : Z) : option (list Z * Z) :=
  PutUvarint_loop 10 buf x 0.

(** [binary.Uvarint(buf)]:
<<
    var x uint64; var s uint
    for i, b := range buf {
        if i == MaxVarintLen64 { return 0, -(i + 1) }
        if b < 0x80 {
            if i == MaxVarintLen64-1 && b > 1 { return 0, -(i + 1) }
            return x | uint64(b)<<s, i + 1
        }
        x |= uint64(b&0x7f) << s
        s += 7
    }
    return 0, 0
>> *)
Fixpoint Uvarint_loop (bs : list Z) (i x s : Z) : Z * Z :=
  match bs with
  | [] => (0, 0)
  | b :: bs =>
      if i =? MaxVarintLen64 then (0, - (i + 1))
      else if b <? 0x80 then
        if (i =? MaxVarintLen64 - 1) && (1 <? b) then (0, - (i + 1))
        else (Z.lor x (shl 64 b s), i + 1)
      else Uvarint_loop bs (i + 1) (Z.lor x (shl 64 (Z.land b 0x7f) s)) (s + 7)
  end.

Definition Uvarint (buf : list Z) : Z * Z := Uvarint_loop buf 0 0 0.

(** [uvarintSize]: [PutUvarint] into a scratch array of [MaxVarintLen64]
    bytes. *)
Definition uvarintSize (x : Z) : option Z :=
  b ← make MaxVarintLen64;
  snd <$> PutUvarint b x.

(** ** Variables, the store and the monad of the methods *)

(** A pointer is the address of a variable; the store holds the variables'
    current values. An address that the store does not hold is the nil
    pointer: dereferencing it panics. *)
Definition loc := positive.

Inductive val :=
| VByte (b : Z)
| VBool (b : bool)
| VUint16 (x : Z)
| VUint32 (x : Z)
| VUint64 (x : Z)
| VBytes (bs : list Z)
| VString (s : list Z)
| VArray16 (a : list Z)
| VArray32 (a : list Z).

Definition as_byte (v : val) : option Z :=
  match v with VByte b => Some b | _ => None end.
Definition as_bool (v : val) : option bool :=
  match v with VBool b => Some b | _ => None end.
Definition as_uint16 (v : val) : option Z :=
  match v with VUint16 x => Some x | _ => None end.
Definition as_uint32 (v : val) : option Z :=
  match v with VUint32 x => Some x | _ => None end.
Definition as_uint64 (v : val) : option Z :=
  match v with VUint64 x => Some x | _ => None end.
Definition as_bytes (v : val) : option (list Z) :=
  match v with VBytes bs => Some bs | _ => None end.
Definition as_string (v : val) : option (list Z) :=
  match v with VString s => Some s | _ => None end.
Definition as_array16 (v : val) : option (list Z) :=
  match v with VArray16 a => Some a | _ => None end.
Definition as_array32 (v : val) : option (list Z) :=
  match v with VArray32 a => Some a | _ => None end.

(** The values of Go's [error] that the package returns. *)
Inductive error :=
| err_nil
| io_ErrUnexpectedEOF
| errOverflowVarint.

(** A method runs on the store and either returns ([Some]) or panics
    ([None]); the store survives a panic as the panic found it. *)
Definition M (A : Type) : Type := gmap loc val → option A * gmap loc val.

Global Instance M_ret : MRet M := λ A a σ, (Some a, σ).
Global Instance M_bind : MBind M := λ A B f m σ,
  match m σ with
  | (Some a, σ') => f a σ'
  | (None, σ') => (None, σ')
  end.

(** A computation on the buffer alone, which may panic. *)
Definition lift {A} (o : option A) : M A := λ σ, (o, σ).

(** [*p] read at the type the projection [f] selects. *)
Definition load {A} (f : val → option A) (p : loc) : M A :=
  λ σ, (σ !! p ≫= f, σ).

(** [*p = v]. *)
Definition assign (p : loc) (v : val) : M () :=
  λ σ, match σ !! p with
       | Some _ => (Some (), <[p := v]> σ)
       | None => (None, σ)
       end.

(** [frame m]: running [m] returns the store it was given, also when it
    panics. *)
Definition frame {A} (m : M A) : Prop := ∀ σ, (m σ).2 = σ.

(** [for i := 0; i < n; i++ { body }] on a state [s], as the iteration of
    [body] over the indices [0, 1, ..., n-1]. *)
Fixpoint for_each {S} (body : Z → S → option S) (ixs : list Z) (s : S)
  : option S :=
  match ixs with
  | [] => Some s
  | i :: ixs => s ← body i s; for_each body ixs s
  end.
Definition for_range {S} (n : Z) (body : Z → S → option S) (s : S)
  : option S :=
  for_each body (seqZ 0 n) s.

(** [len(buf)] as an [int], [uint(k)] of an [int]. *)
Definition len (buf : list Z) : Z := Z.of_nat (length buf).
Definition uint (k : Z) : Z := k mod 2 ^ 64.
Definition math_MaxUint32 : Z := 2 ^ 32 - 1.

(** ** The [Item] interface *)

(** A value of the interface [Item]: its three methods. [Encode] and
    [Decode] receive a slice and return its contents as they left them;
    [Decode] returns its [error] with it. *)
Record Item := mkItem {
  Encode : list Z → M (list Z);
  Decode : list Z → M (error * list Z);
  Size : M Z
}.

(** ** The items of the package *)

Module padding.
Definition Encode (n : Z) (buf : list Z) : M (list Z) := mret buf.
Definition Size (n : Z) : M Z := mret n.
Definition Decode (n : Z) (buf : list Z) : M (error * list Z) :=
  if len buf <? n then mret (io_ErrUnexpectedEOF, buf)
  else mret (err_nil, buf).
End padding.

Module encByte.
Definition Encode (v : loc) (buf : list Z) : M (list Z) :=
  x ← load as_byte v;
  lift (upd buf 0 x).
Definition Size (v : loc) : M Z := mret 1.
Definition Decode (v : loc) (buf : list Z) : M (error * list Z) :=
  if len buf <? 1 then mret (io_ErrUnexpectedEOF, buf)
  else
    b ← lift (idx buf 0);
    assign v (VByte b);;
    mret (err_nil, buf).
End encByte.

Module encBool.
Definition Encode (v : loc) (buf : list Z) : M (list Z) :=
  x ← load as_bool v;
  if x : bool then lift (upd buf 0 1) else mret buf.
Definition Size (v : loc) : M Z := mret 1.
Definition Decode (v : loc) (buf : list Z) : M (error * list Z) :=
  if len buf <? 1 then mret (io_ErrUnexpectedEOF, buf)
  else
    b ← lift (idx buf 0);
    assign v (VBool (b =? 1));;
    mret (err_nil, buf).
End encBool.

Module bigEndianUint16.
Definition Encode (v : loc) (buf : list Z) : M (list Z) :=
  x ← load as_uint16 v;
  lift (PutUint16 buf x).
Definition Size (v : loc) : M Z := mret 2.
Definition Decode (v : loc) (buf : list Z) : M (error * list Z) :=
  if len buf <? 2 then mret (io_ErrUnexpectedEOF, buf)
  else
    x ← lift (Uint16 buf);
    assign v (VUint16 x);;
    mret (err_nil, buf).
End bigEndianUint16.

Module bigEndianUint32.
Definition Encode (v : loc) (buf : list Z) : M (list Z) :=
  x ← load as_uint32 v;
  lift (PutUint32 buf x).
Definition Size (v : loc) : M Z := mret 4.
Definition Decode (v : loc) (buf : list Z) : M (error * list Z) :=
  if len buf <? 4 then mret (io_ErrUnexpectedEOF, buf)
  else
    x ← lift (Uint32 buf);
    assign v (VUint32 x);;
    mret (err_nil, buf).
End bigEndianUint32.

Module bigEndianUint64.
Definition Encode (v : loc) (buf : list Z) : M (list Z) :=
  x ← load as_uint64 v;
  lift (PutUint64 buf x).
Definition Size (v : loc) : M Z := mret 8.
Definition Decode (v : loc) (buf : list Z) : M (error * list Z) :=
  if len buf <? 8 then mret (io_ErrUnexpectedEOF, buf)
  else
    x ← lift (Uint64 buf);
    assign v (VUint64 x);;
    mret (err_nil, buf).
End bigEndianUint64.

Module uvarint32.
Definition Encode (v : loc) (buf : list Z) : M (list Z) :=
  x ← load as_uint32 v;
  r ← lift (PutUvarint buf (u64 x));
  mret r.1.
Definition Size (v : loc) : M Z :=
  x ← load as_uint32 v;
  lift (uvarintSize (u64 x)).
Definition Decode (v : loc) (buf : list Z) : M (error * list Z) :=
  let '(l, n) := Uvarint buf in
  if n =? 0 then mret (io_ErrUnexpectedEOF, buf)
  else if n <? 0 then mret (errOverflowVarint, buf)
  else if math_MaxUint32 <? n then mret (errOverflowVarint, buf)
  else
    assign v (VUint32 (u32 l));;
    mret (err_nil, buf).
End uvarint32.

Module uvarint64.
Definition Encode (v : loc) (buf : list Z) : M (list Z) :=
  x ← load as_uint64 v;
  r ← lift (PutUvarint buf x);
  mret r.1.
Definition Size (v : loc) : M Z :=
  x ← load as_uint64 v;
  lift (uvarintSize x).
Definition Decode (v : loc) (buf : list Z) : M (error * list Z) :=
  let '(l, n) := Uvarint buf in
  if n =? 0 then mret (io_ErrUnexpectedEOF, buf)
  else if n <? 0 then mret (errOverflowVarint, buf)
  else
    assign v (VUint64 l);;
    mret (err_nil, buf).
End uvarint64.

Module ordUvarint64.
(** The first byte of the compact form,
    [((1 << uint(nLeadingOnes)) - 1) << uint(8-nLeadingOnes)], computed on
    bytes: the constant [1] takes the type of [buf[0]]. *)
Definition header (nLeadingOnes : Z) : Z :=
  shl 8 (u8 (shl 8 1 (uint nLeadingOnes) - 1)) (uint (8 - nLeadingOnes)).

(** [buf[i] |= byte(x >> uint((nBytes-i-1)*8))]. *)
Definition Encode_body (x nBytes i : Z) (buf : list Z) : option (list Z) :=
  b ← idx buf i;
  upd buf i (Z.lor b (u8 (shr 64 x (uint ((nBytes - i - 1) * 8))))).

Definition Encode (v : loc) (buf : list Z) : M (list Z) :=
  x ← load as_uint64 v;
  let l := bits_Len64 x in
  if 56 <? l then
    buf ← lift (upd buf 0 0xFF);
    t ← lift (slice_from buf 1);
    t ← lift (PutUint64 t x);
    mret (splice buf 1 t)
  else
    let nBytes := idiv (l + 6) 7 in
    let nLeadingOnes := nBytes - 1 in
    buf ← lift (upd buf 0 (header nLeadingOnes));
    lift (for_range nBytes (Encode_body x nBytes) buf).

Definition Size (v : loc) : M Z :=
  x ← load as_uint64 v;
  let l := bits_Len64 x in
  if 56 <? l then mret 9
  else mret (1 + idiv (l - 1) 7).

(** [shift := (rBytes * 8) - (i * 8) - 8;
     result |= uint64(buf[i]) << uint(shift)]. *)
Definition Decode_body (buf : list Z) (rBytes i : Z) (result : Z) : option Z :=
  b ← idx buf i;
  let shift := rBytes * 8 - i * 8 - 8 in
  Some (Z.lor result (shl 64 b (uint shift))).

Definition Decode (v : loc) (buf : list Z) : M (error * list Z) :=
  if len buf <? 1 then mret (io_ErrUnexpectedEOF, buf)
  else
    b0 ← lift (idx buf 0);
    let nLeadingOnes := bits_LeadingZeros8 (not8 b0) in
    let nBytes := nLeadingOnes + 1 in
    let rBits := nBytes * 7 in
    let rBytes := idiv (rBits + 8) 8 in
    if rBits =? 63 then
      if len buf <? 9 then mret (io_ErrUnexpectedEOF, buf)
      else
        t ← lift (slice_from buf 1);
        x ← lift (Uint64 t);
        assign v (VUint64 x);;
        mret (err_nil, buf)
    else if len buf <? nBytes then mret (io_ErrUnexpectedEOF, buf)
    else
      result ← lift (for_range nBytes (Decode_body buf rBytes) 0);
      let mask := u64 (shl 64 1 (uint rBits) - 1) in
      assign v (VUint64 (Z.land result mask));;
      mret (err_nil, buf).
End ordUvarint64.

Module lengthDelimBytes.
(** [n := binary.PutUvarint(buf, uint64(len( *e.v)));
     copy(buf, ( *e.v)[n:])]. *)
Definition Encode (v : loc) (buf : list Z) : M (list Z) :=
  bs ← load as_bytes v;
  r ← lift (PutUvarint buf (u64 (len bs)));
  t ← lift (slice_from bs r.2);
  mret (copy r.1 t).
Definition Size (v : loc) : M Z :=
  bs ← load as_bytes v;
  n ← lift (uvarintSize (u64 (len bs)));
  mret (n + len bs).
(** [ *e.v = make([]byte, l); copy(buf[n:], *e.v)]. *)
Definition Decode (v : loc) (buf : list Z) : M (error * list Z) :=
  let '(l, n) := Uvarint buf in
  if n =? 0 then mret (io_ErrUnexpectedEOF, buf)
  else if n <? 0 then mret (errOverflowVarint, buf)
  else
    t ← lift (slice_from buf n);
    if u64 (len t) <? l then mret (io_ErrUnexpectedEOF, buf)
    else
      bs ← lift (make l);
      assign v (VBytes bs);;
      mret (err_nil, splice buf n (copy t bs)).
End lengthDelimBytes.

Module lengthDelimString.
Definition Encode (v : loc) (buf : list Z) : M (list Z) :=
  s ← load as_string v;
  r ← lift (PutUvarint buf (u64 (len s)));
  t ← lift (slice_from s r.2);
  mret (copy r.1 t).
Definition Size (v : loc) : M Z :=
  s ← load as_string v;
  n ← lift (uvarintSize (u64 (len s)));
  mret (n + len s).
(** [ *e.v = string(buf[n:])]. *)
Definition Decode (v : loc) (buf : list Z) : M (error * list Z) :=
  let '(l, n) := Uvarint buf in
  if n =? 0 then mret (io_ErrUnexpectedEOF, buf)
  else if n <? 0 then mret (errOverflowVarint, buf)
  else
    t ← lift (slice_from buf n);
    if u64 (len t) <? l then mret (io_ErrUnexpectedEOF, buf)
    else
      assign v (VString t);;
      mret (err_nil, buf).
End lengthDelimString.

Module bytes16.
Definition Encode (v : loc) (buf : list Z) : M (list Z) :=
  a ← load as_array16 v;
  mret (copy buf a).
Definition Size (v : loc) : M Z := mret 16.
Definition Decode (v : loc) (buf : list Z) : M (error * list Z) :=
  if len buf <? 16 then mret (io_ErrUnexpectedEOF, buf)
  else
    a ← load as_array16 v;
    t ← lift (slice_to buf 16);
    assign v (VArray16 (copy a t));;
    mret (err_nil, buf).
End bytes16.

Module bytes32.
Definition Encode (v : loc) (buf : list Z) : M (list Z) :=
  a ← load as_array32 v;
  mret (copy buf a).
Definition Size (v : loc) : M Z := mret 32.
Definition Decode (v : loc) (buf : list Z) : M (error * list Z) :=
  if len buf <? 32 then mret (io_ErrUnexpectedEOF, buf)
  else
    a ← load as_array32 v;
    t ← lift (slice_to buf 32);
    assign v (VArray32 (copy a t));;
    mret (err_nil, buf).
End bytes32.

(** The exported constructors. *)
Definition Padding (n : Z) : Item :=
  mkItem (padding.Encode n) (padding.Decode n) (padding.Size n).
Definition Byte (v : loc) : Item :=
  mkItem (encByte.Encode v) (encByte.Decode v) (encByte.Size v).
Definition Bool (v : loc) : Item :=
  mkItem (encBool.Encode v) (encBool.Decode v) (encBool.Size v).
Definition BigEndianUint16 (v : loc) : Item :=
  mkItem (bigEndianUint16.Encode v) (bigEndianUint16.Decode v)
         (bigEndianUint16.Size v).
Definition BigEndianUint32 (v : loc) : Item :=
  mkItem (bigEndianUint32.Encode v) (bigEndianUint32.Decode v)
         (bigEndianUint32.Size v).
Definition BigEndianUint64 (v : loc) : Item :=
  mkItem (bigEndianUint64.Encode v) (bigEndianUint64.Decode v)
         (bigEndianUint64.Size v).
Definition Uvarint32 (v : loc) : Item :=
  mkItem (uvarint32.Encode v) (uvarint32.Decode v) (uvarint32.Size v).
Definition Uvarint64 (v : loc) : Item :=
  mkItem (uvarint64.Encode v) (uvarint64.Decode v) (uvarint64.Size v).
Definition OrdUvarint64 (v : loc) : Item :=
  mkItem (ordUvarint64.Encode v) (ordUvarint64.Decode v)
         (ordUvarint64.Size v).
Definition LengthDelimBytes (v : loc) : Item :=
  mkItem (lengthDelimBytes.Encode v) (lengthDelimBytes.Decode v)
         (lengthDelimBytes.Size v).
Definition LengthDelimString (v : loc) : Item :=
  mkItem (lengthDelimString.Encode v) (lengthDelimString.Decode v)
         (lengthDelimString.Size v).
Definition Bytes16 (v : loc) : Item :=
  mkItem (bytes16.Encode v) (bytes16.Decode v) (bytes16.Size v).
Definition Bytes32 (v : loc) : Item :=
  mkItem (bytes32.Encode v) (bytes32.Decode v) (bytes32.Size v).

(** The item kinds of the package. *)
Inductive package_item : Item → Prop :=
| pi_Padding n : package_item (Padding n)
| pi_Byte v : package_item (Byte v)
| pi_Bool v : package_item (Bool v)
| pi_BigEndianUint16 v : package_item (BigEndianUint16 v)
| pi_BigEndianUint32 v : package_item (BigEndianUint32 v)
| pi_BigEndianUint64 v : package_item (BigEndianUint64 v)
| pi_Uvarint32 v : package_item (Uvarint32 v)
| pi_Uvarint64 v : package_item (Uvarint64 v)
| pi_OrdUvarint64 v : package_item (OrdUvarint64 v)
| pi_LengthDelimBytes v : package_item (LengthDelimBytes v)
| pi_LengthDelimString v : package_item (LengthDelimString v)
| pi_Bytes16 v : package_item (Bytes16 v)
| pi_Bytes32 v : package_item (Bytes32 v).

(** ** [Encoding] *)

Record Encoding := mkEncoding { items : list Item }.

Definition New (its : list Item) : Encoding := mkEncoding its.

(** [for _, item := range enc.items { totalSize += item.Size() }]. The
    sum is taken in the integers; [totalSize_int] (below) is the sum in
    the 64-bit [int] of the program. *)
Fixpoint total_size (its : list Item) (totalSize : Z) : M Z :=
  match its with
  | [] => mret totalSize
  | item :: its =>
      n ← Size item;
      total_size its (totalSize + n)
  end.

(** [for _, item := range enc.items { size := item.Size();
     item.Encode(buf[i : i+size]); i += size }]. *)
Fixpoint Encode_loop (its : list Item) (buf : list Z) (i : Z) : M (list Z) :=
  match its with
  | [] => mret buf
  | item :: its =>
      size ← Size item;
      w ← lift (slice buf i (i + size));
      w ← Encode item w;
      Encode_loop its (splice buf i w) (i + size)
  end.

Definition Encoding_Encode (enc : Encoding) : M (list Z) :=
  totalSize ← total_size (items enc) 0;
  buf ← lift (make totalSize);
  Encode_loop (items enc) buf 0.

(** [for _, item := range enc.items { err := item.Decode(buf[i:]);
     if err != nil { return err }; i += item.Size() }; return nil].
    The loop state (the offset and the buffer as the items left it) is
    returned with the error. *)
Fixpoint Decode_loop (its : list Item) (buf : list Z) (i : Z)
  : M (error * (list Z * Z)) :=
  match its with
  | [] => mret (err_nil, (buf, i))
  | item :: its =>
      w ← lift (slice_from buf i);
      r ← Decode item w;
      let buf := splice buf i r.2 in
      match r.1 with
      | err_nil =>
          n ← Size item;
          Decode_loop its buf (i + n)
      | err => mret (err, (buf, i))
      end
  end.

Definition Encoding_Decode (enc : Encoding) (buf : list Z) : M error :=
  r ← Decode_loop (items enc) buf 0;
  mret r.1.

(** ** Big-endian byte strings *)

(** The [n] low-order bytes of [x], most significant first. *)
Fixpoint be_bytes (n : nat) (x : Z) : list Z :=
  match n with
  | O => []
  | S k => u8 (Z.shiftr x (8 * Z.of_nat k)) :: be_bytes k x
  end.

(** The number a byte string denotes, most significant byte first. *)
Fixpoint be_combine (bs : list Z) : Z :=
  match bs with
  | [] => 0
  | b :: bs => b * 2 ^ (8 * len bs) + be_combine bs
  end.

(** ** The signed order-preserving codec *)

(** Modelled from the spec: [OrdVarint64], the signed counterpart of
    [OrdUvarint64]. [encode_test.go] exercises it, [encode.go] does not
    define it. Section 4.4 of the specification gives its layout: an
    [n]-byte form for [n] from 1 up to 8, made of a run of [n] bits equal
    to the sign bit (ones for a non-negative value), one terminator bit of
    the opposite value, and the low [7n-1] bits of the two's-complement
    representation, packed big-endian; the values in [-64, 63] take one
    byte, and a value takes the shortest form that holds it (64 and -65
    take two bytes). A value outside the capacity of the 8-byte form takes
    the 9-byte escape: the marker [0xFF] (non-negative) or [0x00]
    (negative), then the 8-byte big-endian encoding of
    [uint64(x) + 2^63]. *)
Definition ordVarint64_fits (x : Z) (n : Z) : bool :=
  (- 2 ^ (7 * n - 1) <=? x) && (x <? 2 ^ (7 * n - 1)).

(** Modelled from the spec: the shortest form that holds [x], if one of
    the eight does. *)
Definition ordVarint64_nBytes (x : Z) : option Z :=
  list_find (ordVarint64_fits x) (seqZ 1 8) ≫= λ r, Some r.2.

(** Modelled from the spec: the bytes of [x], by the layout above. *)
Definition ordVarint64_encode (x : Z) : list Z :=
  match ordVarint64_nBytes x with
  | Some n =>
      let header :=
        if 0 <=? x then (2 ^ n - 1) * 2 ^ (7 * n) else 2 ^ (7 * n - 1) in
      let payload := x mod 2 ^ (7 * n - 1) in
      be_bytes (Z.to_nat n) (header + payload)
  | None =>
      (if 0 <=? x then 0xFF else 0x00) :: be_bytes 8 (u64 (u64 x + 2 ^ 63))
  end.

(** ** The layout of [OrdUvarint64] in closed form

    [compact n x] is the [n]-byte form of the table in the documentation
    of [OrdUvarint64]: [n-1] leading ones, a zero, and the bits of [x]
    right-aligned; [escape x] is the 9-byte form. That [Encode] writes
    exactly these is [ordUvarint64_Encoding_Encode] below. *)
Definition compact (n x : Z) : list Z :=
  (256 - 2 ^ (9 - n) + x / 2 ^ (8 * (n - 1))) :: be_bytes (Z.to_nat (n - 1)) x.
Definition escape (x : Z) : list Z := 0xFF :: be_bytes 8 x.

(** ** The example of the package documentation

    [encodableFoo.encoding()]: a [uint16], a length-delimited string and a
    [bool]. *)
Definition encodableFoo (a b c : loc) : Encoding :=
  New [BigEndianUint16 a; LengthDelimString b; Bool c].

(** ** [varintSize] *)

(** [binary.PutVarint(buf, x)]:
<<
    ux := uint64(x) << 1
    if x < 0 { ux = ^ux }
    return PutUvarint(buf, ux)
>> *)
Definition PutVarint (buf : list Z) (x : Z) : option (list Z * Z) :=
  let ux := shl 64 (u64 x) 1 in
  let ux := if x <? 0 then Z.lxor ux (2 ^ 64 - 1) else ux in
  PutUvarint buf ux.

(** [varintSize]: [PutVarint] into a scratch array of [MaxVarintLen64]
    bytes. *)
Definition varintSize (x : Z) : option Z :=
  b ← make MaxVarintLen64;
  snd <$> PutVarint b x.

(** ** Sequences described by their fields

    A sequence of items of the package, as data: which constructor each
    item comes from and which variable it is bound to. [item] is the item
    itself. *)
Inductive kind :=
| KByte
| KBool
| KBigEndianUint16
| KBigEndianUint32
| KBigEndianUint64
| KUvarint32
| KUvarint64
| KOrdUvarint64
| KLengthDelimBytes
| KLengthDelimString
| KBytes16
| KBytes32.

Inductive field :=
| FPadding (n : Z)
| FItem (k : kind) (v : loc).

Definition item (f : field) : Item :=
  match f with
  | FPadding n => Padding n
  | FItem KByte v => Byte v
  | FItem KBool v => Bool v
  | FItem KBigEndianUint16 v => BigEndianUint16 v
  | FItem KBigEndianUint32 v => BigEndianUint32 v
  | FItem KBigEndianUint64 v => BigEndianUint64 v
  | FItem KUvarint32 v => Uvarint32 v
  | FItem KUvarint64 v => Uvarint64 v
  | FItem KOrdUvarint64 v => OrdUvarint64 v
  | FItem KLengthDelimBytes v => LengthDelimBytes v
  | FItem KLengthDelimString v => LengthDelimString v
  | FItem KBytes16 v => Bytes16 v
  | FItem KBytes32 v => Bytes32 v
  end.

(** [typed k x]: [x] is a value of the Go type of the variable that an
    item of kind [k] points to ([byte], [bool], [uint16], ..., [[16]byte],
    [[32]byte]). *)
Definition is_byte (b : Z) : bool := (0 <=? b) && (b <? 2 ^ 8).

Definition typed (k : kind) (x : val) : bool :=
  match k, x with
  | KByte, VByte b => is_byte b
  | KBool, VBool _ => true
  | KBigEndianUint16, VUint16 x => (0 <=? x) && (x <? 2 ^ 16)
  | KBigEndianUint32, VUint32 x => (0 <=? x) && (x <? 2 ^ 32)
  | KUvarint32, VUint32 x => (0 <=? x) && (x <? 2 ^ 32)
  | KBigEndianUint64, VUint64 x => (0 <=? x) && (x <? 2 ^ 64)
  | KUvarint64, VUint64 x => (0 <=? x) && (x <? 2 ^ 64)
  | KOrdUvarint64, VUint64 x => (0 <=? x) && (x <? 2 ^ 64)
  | KLengthDelimBytes, VBytes bs => forallb is_byte bs
  | KLengthDelimString, VString s => forallb is_byte s
  | KBytes16, VArray16 a => (len a =? 16) && forallb is_byte a
  | KBytes32, VArray32 a => (len a =? 32) && forallb is_byte a
  | _, _ => false
  end.

(** [bound σ f]: the variable of [f] exists in [σ] and holds a value of
    its type; a padding has a size that is not negative. *)
Definition bound (σ : gmap loc val) (f : field) : bool :=
  match f with
  | FPadding n => 0 <=? n
  | FItem k v =>
      match σ !! v with
      | Some x => typed k x
      | None => false
      end
  end.

(** The kinds other than the two length-delimited ones. *)
Definition sound (f : field) : bool :=
  match f with
  | FItem KLengthDelimBytes _ | FItem KLengthDelimString _ => false
  | _ => true
  end.

(** The store [σ'] after the variable of [f] has received the value it
    has in [σ]. *)
Definition written (σ : gmap loc val) (f : field) (σ' : gmap loc val)
  : gmap loc val :=
  match f with
  | FPadding _ => σ'
  | FItem _ v =>
      match σ !! v with
      | Some x => <[v := x]> σ'
      | None => σ'
      end
  end.

(** ** Contracts on items

    [encodes it σ e]: in the store [σ] the item reports the size of [e]
    and fills a zeroed slice of that size with [e], leaving the store.
    [decodes it e σ σ']: from [e], with whatever follows it, the item
    decodes without error and without touching the slice, takes the store
    from [σ] to [σ'], and then reports the size of [e]. *)
Definition encodes (it : Item) (σ : gmap loc val) (e : list Z) : Prop :=
  Size it σ = (Some (len e), σ) ∧
  Encode it (replicate (length e) 0) σ = (Some e, σ).

Definition decodes (it : Item) (e : list Z) (σ σ' : gmap loc val) : Prop :=
  ∀ rest,
    Decode it (e ++ rest) σ = (Some (err_nil, e ++ rest), σ') ∧
    Size it σ' = (Some (len e), σ').

(** The items decode the byte strings [es] one after the other, taking
    the store from [σ] to [σ']. *)
Inductive decode_chain :
  list Item → list (list Z) → gmap loc val → gmap loc val → Prop :=
| decode_chain_nil σ : decode_chain [] [] σ σ
| decode_chain_cons it its e es σ σ1 σ2 :
    decodes it e σ σ1 →
    decode_chain its es σ1 σ2 →
    decode_chain (it :: its) (e :: es) σ σ2.

(** What a field offers to a sequence: in the store [σ] it encodes to
    [e]; [e] decodes, from the front of any buffer, into a store where the
    variable is bound, writing the value of [σ]; and every strict prefix
    of [e] is reported as truncated. *)
Definition field_codec (σ : gmap loc val) (f : field) (e : list Z) : Prop :=
  encodes (item f) σ e ∧
  (∀ σ', bound σ' f = true → decodes (item f) e σ' (written σ f σ')) ∧
  (∀ (k : nat) σ', (k < length e)%nat →
     Decode (item f) (take k e) σ'
     = (Some (io_ErrUnexpectedEOF, take k e), σ')).

(** ** Valid encodings

    [valid_encoding σ f e]: [e] is the encoding of the field [f] for the
    value that its variable holds in [σ]. For a padding of size [n] these
    are any [n] bytes: [padding.Encode] leaves the slice it is given. For
    the two length-delimited kinds this is, following their documentation
    ("v's length as a uvarint followed by v"), the varint of the length
    and then the payload; their [Encode] methods write something else.
    For every other kind it is the buffer that [Encoding.Encode] returns
    for the item alone. *)
Definition valid_encoding (σ : gmap loc val) (f : field) (e : list Z) : Prop :=
  match f with
  | FPadding n => len e = n
  | FItem KLengthDelimBytes p =>
      ∃ v b n, σ !! p = Some (VBytes v) ∧ len v < 2 ^ 64 ∧
        PutUvarint (replicate (Z.to_nat MaxVarintLen64) 0) (len v)
        = Some (b, n) ∧
        e = take (Z.to_nat n) b ++ v
  | FItem KLengthDelimString p =>
      ∃ v b n, σ !! p = Some (VString v) ∧ len v < 2 ^ 64 ∧
        PutUvarint (replicate (Z.to_nat MaxVarintLen64) 0) (len v)
        = Some (b, n) ∧
        e = take (Z.to_nat n) b ++ v
  | FItem _ _ => Encoding_Encode (New [item f]) σ = (Some e, σ)
  end.

(** ** The limits of [int] and of [make]

    Sizes and lengths are mathematical integers in [total_size] and
    [make]. The program adds the sizes in an [int], 64 bits wide and
    wrapping, and the runtime refuses a length above [maxAlloc]
    ("makeslice: len out of range"; 2^48 bytes where heap addresses have
    48 bits, as on linux/amd64). [totalSize_int ns] is the value of
    [totalSize] as the program computes it from the sizes [ns]. The two
    views agree as long as the sizes, none of them negative, sum up to at
    most [maxAlloc]; the properties that say [Encoding.Encode] returns a
    buffer for a sequence with paddings assume this of the sequence. *)
Definition maxAlloc : Z := 2 ^ 48.

Definition int (z : Z) : Z := (z + 2 ^ 63) mod 2 ^ 64 - 2 ^ 63.

Definition sum_sizes (ns : list Z) : Z := foldr Z.add 0 ns.

Definition totalSize_int (ns : list Z) : Z :=
  foldl (λ totalSize n, int (totalSize + n)) 0 ns.

(** * Properties *)

(** ** Running the monad *)

Lemma bind_run {A B} (m : M A) (f : A → M B) σ a σ' :
  m σ = (Some a, σ') → (m ≫= f) σ = f a σ'.
Proof. intros H. unfold mbind, M_bind. by rewrite H. Qed.

Lemma bind_panic {A B} (m : M A) (f : A → M B) σ σ' :
  m σ = (None, σ') → (m ≫= f) σ = (None, σ').
Proof. intros H. unfold mbind, M_bind. by rewrite H. Qed.

Lemma ret_run {A} (a : A) σ : mret (M := M) a σ = (Some a, σ).
Proof. reflexivity. Qed.

Lemma lift_run {A} (o : option A) σ : lift o σ = (o, σ).
Proof. reflexivity. Qed.

Lemma load_run {A} (f : val → option A) p σ v a :
  σ !! p = Some v → f v = Some a → load f p σ = (Some a, σ).
Proof. intros H1 H2. unfold load. rewrite H1. simpl. by rewrite H2. Qed.

Lemma assign_run p v (σ : gmap loc val) :
  is_Some (σ !! p) → assign p v σ = (Some (), <[p := v]> σ).
Proof. intros [w H]. unfold assign. by rewrite H. Qed.

(** ** Methods that leave the store alone *)

Lemma frame_ret {A} (a : A) : frame (mret a).
Proof. by intros σ. Qed.

Lemma frame_lift {A} (o : option A) : frame (lift o).
Proof. by intros σ. Qed.

Lemma frame_load {A} (f : val → option A) p : frame (load f p).
Proof. by intros σ. Qed.

Lemma frame_bind {A B} (m : M A) (f : A → M B) :
  frame m → (∀ a, frame (f a)) → frame (m ≫= f).
Proof.
  intros Hm Hf σ. unfold mbind, M_bind.
  specialize (Hm σ). destruct (m σ) as [[a|] σ']; simpl in Hm; subst.
  - apply Hf.
  - done.
Qed.

Lemma frame_if {A} (c : bool) (m1 m2 : M A) :
  frame m1 → frame m2 → frame (if c then m1 else m2).
Proof. by destruct c. Qed.

Create HintDb frame.
#[local] Hint Resolve frame_ret frame_lift frame_load frame_if : frame.
#[local] Hint Extern 2 (frame (_ ≫= _)) => apply frame_bind; [|intros ?] : frame.

Lemma frame_total_size its : ∀ n, (∀ it, it ∈ its → frame (Size it)) →
  frame (total_size its n).
Proof.
  induction its as [|it its IH]; intros n H; simpl.
  - apply frame_ret.
  - apply frame_bind; [apply H; constructor|].
    intros a. apply IH. intros it' Hin. apply H. by constructor.
Qed.

Lemma package_Size_frame it : package_item it → frame (Size it).
Proof.
  destruct 1; simpl;
    unfold padding.Size, encByte.Size, encBool.Size, bigEndianUint16.Size,
      bigEndianUint32.Size, bigEndianUint64.Size, uvarint32.Size,
      uvarint64.Size, ordUvarint64.Size, lengthDelimBytes.Size,
      lengthDelimString.Size, bytes16.Size, bytes32.Size;
    auto 10 with frame.
Qed.

Lemma package_Encode_frame it buf : package_item it → frame (Encode it buf).
Proof.
  destruct 1; simpl;
    unfold padding.Encode, encByte.Encode, encBool.Encode,
      bigEndianUint16.Encode, bigEndianUint32.Encode, bigEndianUint64.Encode,
      uvarint32.Encode, uvarint64.Encode, ordUvarint64.Encode,
      lengthDelimBytes.Encode, lengthDelimString.Encode, bytes16.Encode,
      bytes32.Encode;
    auto 12 with frame.
Qed.

(** C9. For every item kind of the package, every buffer and every store,
    [Encode] returns the store exactly as it received it: the bound
    variable (and every other one) keeps its value, whether [Encode]
    returns or panics. *)
Theorem Encode_leaves_store (it : Item) (buf : list Z) (σ : gmap loc val) :
  package_item it → (Encode it buf σ).2 = σ.
Proof. intros H. by apply package_Encode_frame. Qed.

Lemma Encode_leaves_store_witness :
  (Encode (OrdUvarint64 1%positive) [0; 0]
     {[ 1%positive := VUint64 300 ]}).2 = {[ 1%positive := VUint64 300 ]}.
Proof.
  apply (Encode_leaves_store (OrdUvarint64 1%positive) [0; 0]
           {[ 1%positive := VUint64 300 ]}).
  apply pi_OrdUvarint64.
Defined.

(** ** A failing [Decode] writes nothing *)

Lemma bind_inv {A B} (m : M A) (f : A → M B) σ b σ' :
  (m ≫= f) σ = (Some b, σ') →
  ∃ a σ1, m σ = (Some a, σ1) ∧ f a σ1 = (Some b, σ').
Proof.
  unfold mbind, M_bind. destruct (m σ) as [[a|] σ1]; [eauto | discriminate].
Qed.

Lemma ret_inv {A} (a b : A) (σ σ' : gmap loc val) :
  mret (M := M) a σ = (Some b, σ') → a = b ∧ σ = σ'.
Proof. unfold mret, M_ret. by intros [= -> ->]. Qed.

Ltac invert_run H :=
  repeat match type of H with
  | (if ?c then _ else _) _ = _ => destruct c
  | (let '(_, _) := ?u in _) _ = _ => destruct u
  | (_ ≫= _) _ = (Some _, _) =>
      let a := fresh "a" in let σ1 := fresh "σ" in let E := fresh "E" in
      apply bind_inv in H as (a & σ1 & E & H)
  end.

Lemma package_Decode_error it w σ e w' σ' :
  package_item it →
  Decode it w σ = (Some (e, w'), σ') →
  e ≠ err_nil →
  σ' = σ ∧ w' = w.
Proof.
  intros Hit H He. destruct Hit; simpl in H;
    unfold padding.Decode, encByte.Decode, encBool.Decode,
      bigEndianUint16.Decode, bigEndianUint32.Decode, bigEndianUint64.Decode,
      uvarint32.Decode, uvarint64.Decode, ordUvarint64.Decode,
      lengthDelimBytes.Decode, lengthDelimString.Decode, bytes16.Decode,
      bytes32.Decode in H;
    invert_run H;
    apply ret_inv in H as [[= <- <-] <-]; try done;
    repeat match goal with
    | E : lift _ _ = (Some _, _) |- _ => apply (f_equal snd) in E; simpl in E
    end; by subst.
Qed.

(** ** [Encoding.Decode] *)

Lemma Decode_loop_app pre rest : ∀ buf i σ b j σk,
  Decode_loop pre buf i σ = (Some (err_nil, (b, j)), σk) →
  Decode_loop (pre ++ rest) buf i σ = Decode_loop rest b j σk.
Proof.
  induction pre as [|it pre IH]; intros buf i σ b j σk H; simpl in *.
  - by apply ret_inv in H as [[= <- <-] <-].
  - apply bind_inv in H as (w & σ1 & E1 & H).
    apply bind_inv in H as (r & σ2 & E2 & H).
    rewrite (bind_run _ _ _ _ _ E1), (bind_run _ _ _ _ _ E2).
    destruct (r.1).
    + apply bind_inv in H as (n & σ3 & E3 & H).
      rewrite (bind_run _ _ _ _ _ E3). by apply IH.
    + by apply ret_inv in H as [[=] _].
    + by apply ret_inv in H as [[=] _].
Qed.

(** C7. When the items before item [k] decode without error and item [k]
    returns an error, [Encoding.Decode] returns that very error and the
    store is the one item [k] left: no method of a later item is called,
    whatever the later items are. For the item kinds of the package a
    failing [Decode] writes nothing, so the store is then exactly what the
    items before [k] made of it. *)
Theorem Decode_stops_at_first_error
    (pre post : list Item) (it : Item) (buf buf_k w w' : list Z) (i : Z)
    (σ σ_k σ' : gmap loc val) (e : error) :
  Decode_loop pre buf 0 σ = (Some (err_nil, (buf_k, i)), σ_k) →
  slice_from buf_k i = Some w →
  Decode it w σ_k = (Some (e, w'), σ') →
  e ≠ err_nil →
  Encoding_Decode (New (pre ++ it :: post)) buf σ = (Some e, σ') ∧
  (package_item it → σ' = σ_k).
Proof.
  intros Hpre Hw Hit He. split.
  - assert (Decode_loop (pre ++ it :: post) buf 0 σ
            = (Some (e, (splice buf_k i w', i)), σ')) as Hloop.
    { rewrite (Decode_loop_app _ _ _ _ _ _ _ _ Hpre). simpl.
      erewrite bind_run; [|unfold lift; by rewrite Hw].
      erewrite bind_run; [|exact Hit].
      simpl. by destruct e. }
    unfold Encoding_Decode, New. simpl.
    by rewrite (bind_run _ _ _ _ _ Hloop).
  - intros Hpkg. by destruct (package_Decode_error _ _ _ _ _ _ Hpkg Hit He).
Qed.

Lemma Decode_stops_at_first_error_witness :
  let σ0 : gmap loc val :=
    {[ 1%positive := VUint16 0; 2%positive := VBool true;
       3%positive := VByte 7 ]} in
  Encoding_Decode
    (New ([BigEndianUint16 1%positive] ++
          Bool 2%positive :: [Byte 3%positive])) [1; 2] σ0
  = (Some io_ErrUnexpectedEOF, <[ 1%positive := VUint16 258 ]> σ0) ∧
  (package_item (Bool 2%positive) →
   <[ 1%positive := VUint16 258 ]> σ0 = <[ 1%positive := VUint16 258 ]> σ0).
Proof.
  intros σ0.
  apply (Decode_stops_at_first_error [BigEndianUint16 1%positive]
           [Byte 3%positive] (Bool 2%positive) [1; 2] [1; 2] [] [] 2).
  - reflexivity.
  - reflexivity.
  - reflexivity.
  - discriminate.
Defined.

(** ** Bits and machine arithmetic *)

Lemma land_mul_pow2_small a lo k :
  0 ≤ k → 0 ≤ lo < 2 ^ k → Z.land (a * 2 ^ k) lo = 0.
Proof.
  intros Hk Hlo. apply Z.bits_inj'. intros n Hn.
  rewrite Z.land_spec, Z.bits_0, <- Z.shiftl_mul_pow2 by lia.
  destruct (Z.lt_ge_cases n k).
  - by rewrite Z.shiftl_spec_low.
  - assert (Z.testbit lo n = false) as ->; [|apply andb_false_r].
    destruct (Z.eq_dec lo 0) as [->|]; [apply Z.bits_0|].
    apply Z.bits_above_log2; [lia|].
    apply Z.lt_le_trans with k; [|lia].
    apply Z.log2_lt_pow2; lia.
Qed.

Lemma lor_add a lo k :
  0 ≤ k → 0 ≤ lo < 2 ^ k → Z.lor (a * 2 ^ k) lo = a * 2 ^ k + lo.
Proof.
  intros Hk Hlo. pose proof (land_mul_pow2_small a lo k Hk Hlo) as H.
  by rewrite <- Z.lxor_lor, <- Z.add_nocarry_lxor.
Qed.

Lemma bits_Len_bounds x : 0 < x → 2 ^ (bits_Len x - 1) ≤ x < 2 ^ bits_Len x.
Proof.
  intros Hx. unfold bits_Len. destruct (Z.eqb_spec x 0); [lia|].
  pose proof (Z.log2_spec x Hx).
  replace (Z.log2 x + 1 - 1) with (Z.log2 x) by lia.
  replace (Z.log2 x + 1) with (Z.succ (Z.log2 x)) by lia. done.
Qed.

Lemma bits_Len_pos x : 0 < x → 1 ≤ bits_Len x.
Proof.
  intros Hx. unfold bits_Len. destruct (Z.eqb_spec x 0); [lia|].
  pose proof (Z.log2_nonneg x). lia.
Qed.

Lemma bits_Len_le x k : 0 ≤ k → 0 ≤ x < 2 ^ k → bits_Len x ≤ k.
Proof.
  intros Hk Hx. unfold bits_Len. destruct (Z.eqb_spec x 0); [lia|].
  assert (Z.log2 x < k); [apply Z.log2_lt_pow2; lia | lia].
Qed.

Lemma bits_Len_gt x k : 0 ≤ k → 2 ^ k ≤ x → k < bits_Len x.
Proof.
  intros Hk Hx. assert (0 < 2 ^ k) by (apply Z.pow_pos_nonneg; lia).
  unfold bits_Len. destruct (Z.eqb_spec x 0); [lia|].
  assert (k ≤ Z.log2 x); [apply Z.log2_le_pow2; lia | lia].
Qed.

Lemma forall_byte (f : Z → bool) :
  forallb f (seqZ 0 256) = true → ∀ c, 0 ≤ c < 256 → f c = true.
Proof.
  intros H c Hc. rewrite forallb_forall in H. apply H.
  apply list_elem_of_In, elem_of_seqZ. lia.
Qed.

Lemma u8_range x : 0 ≤ u8 x < 256.
Proof. unfold u8. apply Z.mod_pos_bound. lia. Qed.

Lemma u8_small x : 0 ≤ x < 256 → u8 x = x.
Proof. intros. unfold u8. by apply Z.mod_small. Qed.

Lemma shl_small w x s :
  0 ≤ s → 0 ≤ x → x * 2 ^ s < 2 ^ w → shl w x s = x * 2 ^ s.
Proof.
  intros Hs Hx H. unfold shl.
  assert (0 < 2 ^ s) by (apply Z.pow_pos_nonneg; lia).
  destruct (Z.leb_spec w s).
  - destruct (Z.eq_dec x 0) as [->|]; [lia|].
    assert (2 ^ w ≤ 2 ^ s).
    { destruct (Z.lt_ge_cases w 0).
      - rewrite (Z.pow_neg_r 2 w) by lia. lia.
      - apply Z.pow_le_mono_r; lia. }
    nia.
  - rewrite Z.shiftl_mul_pow2 by lia. apply Z.mod_small. nia.
Qed.

Lemma shr_small w x s : 0 ≤ s < w → shr w x s = x / 2 ^ s.
Proof.
  intros Hs. unfold shr. destruct (Z.leb_spec w s); [lia|].
  apply Z.shiftr_div_pow2. lia.
Qed.

(** Updating one element of a slice. *)
Lemma upd_Some buf i x buf' :
  upd buf i x = Some buf' →
  0 ≤ i < len buf ∧ buf' = <[Z.to_nat i := x]> buf.
Proof.
  unfold upd, len. intros H.
  destruct (Z.leb_spec 0 i), (Z.ltb_spec i (Z.of_nat (length buf)));
    simpl in H; try discriminate.
  injection H as <-. split; [lia | done].
Qed.

Lemma upd_run buf i x :
  0 ≤ i < len buf → upd buf i x = Some (<[Z.to_nat i := x]> buf).
Proof.
  unfold upd, len. intros H.
  destruct (Z.leb_spec 0 i), (Z.ltb_spec i (Z.of_nat (length buf)));
    simpl; try lia. done.
Qed.

Lemma idx_run buf i : 0 ≤ i → idx buf i = buf !! Z.to_nat i.
Proof. intros H. unfold idx. destruct (Z.ltb_spec i 0); [lia | done]. Qed.

Lemma len_nonneg buf : 0 ≤ len buf.
Proof. unfold len. lia. Qed.

(** ** The conventional varint of [encoding/binary] *)

Lemma PutUvarint_loop_prefix fuel : ∀ b x i b' n,
  PutUvarint_loop fuel b x i = Some (b', n) → 0 ≤ i →
  length b' = length b ∧ i < n ≤ i + Z.of_nat fuel ∧
  ∀ j, (j < Z.to_nat i)%nat → b' !! j = b !! j.
Proof.
  induction fuel as [|fuel IH]; intros b x i b' n H Hi; simpl in H;
    [discriminate|].
  destruct (0x80 <=? x).
  - destruct (upd b i _) as [b1|] eqn:E; simpl in H; [|discriminate].
    apply upd_Some in E as [Hr ->].
    apply IH in H as (Hl & Hn & Hp); [|lia].
    rewrite length_insert in Hl. split; [done|]. split; [lia|].
    intros j Hj. rewrite Hp by lia. apply list_lookup_insert_ne. lia.
  - destruct (upd b i _) as [b1|] eqn:E; simpl in H; [|discriminate].
    apply upd_Some in E as [Hr ->]. injection H as <- <-.
    rewrite length_insert. split; [done|]. split; [lia|].
    intros j Hj. apply list_lookup_insert_ne. lia.
Qed.

Lemma continuation_byte c :
  0 ≤ c < 256 →
  0x80 ≤ Z.lor c 0x80 < 256 ∧ Z.land (Z.lor c 0x80) 0x7f = c mod 128.
Proof.
  intros Hc.
  pose proof (forall_byte
    (λ c, (0x80 <=? Z.lor c 0x80) && (Z.lor c 0x80 <? 256) &&
          (Z.land (Z.lor c 0x80) 0x7f =? c mod 128)) eq_refl c Hc) as H.
  simpl in H. apply andb_prop in H as [H H3]. apply andb_prop in H as [H1 H2].
  lia.
Qed.

Lemma pow2_7_split i : 0 ≤ i → 2 ^ (7 * (i + 1)) = 128 * 2 ^ (7 * i).
Proof.
  intros. replace (7 * (i + 1)) with (7 + 7 * i) by lia.
  rewrite Z.pow_add_r by lia. done.
Qed.

Lemma PutUvarint_Uvarint_loop fuel : ∀ b x i b' n acc,
  PutUvarint_loop fuel b x i = Some (b', n) →
  0 ≤ i ≤ 9 → 0 ≤ x → x * 2 ^ (7 * i) < 2 ^ 64 → 0 ≤ acc < 2 ^ (7 * i) →
  Uvarint_loop (drop (Z.to_nat i) b') i acc (7 * i)
  = (acc + x * 2 ^ (7 * i), n).
Proof.
  induction fuel as [|fuel IH]; intros b x i b' n acc H Hi Hx Hx' Hacc;
    simpl in H; [discriminate|].
  assert (0 < 2 ^ (7 * i)) as Hpow by (apply Z.pow_pos_nonneg; lia).
  destruct (Z.leb_spec 0x80 x) as [Hge|Hlt].
  - destruct (upd b i _) as [b1|] eqn:E; simpl in H; [|discriminate].
    apply upd_Some in E as [Hr ->].
    pose proof (PutUvarint_loop_prefix _ _ _ _ _ _ H ltac:(lia))
      as (Hl & Hn & Hp).
    assert (i ≤ 8) as Hi8.
    { destruct (Z.eq_dec i 9) as [->|]; [|lia].
      change (2 ^ (7 * 9)) with 9223372036854775808 in *.
      change (2 ^ 64) with 18446744073709551616 in *. lia. }
    destruct (continuation_byte (u8 x) (u8_range x)) as [Hb Hland].
    assert (b' !! Z.to_nat i = Some (Z.lor (u8 x) 0x80)) as Hbi.
    { rewrite Hp by lia. apply list_lookup_insert_eq.
      unfold len in Hr. lia. }
    rewrite (drop_S _ _ _ Hbi). simpl.
    destruct (Z.eqb_spec i MaxVarintLen64); [unfold MaxVarintLen64 in *; lia|].
    destruct (Z.ltb_spec (Z.lor (u8 x) 128) 128); [lia|].
    replace (S (Z.to_nat i)) with (Z.to_nat (i + 1)) by lia.
    replace (7 * i + 7) with (7 * (i + 1)) by lia.
    rewrite shr_small in H by lia.
    change (2 ^ 7) with 128 in H.
    change (Z.land (Z.lor (u8 x) 128) 127) with
      (Z.land (Z.lor (u8 x) 0x80) 0x7f).
    rewrite Hland.
    assert (u8 x mod 128 = x mod 128) as ->.
    { unfold u8. apply Z.mod_mod_divide. by exists 2. }
    pose proof (Z.mod_pos_bound x 128 ltac:(lia)) as Hm.
    pose proof (Z.div_mod x 128 ltac:(lia)) as Hdm.
    assert (0 ≤ x / 128) by (apply Z.div_pos; lia).
    rewrite shl_small by nia.
    rewrite Z.lor_comm, lor_add by lia.
    rewrite (IH _ _ _ _ _ _ H); rewrite ?pow2_7_split by lia; try nia; try lia.
    f_equal. nia.
  - destruct (upd b i _) as [b1|] eqn:E; simpl in H; [|discriminate].
    apply upd_Some in E as [Hr ->]. injection H as <- <-.
    rewrite u8_small by lia.
    assert (<[Z.to_nat i:=x]> b !! Z.to_nat i = Some x) as Hbi.
    { apply list_lookup_insert_eq. unfold len in Hr. lia. }
    rewrite (drop_S _ _ _ Hbi). simpl.
    destruct (Z.eqb_spec i MaxVarintLen64); [unfold MaxVarintLen64 in *; lia|].
    destruct (Z.ltb_spec x 128); [|lia].
    assert ((i =? MaxVarintLen64 - 1) && (1 <? x) = false) as ->.
    { destruct (Z.eqb_spec i (MaxVarintLen64 - 1)) as [->|]; [|done].
      simpl. apply Z.ltb_ge.
      change (2 ^ (7 * (MaxVarintLen64 - 1))) with 9223372036854775808 in *.
      change (2 ^ 64) with 18446744073709551616 in *. lia. }
    rewrite shl_small by lia.
    rewrite Z.lor_comm, lor_add by lia. f_equal. lia.
Qed.

Lemma PutUvarint_Uvarint b x b' n :
  PutUvarint b x = Some (b', n) → 0 ≤ x < 2 ^ 64 →
  Uvarint b' = (x, n) ∧ 1 ≤ n ≤ 10 ∧ length b' = length b.
Proof.
  intros H Hx. unfold PutUvarint in H.
  pose proof (PutUvarint_loop_prefix _ _ _ _ _ _ H ltac:(lia)) as (Hl & Hn & _).
  split; [|split; [lia | done]].
  pose proof (PutUvarint_Uvarint_loop _ _ _ _ _ _ 0 H) as Hrt.
  change (drop (Z.to_nat 0) b') with b' in Hrt.
  change (7 * 0) with 0 in Hrt. change (2 ^ 0) with 1 in Hrt.
  unfold Uvarint. rewrite Hrt; [|lia..].
  f_equal. lia.
Qed.

Lemma PutUvarint_loop_Some k : ∀ b x i,
  0 ≤ x < 2 ^ (7 * (Z.of_nat k + 1)) → 0 ≤ i → i + Z.of_nat k < len b →
  is_Some (PutUvarint_loop (S k) b x i).
Proof.
  induction k as [|k IH]; intros b x i Hx Hi Hlen; simpl.
  - change (2 ^ (7 * (Z.of_nat 0 + 1))) with 128 in Hx.
    destruct (Z.leb_spec 128 x); [lia|].
    rewrite upd_run by lia. simpl. eauto.
  - destruct (Z.leb_spec 128 x).
    + rewrite upd_run by lia. simpl. apply IH; [| lia |].
      * rewrite shr_small by lia. change (2 ^ 7) with 128.
        split; [apply Z.div_pos; lia|].
        apply Z.div_lt_upper_bound; [lia|].
        rewrite <- pow2_7_split by lia.
        replace (Z.of_nat k + 1 + 1) with (Z.of_nat (S k) + 1) by lia. lia.
      * unfold len in *. rewrite length_insert. lia.
    + rewrite upd_run by lia. simpl. eauto.
Qed.

Lemma uvarintSize_Some x : 0 ≤ x < 2 ^ 64 → ∃ n, uvarintSize x = Some n ∧ 1 ≤ n ≤ 10.
Proof.
  intros Hx. unfold uvarintSize.
  change (make MaxVarintLen64) with (Some (replicate 10%nat 0)).
  cbn [mbind option_bind].
  destruct (PutUvarint_loop_Some 9 (replicate 10 0) x 0) as [[b n] H];
    [simpl; lia | lia | unfold len; simpl; lia |].
  unfold PutUvarint. rewrite H. simpl. eexists; split; [done|].
  destruct (PutUvarint_loop_prefix _ _ _ _ _ _ H ltac:(lia)) as (_ & ? & _). lia.
Qed.

(** ** The loops of [ordUvarint64] *)

Lemma uint_small k : 0 ≤ k < 2 ^ 64 → uint k = k.
Proof. intros. unfold uint. by apply Z.mod_small. Qed.

Lemma len_app (a b : list Z) : len (a ++ b) = len a + len b.
Proof. unfold len. rewrite length_app. lia. Qed.

Lemma len_cons (a : Z) (b : list Z) : len (a :: b) = 1 + len b.
Proof. unfold len. simpl. lia. Qed.

Lemma length_be_bytes n x : length (be_bytes n x) = n.
Proof. induction n; simpl; congruence. Qed.

Lemma Encode_body_run x n pre b t :
  ordUvarint64.Encode_body x n (len pre) (pre ++ b :: t)
  = Some (pre ++ Z.lor b (u8 (shr 64 x (uint ((n - len pre - 1) * 8)))) :: t).
Proof.
  unfold ordUvarint64.Encode_body. pose proof (len_nonneg pre).
  pose proof (len_nonneg t).
  assert (Z.to_nat (len pre) = length pre) as Hpre by (unfold len; lia).
  rewrite idx_run, Hpre, list_lookup_middle by done. cbn [mbind option_bind].
  rewrite upd_run by (rewrite len_app, len_cons; lia).
  rewrite Hpre, insert_app_r_alt by lia.
  by replace (length pre - length pre)%nat with 0%nat by lia.
Qed.

Lemma Decode_body_run n pre b t acc :
  ordUvarint64.Decode_body (pre ++ b :: t) n (len pre) acc
  = Some (Z.lor acc (shl 64 b (uint (n * 8 - len pre * 8 - 8)))).
Proof.
  unfold ordUvarint64.Decode_body. pose proof (len_nonneg pre).
  assert (Z.to_nat (len pre) = length pre) as Hpre by (unfold len; lia).
  by rewrite idx_run, Hpre, list_lookup_middle.
Qed.

(** The loop of [ordUvarint64.Encode] ORs the big-endian bytes of [x]
    into the slice. *)
Lemma Encode_loop_spec x n : ∀ suf pre,
  len pre + len suf = n → n ≤ 8 →
  for_each (ordUvarint64.Encode_body x n) (seqZ (len pre) (len suf))
    (pre ++ suf)
  = Some (pre ++ zip_with Z.lor suf (be_bytes (length suf) x)).
Proof.
  induction suf as [|b t IH]; intros pre Hn Hle.
  - by simpl.
  - rewrite len_cons in Hn. pose proof (len_nonneg pre). pose proof (len_nonneg t).
    rewrite seqZ_cons by (rewrite len_cons; lia).
    cbn [for_each]. rewrite Encode_body_run. cbn [mbind option_bind].
    set (b' := Z.lor b _).
    pose proof (IH (pre ++ [b'])) as IH'.
    rewrite len_app, <- !app_assoc in IH'. change (len [b']) with 1 in IH'.
    cbn [app] in IH'.
    replace (Z.succ (len pre)) with (len pre + 1) by lia.
    replace (Z.pred (len (b :: t))) with (len t) by (rewrite len_cons; lia).
    rewrite IH' by lia. cbn [length be_bytes zip_with]. do 3 f_equal.
    subst b'. do 2 f_equal. fold (len t).
    replace ((n - len pre - 1) * 8) with (8 * len t) by lia.
    rewrite uint_small by (change (2 ^ 64) with 18446744073709551616; lia).
    unfold shr. destruct (Z.leb_spec 64 (8 * len t)); [lia|]. done.
Qed.

Lemma zip_with_lor_zeros k x :
  zip_with Z.lor (replicate k 0) (be_bytes k x) = be_bytes k x.
Proof. induction k; simpl; [done|]. by rewrite IHk. Qed.

Lemma be_bytes_range n x : Forall (λ b, 0 ≤ b < 256) (be_bytes n x).
Proof.
  induction n; simpl; constructor; [apply u8_range | done].
Qed.

Lemma be_combine_be_bytes n x : be_combine (be_bytes n x) = x mod 2 ^ (8 * Z.of_nat n).
Proof.
  induction n as [|n IH].
  - simpl. by rewrite Z.mod_1_r.
  - cbn [be_bytes be_combine]. rewrite IH. unfold len, u8.
    rewrite length_be_bytes, Z.shiftr_div_pow2 by lia.
    replace (8 * Z.of_nat (S n)) with (8 * Z.of_nat n + 8) by lia.
    rewrite Z.pow_add_r by lia.
    assert (0 < 2 ^ (8 * Z.of_nat n)) by (apply Z.pow_pos_nonneg; lia).
    rewrite Z.rem_mul_r by lia. ring.
Qed.

Lemma be_combine_range bs :
  Forall (λ b, 0 ≤ b < 256) bs → 0 ≤ be_combine bs < 2 ^ (8 * len bs).
Proof.
  induction 1 as [|b bs Hb _ IH];
    [change (2 ^ (8 * len [])) with 1; simpl; lia|].
  cbn [be_combine]. rewrite len_cons.
  replace (8 * (1 + len bs)) with (8 + 8 * len bs) by lia.
  pose proof (len_nonneg bs).
  rewrite Z.pow_add_r by lia. change (2 ^ 8) with 256. nia.
Qed.

(** The loop of [ordUvarint64.Decode] reads its bytes as one big-endian
    number. *)
Lemma Decode_loop_spec buf : ∀ suf pre acc,
  buf = pre ++ suf → len buf ≤ 8 →
  Forall (λ b, 0 ≤ b < 256) suf →
  for_each (ordUvarint64.Decode_body buf (len buf)) (seqZ (len pre) (len suf))
    (acc * 2 ^ (8 * len suf))
  = Some (acc * 2 ^ (8 * len suf) + be_combine suf).
Proof.
  induction suf as [|b t IH]; intros pre acc Hbuf Hle Hr.
  - simpl. f_equal. lia.
  - apply Forall_cons in Hr as [Hb Hr].
    pose proof (len_nonneg pre). pose proof (len_nonneg t).
    assert (len buf = len pre + 1 + len t) as Hlen
      by (rewrite Hbuf, len_app, len_cons; lia).
    rewrite seqZ_cons by (rewrite len_cons; lia).
    cbn [for_each]. rewrite Hbuf at 1. rewrite Decode_body_run.
    cbn [mbind option_bind].
    replace (len buf * 8 - len pre * 8 - 8) with (8 * len t) by lia.
    rewrite uint_small by (change (2 ^ 64) with 18446744073709551616; lia).
    assert (0 < 2 ^ (8 * len t)) by (apply Z.pow_pos_nonneg; lia).
    assert (2 ^ (8 * len t + 8) ≤ 2 ^ 64) by (apply Z.pow_le_mono_r; lia).
    assert (2 ^ (8 * len t + 8) = 256 * 2 ^ (8 * len t)) as Hp.
    { rewrite Z.pow_add_r by lia. change (2 ^ 8) with 256. lia. }
    rewrite shl_small by nia.
    rewrite len_cons. replace (8 * (1 + len t)) with (8 * len t + 8) by lia.
    rewrite lor_add by nia.
    pose proof (IH (pre ++ [b]) (acc * 256 + b)) as IH'.
    rewrite len_app in IH'. change (len [b]) with 1 in IH'.
    replace (Z.succ (len pre)) with (len pre + 1) by lia.
    replace (Z.pred (1 + len t)) with (len t) by lia.
    replace (acc * 2 ^ (8 * len t + 8) + b * 2 ^ (8 * len t))
      with ((acc * 256 + b) * 2 ^ (8 * len t)) by nia.
    rewrite IH'; [| by rewrite <- app_assoc | done | done].
    cbn [be_combine]. f_equal. nia.
Qed.

(** ** The two forms of [OrdUvarint64] *)

Ltac cases_1_8 n :=
  let H := fresh in
  assert (n = 1 ∨ n = 2 ∨ n = 3 ∨ n = 4 ∨ n = 5 ∨ n = 6 ∨ n = 7 ∨ n = 8)
    as H by lia;
  destruct H as [->|[->|[->|[->|[->|[->|[->| ->]]]]]]].

Lemma header_value n : 1 ≤ n ≤ 8 → ordUvarint64.header (n - 1) = 256 - 2 ^ (9 - n).
Proof. intros Hn. cases_1_8 n; reflexivity. Qed.

Lemma header_lor n q :
  1 ≤ n ≤ 8 → 0 ≤ q < 2 ^ (8 - n) →
  Z.lor (256 - 2 ^ (9 - n)) q = 256 - 2 ^ (9 - n) + q.
Proof.
  intros Hn Hq.
  replace (256 - 2 ^ (9 - n)) with ((2 ^ (n - 1) - 1) * 2 ^ (9 - n))
    by (cases_1_8 n; reflexivity).
  apply lor_add; [lia|]. split; [lia|].
  apply Z.lt_le_trans with (2 ^ (8 - n)); [lia|].
  apply Z.pow_le_mono_r; lia.
Qed.

Lemma top_bits n x :
  1 ≤ n ≤ 8 → 0 ≤ x < 2 ^ (7 * n) → 0 ≤ x / 2 ^ (8 * (n - 1)) < 2 ^ (8 - n).
Proof.
  intros Hn Hx.
  assert (0 < 2 ^ (8 * (n - 1))) by (apply Z.pow_pos_nonneg; lia).
  split; [apply Z.div_pos; lia|].
  apply Z.div_lt_upper_bound; [lia|].
  rewrite <- Z.pow_add_r by lia.
  replace (8 * (n - 1) + (8 - n)) with (7 * n) by lia. lia.
Qed.

Lemma leading_ones b n :
  1 ≤ n ≤ 8 → 256 - 2 ^ (9 - n) ≤ b < 256 - 2 ^ (8 - n) →
  bits_LeadingZeros8 (not8 b) = n - 1.
Proof.
  intros Hn Hb.
  assert (0 ≤ b < 256) as Hr.
  { assert (0 < 2 ^ (8 - n)) by (apply Z.pow_pos_nonneg; lia).
    cases_1_8 n; simpl in Hb; lia. }
  cases_1_8 n;
    match goal with
    | |- _ = ?k =>
      pose proof (forall_byte
        (λ b, implb ((256 - 2 ^ (9 - (k + 1)) <=? b) && (b <? 256 - 2 ^ (8 - (k + 1))))
                    (bits_LeadingZeros8 (not8 b) =? k)) eq_refl b Hr) as H
    end;
    simpl in Hb; cbn beta in H;
    (destruct (_ <=? b) eqn:E1 in H; [|simpl in E1; lia]);
    (destruct (b <? _) eqn:E2 in H; [|simpl in E2; lia]);
    simpl in H; lia.
Qed.

(** [Encoding] over a single item. *)
Lemma Encoding_Encode_single it σ n w :
  Size it σ = (Some n, σ) → 0 ≤ n →
  Encode it (replicate (Z.to_nat n) 0) σ = (Some w, σ) →
  length w = Z.to_nat n →
  Encoding_Encode (New [it]) σ = (Some w, σ).
Proof.
  intros HS Hn HE Hw.
  assert (total_size [it] 0 σ = (Some n, σ)) as Htot.
  { cbn [total_size]. by rewrite (bind_run _ _ _ _ _ HS). }
  assert (make n = Some (replicate (Z.to_nat n) 0)) as Hmake.
  { unfold make. destruct (Z.ltb_spec n 0); [lia | done]. }
  assert (slice (replicate (Z.to_nat n) 0) 0 (0 + n)
          = Some (replicate (Z.to_nat n) 0)) as Hslice.
  { unfold slice. rewrite length_replicate.
    destruct (Z.leb_spec 0 0), (Z.leb_spec 0 (0 + n)),
      (Z.leb_spec (0 + n) (Z.of_nat (Z.to_nat n))); try lia.
    cbn [andb]. rewrite take_ge; [done|].
    rewrite length_drop, length_replicate. lia. }
  assert (Encode_loop [it] (replicate (Z.to_nat n) 0) 0 σ = (Some w, σ))
    as Hloop.
  { cbn [Encode_loop]. rewrite (bind_run _ _ _ _ _ HS).
    erewrite bind_run; [|by rewrite lift_run, Hslice].
    rewrite (bind_run _ _ _ _ _ HE), ret_run. do 2 f_equal.
    unfold splice. cbn [Z.to_nat take app Nat.add].
    rewrite drop_ge; [by rewrite app_nil_r|].
    rewrite length_replicate. lia. }
  unfold Encoding_Encode, New. cbn [items].
  rewrite (bind_run _ _ _ _ _ Htot).
  erewrite bind_run; [|by rewrite lift_run, Hmake].
  exact Hloop.
Qed.

Lemma Encoding_Decode_single it buf σ σ' n :
  Decode it buf σ = (Some (err_nil, buf), σ') →
  Size it σ' = (Some n, σ') →
  Encoding_Decode (New [it]) buf σ = (Some err_nil, σ').
Proof.
  intros HD HS.
  assert (slice_from buf 0 = Some buf) as Hs.
  { unfold slice_from. destruct (Z.leb_spec 0 0), (Z.leb_spec 0 (Z.of_nat (length buf)));
      try lia. done. }
  assert (Decode_loop [it] buf 0 σ
          = (Some (err_nil, (splice buf 0 buf, 0 + n)), σ')) as Hloop.
  { cbn [Decode_loop].
    erewrite bind_run; [|by rewrite lift_run, Hs].
    rewrite (bind_run _ _ _ _ _ HD). cbn [fst snd].
    by rewrite (bind_run _ _ _ _ _ HS). }
  unfold Encoding_Decode, New. cbn [items].
  by rewrite (bind_run _ _ _ _ _ Hloop).
Qed.

Lemma idiv_nonneg a b : 0 ≤ a → 0 < b → idiv a b = a / b.
Proof. intros. unfold idiv. by apply Z.quot_div_nonneg. Qed.

Lemma ordUvarint64_Size_run x p (σ : gmap loc val) :
  σ !! p = Some (VUint64 x) →
  Size (OrdUvarint64 p) σ
  = (Some (if 56 <? bits_Len64 x then 9 else 1 + idiv (bits_Len64 x - 1) 7), σ).
Proof.
  intros Hp. cbn [Size OrdUvarint64]. unfold ordUvarint64.Size.
  erewrite bind_run; [|by eapply load_run]. cbv zeta.
  by destruct (56 <? bits_Len64 x).
Qed.

(** The size class of a value below [2^56]. *)
Lemma size_class x :
  0 ≤ x < 2 ^ 56 →
  ∃ n, 1 ≤ n ≤ 8 ∧ (n = 1 ∨ 2 ^ (7 * (n - 1)) ≤ x) ∧ x < 2 ^ (7 * n) ∧
       bits_Len64 x ≤ 56 ∧ 1 + idiv (bits_Len64 x - 1) 7 = n ∧
       (x = 0 ∨ idiv (bits_Len64 x + 6) 7 = n).
Proof.
  intros Hx. destruct (Z.eq_dec x 0) as [->|Hne].
  - exists 1. split; [lia|]. split; [by left|]. repeat split; try done; by left.
  - assert (0 < x) as Hpos by lia.
    pose proof (bits_Len_bounds x Hpos) as Hb.
    pose proof (bits_Len_pos x Hpos) as Hl1.
    pose proof (bits_Len_le x 56 ltac:(lia) Hx) as Hl2.
    unfold bits_Len64. set (l := bits_Len x) in *.
    rewrite !idiv_nonneg by lia.
    exists ((l + 6) / 7).
    assert ((l - 1) / 7 = (l + 6) / 7 - 1) as Hq.
    { replace (l + 6) with (l - 1 + 1 * 7) by lia.
      rewrite Z.div_add by lia. lia. }
    pose proof (Z.div_mod (l + 6) 7 ltac:(lia)) as Hdm.
    pose proof (Z.mod_pos_bound (l + 6) 7 ltac:(lia)) as Hm.
    set (n := (l + 6) / 7) in *.
    split; [lia|]. split; [|split; [|split; [done|split; [lia|by right]]]].
    + right. apply Z.le_trans with (2 ^ (l - 1)); [|lia].
      apply Z.pow_le_mono_r; lia.
    + apply Z.lt_le_trans with (2 ^ l); [lia|].
      apply Z.pow_le_mono_r; lia.
Qed.

Lemma len_compact n x : 1 ≤ n → len (compact n x) = n.
Proof.
  intros. unfold compact, len. cbn [length]. rewrite length_be_bytes. lia.
Qed.

Lemma ordUvarint64_Encode_compact x n p (σ : gmap loc val) :
  σ !! p = Some (VUint64 x) →
  1 ≤ n ≤ 8 → 0 ≤ x < 2 ^ (7 * n) → bits_Len64 x ≤ 56 →
  (x = 0 ∧ n = 1) ∨ idiv (bits_Len64 x + 6) 7 = n →
  Encode (OrdUvarint64 p) (replicate (Z.to_nat n) 0) σ
  = (Some (compact n x), σ).
Proof.
  intros Hp Hn Hx Hl Hcase. cbn [Encode OrdUvarint64].
  unfold ordUvarint64.Encode.
  erewrite bind_run; [|by eapply load_run]. cbv zeta.
  destruct (Z.ltb_spec 56 (bits_Len64 x)); [lia|].
  destruct Hcase as [[-> ->]|Hq]; [reflexivity|].
  rewrite Hq, header_value by done.
  set (k := Z.to_nat (n - 1)).
  replace (Z.to_nat n) with (S k) by lia. cbn [replicate].
  set (h := 256 - 2 ^ (9 - n)).
  erewrite bind_run; [|rewrite lift_run; reflexivity].
  rewrite lift_run. f_equal.
  change (<[Z.to_nat 0:=h]> (0 :: replicate k 0)) with (h :: replicate k 0).
  unfold for_range.
  assert (len (h :: replicate k 0) = n) as Hlen.
  { unfold len. cbn [length]. rewrite length_replicate. lia. }
  pose proof (Encode_loop_spec x n (h :: replicate k 0) []) as HL.
  rewrite Hlen in HL. change (len []) with 0 in HL. cbn [app] in HL.
  rewrite HL by lia. cbn [length]. rewrite length_replicate.
  cbn [be_bytes zip_with]. rewrite zip_with_lor_zeros.
  unfold compact. fold k. do 2 f_equal.
  replace (8 * Z.of_nat k) with (8 * (n - 1)) by lia.
  rewrite Z.shiftr_div_pow2 by lia.
  pose proof (top_bits n x Hn Hx) as Hq'.
  assert (2 ^ (8 - n) ≤ 2 ^ 7) by (apply Z.pow_le_mono_r; lia).
  change (2 ^ 7) with 128 in *.
  rewrite u8_small by lia. by apply header_lor.
Qed.

Lemma mask_value n :
  1 ≤ n ≤ 8 → u64 (shl 64 1 (uint (n * 7)) - 1) = Z.ones (7 * n).
Proof. intros Hn. cases_1_8 n; reflexivity. Qed.

Lemma be_combine_compact n x :
  1 ≤ n ≤ 8 → 0 ≤ x < 2 ^ (7 * n) →
  be_combine (compact n x) mod 2 ^ (7 * n) = x.
Proof.
  intros Hn Hx. unfold compact. cbn [be_combine].
  rewrite be_combine_be_bytes. unfold len. rewrite length_be_bytes.
  replace (8 * Z.of_nat (Z.to_nat (n - 1))) with (8 * (n - 1)) by lia.
  set (P := 2 ^ (8 * (n - 1))).
  assert (0 < P) by (apply Z.pow_pos_nonneg; lia).
  pose proof (Z.div_mod x P ltac:(lia)) as Hdm.
  replace ((256 - 2 ^ (9 - n) + x / P) * P + x mod P)
    with (x + (256 - 2 ^ (9 - n)) * P) by lia.
  replace ((256 - 2 ^ (9 - n)) * P) with ((2 ^ n - 2) * 2 ^ (7 * n))
    by (subst P; cases_1_8 n; reflexivity).
  rewrite Z.mod_add by (apply Z.pow_nonzero; lia).
  apply Z.mod_small. lia.
Qed.

Lemma compact_range n x :
  1 ≤ n ≤ 8 → 0 ≤ x < 2 ^ (7 * n) → Forall (λ b, 0 ≤ b < 256) (compact n x).
Proof.
  intros Hn Hx. unfold compact. constructor; [|apply be_bytes_range].
  pose proof (top_bits n x Hn Hx).
  assert (0 < 2 ^ (8 - n)) by (apply Z.pow_pos_nonneg; lia).
  assert (2 ^ (9 - n) = 2 * 2 ^ (8 - n)) as ->.
  { replace (9 - n) with (1 + (8 - n)) by lia. by rewrite Z.pow_add_r by lia. }
  assert (2 ^ (8 - n) ≤ 2 ^ 7) by (apply Z.pow_le_mono_r; lia).
  change (2 ^ 7) with 128 in *. lia.
Qed.

Lemma ordUvarint64_Decode_compact x n p (σ : gmap loc val) :
  1 ≤ n ≤ 8 → 0 ≤ x < 2 ^ (7 * n) → is_Some (σ !! p) →
  Decode (OrdUvarint64 p) (compact n x) σ
  = (Some (err_nil, compact n x), <[p := VUint64 x]> σ).
Proof.
  intros Hn Hx Hp. cbn [Decode OrdUvarint64]. unfold ordUvarint64.Decode.
  pose proof (len_compact n x ltac:(lia)) as Hlen. rewrite Hlen.
  destruct (Z.ltb_spec n 1); [lia|].
  erewrite bind_run; [|rewrite lift_run; reflexivity]. cbv zeta.
  pose proof (top_bits n x Hn Hx) as Hq.
  assert (0 < 2 ^ (8 - n)) by (apply Z.pow_pos_nonneg; lia).
  assert (2 ^ (9 - n) = 2 * 2 ^ (8 - n)) as Hp2.
  { replace (9 - n) with (1 + (8 - n)) by lia. by rewrite Z.pow_add_r by lia. }
  rewrite (leading_ones _ n) by lia.
  replace (n - 1 + 1) with n by lia.
  destruct (Z.eqb_spec (n * 7) 63); [lia|].
  destruct (Z.ltb_spec n n); [lia|].
  assert (idiv (n * 7 + 8) 8 = n) as -> by (cases_1_8 n; reflexivity).
  pose proof (Decode_loop_spec (compact n x) (compact n x) [] 0 eq_refl) as HL.
  rewrite Hlen in HL. change (len []) with 0 in HL.
  rewrite Z.mul_0_l, Z.add_0_l in HL.
  unfold for_range.
  erewrite bind_run;
    [|rewrite lift_run, HL by (by (lia || apply compact_range)); reflexivity].
  erewrite bind_run; [|by apply assign_run].
  rewrite ret_run, mask_value, Z.land_ones by lia.
  by rewrite be_combine_compact.
Qed.

Lemma len_escape x : len (escape x) = 9.
Proof. reflexivity. Qed.

Lemma PutUint64_zeros x : PutUint64 (replicate 8 0) x = Some (be_bytes 8 x).
Proof. reflexivity. Qed.

Lemma lor_shl_byte lo b s :
  0 ≤ s ≤ 56 → 0 ≤ lo < 2 ^ s → 0 ≤ b < 256 →
  Z.lor lo (shl 64 b s) = b * 2 ^ s + lo.
Proof.
  intros Hs Hlo Hb.
  assert (0 < 2 ^ s) by (apply Z.pow_pos_nonneg; lia).
  assert (2 ^ (s + 8) ≤ 2 ^ 64) by (apply Z.pow_le_mono_r; lia).
  rewrite Z.pow_add_r in * by lia. change (2 ^ 8) with 256 in *.
  rewrite shl_small by nia.
  by rewrite Z.lor_comm, lor_add by lia.
Qed.

Lemma Uint64_spec bs :
  length bs = 8%nat → Forall (λ b, 0 ≤ b < 256) bs →
  Uint64 bs = Some (be_combine bs).
Proof.
  intros Hl Hr.
  destruct bs as [|b0 [|b1 [|b2 [|b3 [|b4 [|b5 [|b6 [|b7 [|? ?]]]]]]]]];
    try discriminate.
  repeat match goal with
  | H : Forall _ (_ :: _) |- _ => apply Forall_cons in H as [? H]
  end.
  assert (Uint64 [b0; b1; b2; b3; b4; b5; b6; b7]
    = Some (Z.lor (Z.lor (Z.lor (Z.lor (Z.lor (Z.lor (Z.lor
        b7 (shl 64 b6 8)) (shl 64 b5 16)) (shl 64 b4 24)) (shl 64 b3 32))
        (shl 64 b2 40)) (shl 64 b1 48)) (shl 64 b0 56))) as -> by reflexivity.
  f_equal. cbn [be_combine]. unfold len. cbn [length].
  change (8 * Z.of_nat 7) with 56. change (8 * Z.of_nat 6) with 48.
  change (8 * Z.of_nat 5) with 40. change (8 * Z.of_nat 4) with 32.
  change (8 * Z.of_nat 3) with 24. change (8 * Z.of_nat 2) with 16.
  change (8 * Z.of_nat 1) with 8. change (8 * Z.of_nat 0) with 0.
  change (2 ^ 0) with 1.
  rewrite (lor_shl_byte _ _ 8) by (change (2 ^ 8) with 256; lia).
  rewrite (lor_shl_byte _ _ 16)
    by (change (2 ^ 8) with 256; change (2 ^ 16) with 65536; lia).
  rewrite (lor_shl_byte _ _ 24)
    by (change (2 ^ 8) with 256; change (2 ^ 16) with 65536;
        change (2 ^ 24) with 16777216; lia).
  rewrite (lor_shl_byte _ _ 32)
    by (change (2 ^ 8) with 256; change (2 ^ 16) with 65536;
        change (2 ^ 24) with 16777216; change (2 ^ 32) with 4294967296; lia).
  rewrite (lor_shl_byte _ _ 40)
    by (change (2 ^ 8) with 256; change (2 ^ 16) with 65536;
        change (2 ^ 24) with 16777216; change (2 ^ 32) with 4294967296;
        change (2 ^ 40) with 1099511627776; lia).
  rewrite (lor_shl_byte _ _ 48)
    by (change (2 ^ 8) with 256; change (2 ^ 16) with 65536;
        change (2 ^ 24) with 16777216; change (2 ^ 32) with 4294967296;
        change (2 ^ 40) with 1099511627776;
        change (2 ^ 48) with 281474976710656; lia).
  rewrite (lor_shl_byte _ _ 56)
    by (change (2 ^ 8) with 256; change (2 ^ 16) with 65536;
        change (2 ^ 24) with 16777216; change (2 ^ 32) with 4294967296;
        change (2 ^ 40) with 1099511627776;
        change (2 ^ 48) with 281474976710656;
        change (2 ^ 56) with 72057594037927936; lia).
  lia.
Qed.

Lemma ordUvarint64_Encode_escape x p (σ : gmap loc val) :
  σ !! p = Some (VUint64 x) → 2 ^ 56 ≤ x →
  Encode (OrdUvarint64 p) (replicate 9 0) σ = (Some (escape x), σ).
Proof.
  intros Hp Hx. cbn [Encode OrdUvarint64]. unfold ordUvarint64.Encode.
  erewrite bind_run; [|by eapply load_run]. cbv zeta.
  pose proof (bits_Len_gt x 56 ltac:(lia) Hx).
  destruct (Z.ltb_spec 56 (bits_Len64 x)); [|unfold bits_Len64 in *; lia].
  reflexivity.
Qed.

Lemma ordUvarint64_Decode_escape x p (σ : gmap loc val) :
  0 ≤ x < 2 ^ 64 → is_Some (σ !! p) →
  Decode (OrdUvarint64 p) (escape x) σ
  = (Some (err_nil, escape x), <[p := VUint64 x]> σ).
Proof.
  intros Hx Hp. cbn [Decode OrdUvarint64]. unfold ordUvarint64.Decode.
  change (len (escape x) <? 1) with false. cbv iota.
  erewrite bind_run; [|rewrite lift_run; reflexivity]. cbv zeta.
  change (bits_LeadingZeros8 (not8 255)) with 8.
  change ((8 + 1) * 7 =? 63) with true. cbv iota.
  change (len (escape x) <? 9) with false. cbv iota.
  erewrite bind_run; [|rewrite lift_run; reflexivity].
  erewrite bind_run;
    [|rewrite lift_run, Uint64_spec;
      [reflexivity | apply length_be_bytes | apply be_bytes_range]].
  erewrite bind_run; [|by apply assign_run].
  rewrite ret_run.
  change (drop (Z.to_nat 1) (escape x)) with (be_bytes 8 x).
  rewrite be_combine_be_bytes.
  change (2 ^ (8 * Z.of_nat 8)) with (2 ^ 64). by rewrite Z.mod_small.
Qed.

(** Evaluate the closed powers of two in the goal and the hypotheses. *)
Ltac eval_pow2 :=
  repeat match goal with
  | |- context [2 ^ ?e] =>
      let v := eval vm_compute in (2 ^ e) in
      match v with Zpos _ => change (2 ^ e) with v end
  | H : context [2 ^ ?e] |- _ =>
      let v := eval vm_compute in (2 ^ e) in
      match v with Zpos _ => change (2 ^ e) with v in H end
  end.

Lemma ordUvarint64_Encoding_Encode x p (σ : gmap loc val) :
  0 ≤ x < 2 ^ 64 → σ !! p = Some (VUint64 x) →
  (2 ^ 56 ≤ x ∧ Size (OrdUvarint64 p) σ = (Some 9, σ) ∧
   Encoding_Encode (New [OrdUvarint64 p]) σ = (Some (escape x), σ)) ∨
  (∃ n, 1 ≤ n ≤ 8 ∧ (n = 1 ∨ 2 ^ (7 * (n - 1)) ≤ x) ∧ x < 2 ^ (7 * n) ∧
        Size (OrdUvarint64 p) σ = (Some n, σ) ∧
        Encoding_Encode (New [OrdUvarint64 p]) σ = (Some (compact n x), σ)).
Proof.
  intros Hx Hp. pose proof (ordUvarint64_Size_run x p σ Hp) as HS.
  destruct (Z.le_gt_cases (2 ^ 56) x) as [Hbig|Hsmall].
  - left. pose proof (bits_Len_gt x 56 ltac:(lia) Hbig) as Hl.
    destruct (Z.ltb_spec 56 (bits_Len64 x)); [|unfold bits_Len64 in *; lia].
    split; [done|]. split; [done|].
    apply (Encoding_Encode_single _ _ 9); [done | lia | | done].
    by apply ordUvarint64_Encode_escape.
  - right. destruct (size_class x ltac:(lia)) as (n & Hn & Hlo & Hhi & Hl & HSz & Hq).
    exists n. destruct (Z.ltb_spec 56 (bits_Len64 x)); [lia|].
    rewrite HSz in HS. repeat (split; [done|]).
    apply (Encoding_Encode_single _ _ n); [done | lia | |].
    + apply ordUvarint64_Encode_compact; [done | done | lia | done |].
      destruct Hq as [->|Hq]; [|by right]. left. split; [done|].
      revert HSz. vm_compute. lia.
    + pose proof (len_compact n x ltac:(lia)). unfold len in *. lia.
Qed.

Lemma bytes_Compare_cons_lt x y a b : x < y → bytes_Compare (x :: a) (y :: b) = Lt.
Proof. intros H. cbn [bytes_Compare]. by rewrite (proj2 (Z.compare_lt_iff x y) H). Qed.

Lemma bytes_Compare_cons_eq x a b :
  bytes_Compare (x :: a) (x :: b) = bytes_Compare a b.
Proof. cbn [bytes_Compare]. by rewrite Z.compare_refl. Qed.

(** Big-endian byte strings of one length compare as the numbers they
    hold. *)
Lemma be_bytes_lt k : ∀ a b,
  0 ≤ a < b → a / 2 ^ (8 * Z.of_nat k) = b / 2 ^ (8 * Z.of_nat k) →
  bytes_Compare (be_bytes k a) (be_bytes k b) = Lt.
Proof.
  induction k as [|k IH]; intros a b Hab Hq.
  - change (2 ^ (8 * Z.of_nat 0)) with 1 in Hq. rewrite !Z.div_1_r in Hq. lia.
  - cbn [be_bytes]. rewrite !Z.shiftr_div_pow2 by lia.
    set (P := 2 ^ (8 * Z.of_nat k)) in *.
    assert (0 < P) by (apply Z.pow_pos_nonneg; lia).
    replace (8 * Z.of_nat (S k)) with (8 * Z.of_nat k + 8) in Hq by lia.
    rewrite Z.pow_add_r in Hq by lia. fold P in Hq. change (2 ^ 8) with 256 in Hq.
    rewrite <- !Z.div_div in Hq by lia.
    assert (a / P ≤ b / P) by (apply Z.div_le_mono; lia).
    unfold u8. change (2 ^ 8) with 256.
    pose proof (Z.div_mod (a / P) 256 ltac:(lia)).
    pose proof (Z.div_mod (b / P) 256 ltac:(lia)).
    destruct (Z.eq_dec (a / P) (b / P)) as [Heq|Hne].
    + rewrite Heq, bytes_Compare_cons_eq. by apply IH.
    + apply bytes_Compare_cons_lt. lia.
Qed.

Lemma compact_first_byte n x :
  1 ≤ n ≤ 8 → 0 ≤ x < 2 ^ (7 * n) →
  ∃ f t, compact n x = f :: t ∧
         256 - 2 ^ (9 - n) ≤ f < 256 - 2 ^ (8 - n).
Proof.
  intros Hn Hx. unfold compact. eexists _, _. split; [done|].
  pose proof (top_bits n x Hn Hx).
  assert (2 ^ (9 - n) = 2 * 2 ^ (8 - n)) as ->.
  { replace (9 - n) with (1 + (8 - n)) by lia. by rewrite Z.pow_add_r by lia. }
  lia.
Qed.

Lemma compact_lt_compact na nb a b :
  1 ≤ na ≤ 8 → 1 ≤ nb ≤ 8 → 0 ≤ a < b →
  (na = 1 ∨ 2 ^ (7 * (na - 1)) ≤ a) → a < 2 ^ (7 * na) → b < 2 ^ (7 * nb) →
  bytes_Compare (compact na a) (compact nb b) = Lt.
Proof.
  intros Hna Hnb Hab Hlo Ha Hb.
  assert (na ≤ nb) as Hle.
  { destruct (Z.le_gt_cases na nb) as [|Hgt]; [done|].
    destruct Hlo as [->|Hlo]; [lia|].
    assert (2 ^ (7 * nb) ≤ 2 ^ (7 * (na - 1))) by (apply Z.pow_le_mono_r; lia).
    lia. }
  destruct (Z.eq_dec na nb) as [->|Hne].
  - unfold compact.
    set (P := 2 ^ (8 * (nb - 1))).
    assert (0 < P) by (apply Z.pow_pos_nonneg; lia).
    assert (a / P ≤ b / P) by (apply Z.div_le_mono; lia).
    destruct (Z.eq_dec (a / P) (b / P)) as [Heq|Hq].
    + rewrite Heq, bytes_Compare_cons_eq. apply be_bytes_lt; [done|].
      replace (8 * Z.of_nat (Z.to_nat (nb - 1))) with (8 * (nb - 1)) by lia.
      done.
    + apply bytes_Compare_cons_lt. lia.
  - destruct (compact_first_byte na a) as (fa & ta & -> & Hfa); [lia..|].
    destruct (compact_first_byte nb b) as (fb & tb & -> & Hfb); [lia..|].
    apply bytes_Compare_cons_lt.
    assert (2 ^ (9 - nb) ≤ 2 ^ (8 - na)) by (apply Z.pow_le_mono_r; lia).
    lia.
Qed.

Lemma compact_lt_escape n a b :
  1 ≤ n ≤ 8 → 0 ≤ a < 2 ^ (7 * n) →
  bytes_Compare (compact n a) (escape b) = Lt.
Proof.
  intros Hn Ha.
  destruct (compact_first_byte n a) as (fa & ta & -> & Hfa); [lia..|].
  apply bytes_Compare_cons_lt.
  assert (0 < 2 ^ (8 - n)) by (apply Z.pow_pos_nonneg; lia). lia.
Qed.

Lemma escape_lt_escape a b :
  0 ≤ a < b → b < 2 ^ 64 → bytes_Compare (escape a) (escape b) = Lt.
Proof.
  intros Hab Hb. unfold escape. rewrite bytes_Compare_cons_eq.
  apply be_bytes_lt; [done|]. change (2 ^ (8 * Z.of_nat 8)) with (2 ^ 64).
  rewrite !Z.div_small by lia. done.
Qed.

(** C1. For every [uint64] value [x], encoding the variable that holds [x]
    with [OrdUvarint64] returns a buffer, and decoding that buffer into a
    variable of any content returns no error and leaves exactly [x] in the
    variable. *)
Theorem OrdUvarint64_roundtrip (x : Z) (p : loc) (σ σ' : gmap loc val) :
  0 ≤ x < 2 ^ 64 →
  σ !! p = Some (VUint64 x) →
  is_Some (σ' !! p) →
  ∃ b,
    Encoding_Encode (New [OrdUvarint64 p]) σ = (Some b, σ) ∧
    Encoding_Decode (New [OrdUvarint64 p]) b σ'
    = (Some err_nil, <[p := VUint64 x]> σ').
Proof.
  intros Hx Hp Hp'.
  assert (∃ n, Size (OrdUvarint64 p) (<[p := VUint64 x]> σ')
               = (Some n, <[p := VUint64 x]> σ')) as [m HS'].
  { eexists. apply ordUvarint64_Size_run. apply lookup_insert_eq. }
  destruct (ordUvarint64_Encoding_Encode x p σ Hx Hp)
    as [(Hbig & _ & HE)|(n & Hn & _ & Hhi & _ & HE)].
  - exists (escape x). split; [done|].
    apply (Encoding_Decode_single _ _ _ _ m); [|done].
    by apply ordUvarint64_Decode_escape.
  - exists (compact n x). split; [done|].
    apply (Encoding_Decode_single _ _ _ _ m); [|done].
    apply ordUvarint64_Decode_compact; [done | lia | done].
Qed.

Lemma OrdUvarint64_roundtrip_witness :
  ∃ b,
    Encoding_Encode (New [OrdUvarint64 1%positive])
      {[ 1%positive := VUint64 300 ]}
    = (Some b, {[ 1%positive := VUint64 300 ]}) ∧
    Encoding_Decode (New [OrdUvarint64 1%positive]) b
      {[ 1%positive := VUint64 (2 ^ 64 - 301) ]}
    = (Some err_nil,
       <[ 1%positive := VUint64 300 ]>
         {[ 1%positive := VUint64 (2 ^ 64 - 301) ]}).
Proof.
  apply (OrdUvarint64_roundtrip 300 1%positive).
  - lia.
  - reflexivity.
  - eexists. reflexivity.
Defined.

(** C2. For all [uint64] values [a < b], both encode with [OrdUvarint64],
    and [bytes.Compare] puts the encoding of [a] strictly before the
    encoding of [b]. *)
Theorem OrdUvarint64_order (a b : Z) (p q : loc) (σa σb : gmap loc val) :
  0 ≤ a → a < b → b < 2 ^ 64 →
  σa !! p = Some (VUint64 a) →
  σb !! q = Some (VUint64 b) →
  ∃ ea eb,
    Encoding_Encode (New [OrdUvarint64 p]) σa = (Some ea, σa) ∧
    Encoding_Encode (New [OrdUvarint64 q]) σb = (Some eb, σb) ∧
    bytes_Compare ea eb = Lt.
Proof.
  intros Ha Hab Hb Hp Hq.
  destruct (ordUvarint64_Encoding_Encode a p σa ltac:(lia) Hp)
    as [(Hbiga & _ & HEa)|(na & Hna & Hloa & Hhia & _ & HEa)];
  destruct (ordUvarint64_Encoding_Encode b q σb ltac:(lia) Hq)
    as [(Hbigb & _ & HEb)|(nb & Hnb & Hlob & Hhib & _ & HEb)];
  eexists _, _; (split; [exact HEa|]); (split; [exact HEb|]).
  - apply escape_lt_escape; lia.
  - assert (2 ^ (7 * nb) ≤ 2 ^ 56) by (apply Z.pow_le_mono_r; lia). lia.
  - apply compact_lt_escape; [done | lia].
  - apply compact_lt_compact; (done || lia).
Qed.

Lemma OrdUvarint64_order_witness :
  ∃ ea eb,
    Encoding_Encode (New [OrdUvarint64 1%positive])
      {[ 1%positive := VUint64 127 ]}
    = (Some ea, {[ 1%positive := VUint64 127 ]}) ∧
    Encoding_Encode (New [OrdUvarint64 2%positive])
      {[ 2%positive := VUint64 128 ]}
    = (Some eb, {[ 2%positive := VUint64 128 ]}) ∧
    bytes_Compare ea eb = Lt.
Proof.
  apply (OrdUvarint64_order 127 128 1%positive 2%positive).
  - lia.
  - lia.
  - lia.
  - reflexivity.
  - reflexivity.
Defined.

(** C3. For every [uint64] value [x], [Size] returns the length [n] of the
    buffer that [Encode] fills; [n] is 1 at 127, 2 at 128, 8 at [2^56 - 1]
    and 9 at [2^56]; the 9-byte form, and with it the first byte [0xFF],
    is produced exactly when [2^56 <= x]. *)
Theorem OrdUvarint64_size_boundaries (x : Z) (p : loc) (σ : gmap loc val) :
  0 ≤ x < 2 ^ 64 →
  σ !! p = Some (VUint64 x) →
  ∃ n b,
    Size (OrdUvarint64 p) σ = (Some n, σ) ∧
    Encoding_Encode (New [OrdUvarint64 p]) σ = (Some b, σ) ∧
    len b = n ∧
    (x = 127 → n = 1) ∧ (x = 128 → n = 2) ∧
    (x = 2 ^ 56 - 1 → n = 8) ∧ (x = 2 ^ 56 → n = 9) ∧
    (n = 9 ↔ 2 ^ 56 ≤ x) ∧
    (b !! 0%nat = Some 0xFF ↔ 2 ^ 56 ≤ x).
Proof.
  intros Hx Hp.
  destruct (ordUvarint64_Encoding_Encode x p σ Hx Hp)
    as [(Hbig & HS & HE)|(n & Hn & Hlo & Hhi & HS & HE)].
  - exists 9, (escape x). repeat (split; [done|]).
    eval_pow2. repeat split; try done; lia.
  - exists n, (compact n x). split; [done|]. split; [done|].
    split; [apply len_compact; lia|].
    assert (2 ^ (7 * n) ≤ 2 ^ 56) by (apply Z.pow_le_mono_r; lia).
    destruct (compact_first_byte n x) as (f & t & Hc & Hf); [lia..|].
    assert (0 < 2 ^ (8 - n)) by (apply Z.pow_pos_nonneg; lia).
    rewrite Hc. cbn [lookup list_lookup].
    repeat split; try (intros; lia); try (intros [= ?]; lia).
    + intros ->. cases_1_8 n; eval_pow2; lia.
    + intros ->. cases_1_8 n; eval_pow2; lia.
    + intros ->. cases_1_8 n; eval_pow2; lia.
Qed.

Lemma OrdUvarint64_size_boundaries_witness :
  ∃ n b,
    Size (OrdUvarint64 1%positive) {[ 1%positive := VUint64 (2 ^ 56) ]}
    = (Some n, {[ 1%positive := VUint64 (2 ^ 56) ]}) ∧
    Encoding_Encode (New [OrdUvarint64 1%positive])
      {[ 1%positive := VUint64 (2 ^ 56) ]}
    = (Some b, {[ 1%positive := VUint64 (2 ^ 56) ]}) ∧
    len b = n ∧
    (2 ^ 56 = 127 → n = 1) ∧ (2 ^ 56 = 128 → n = 2) ∧
    (2 ^ 56 = 2 ^ 56 - 1 → n = 8) ∧ (2 ^ 56 = 2 ^ 56 → n = 9) ∧
    (n = 9 ↔ 2 ^ 56 ≤ 2 ^ 56) ∧
    (b !! 0%nat = Some 0xFF ↔ 2 ^ 56 ≤ 2 ^ 56).
Proof.
  apply (OrdUvarint64_size_boundaries (2 ^ 56) 1%positive).
  - lia.
  - reflexivity.
Defined.

Example OrdUvarint64_127 :
  Encoding_Encode (New [OrdUvarint64 1%positive])
    ({[ 1%positive := VUint64 127 ]} : gmap loc val)
  = (Some [0x7F], {[ 1%positive := VUint64 127 ]}).
Proof. reflexivity. Qed.

Example OrdUvarint64_128 :
  Encoding_Encode (New [OrdUvarint64 1%positive])
    ({[ 1%positive := VUint64 128 ]} : gmap loc val)
  = (Some [0x80; 0x80], {[ 1%positive := VUint64 128 ]}).
Proof. reflexivity. Qed.

Example OrdUvarint64_below_escape :
  Encoding_Encode (New [OrdUvarint64 1%positive])
    ({[ 1%positive := VUint64 (2 ^ 56 - 1) ]} : gmap loc val)
  = (Some [0xFE; 0xFF; 0xFF; 0xFF; 0xFF; 0xFF; 0xFF; 0xFF],
     {[ 1%positive := VUint64 (2 ^ 56 - 1) ]}).
Proof. reflexivity. Qed.

Example OrdUvarint64_first_escape :
  Encoding_Encode (New [OrdUvarint64 1%positive])
    ({[ 1%positive := VUint64 (2 ^ 56) ]} : gmap loc val)
  = (Some [0xFF; 0x01; 0; 0; 0; 0; 0; 0; 0],
     {[ 1%positive := VUint64 (2 ^ 56) ]}).
Proof. reflexivity. Qed.

(** ** [Uvarint32] *)

(** C10. When the buffer starts with the varint that [binary.PutUvarint]
    writes for a value [v] with [2^32 <= v < 2^64], [Decode] of
    [Uvarint32] returns no error and stores [v mod 2^32]: the guard
    [n > math.MaxUint32] looks at the number of bytes read, which is at
    most 10. *)
Theorem Uvarint32_Decode_wraps
    (v : Z) (p : loc) (σ : gmap loc val) (b0 b : list Z) (n : Z) :
  2 ^ 32 ≤ v < 2 ^ 64 →
  is_Some (σ !! p) →
  PutUvarint b0 v = Some (b, n) →
  Decode (Uvarint32 p) b σ
  = (Some (err_nil, b), <[p := VUint32 (v mod 2 ^ 32)]> σ).
Proof.
  intros Hv Hp HP.
  destruct (PutUvarint_Uvarint _ _ _ _ HP ltac:(lia)) as (HU & Hn & _).
  cbn [Decode Uvarint32]. unfold uvarint32.Decode. rewrite HU.
  destruct (Z.eqb_spec n 0); [lia|].
  destruct (Z.ltb_spec n 0); [lia|].
  destruct (Z.ltb_spec math_MaxUint32 n); [unfold math_MaxUint32 in *; lia|].
  erewrite bind_run; [|by apply assign_run]. done.
Qed.

Lemma Uvarint32_Decode_wraps_witness :
  Decode (Uvarint32 1%positive) [0x80; 0x80; 0x80; 0x80; 0x10; 0; 0; 0; 0; 0]
    {[ 1%positive := VUint32 7 ]}
  = (Some (err_nil, [0x80; 0x80; 0x80; 0x80; 0x10; 0; 0; 0; 0; 0]),
     <[ 1%positive := VUint32 (2 ^ 32 mod 2 ^ 32) ]>
       {[ 1%positive := VUint32 7 ]}).
Proof.
  apply (Uvarint32_Decode_wraps (2 ^ 32) 1%positive
           {[ 1%positive := VUint32 7 ]} (replicate 10 0) _ 5).
  - lia.
  - eexists. reflexivity.
  - reflexivity.
Defined.

(** ** The length of the buffer *)

Lemma length_copy dst src : length (copy dst src) = length dst.
Proof. unfold copy. rewrite length_app, length_take, length_drop. lia. Qed.

Lemma upd_length buf i x buf' : upd buf i x = Some buf' → length buf' = length buf.
Proof. intros H. apply upd_Some in H as [_ ->]. apply length_insert. Qed.

Lemma for_each_length {S} (body : Z → S → option S) (size : S → nat) :
  (∀ i s s', body i s = Some s' → size s' = size s) →
  ∀ ixs s s', for_each body ixs s = Some s' → size s' = size s.
Proof.
  intros Hbody. induction ixs as [|i ixs IH]; intros s s' H; cbn [for_each] in H.
  - by injection H as <-.
  - destruct (body i s) as [s1|] eqn:E; [|discriminate].
    cbn [mbind option_bind] in H. rewrite (IH _ _ H). by eapply Hbody.
Qed.

Lemma option_bind_inv {A B} (o : option A) (f : A → option B) b :
  o ≫= f = Some b → ∃ a, o = Some a ∧ f a = Some b.
Proof. destruct o; [eauto | discriminate]. Qed.

Ltac invert_option H :=
  repeat match type of H with
  | _ ≫= _ = Some _ =>
      let a := fresh "a" in let E := fresh "E" in
      apply option_bind_inv in H as (a & E & H)
  end.

Lemma PutUint16_length b v b' : PutUint16 b v = Some b' → length b' = length b.
Proof.
  unfold PutUint16. intros H. invert_option H.
  repeat match goal with
  | E : upd _ _ _ = Some _ |- _ => apply upd_length in E
  end. congruence.
Qed.

Lemma PutUint32_length b v b' : PutUint32 b v = Some b' → length b' = length b.
Proof.
  unfold PutUint32. intros H. invert_option H.
  repeat match goal with
  | E : upd _ _ _ = Some _ |- _ => apply upd_length in E
  end. congruence.
Qed.

Lemma PutUint64_length b v b' : PutUint64 b v = Some b' → length b' = length b.
Proof.
  unfold PutUint64. intros H. invert_option H.
  repeat match goal with
  | E : upd _ _ _ = Some _ |- _ => apply upd_length in E
  end. congruence.
Qed.

Lemma PutUvarint_length b x r : PutUvarint b x = Some r → length r.1 = length b.
Proof.
  destruct r as [b' n]. intros H. unfold PutUvarint in H.
  by destruct (PutUvarint_loop_prefix _ _ _ _ _ _ H ltac:(lia)) as [? _].
Qed.

Lemma lift_inv {A} (o : option A) (σ σ' : gmap loc val) a :
  lift o σ = (Some a, σ') → o = Some a ∧ σ' = σ.
Proof. unfold lift. by intros [= -> ->]. Qed.

(** The [Encode] of every item kind returns a slice of the length it
    received. *)
Lemma package_Encode_length it buf σ w σ' :
  package_item it → Encode it buf σ = (Some w, σ') → length w = length buf.
Proof.
  intros Hit H. destruct Hit; cbn [Encode Padding Byte Bool BigEndianUint16
      BigEndianUint32 BigEndianUint64 Uvarint32 Uvarint64 OrdUvarint64
      LengthDelimBytes LengthDelimString Bytes16 Bytes32] in H;
    unfold padding.Encode, encByte.Encode, encBool.Encode,
      bigEndianUint16.Encode, bigEndianUint32.Encode, bigEndianUint64.Encode,
      uvarint32.Encode, uvarint64.Encode, ordUvarint64.Encode,
      lengthDelimBytes.Encode, lengthDelimString.Encode, bytes16.Encode,
      bytes32.Encode in H;
    invert_run H;
    repeat match goal with
    | E : lift _ _ = (Some _, _) |- _ => apply lift_inv in E as [E ->]
    | E : mret _ _ = (Some _, _) |- _ => apply ret_inv in E as [<- <-]
    end;
    try (apply lift_inv in H as [H _]);
    try (apply ret_inv in H as [<- _]);
    rewrite ?length_copy;
    eauto using upd_length, PutUint16_length, PutUint32_length,
      PutUint64_length, PutUvarint_length.
  - (* the escape form of OrdUvarint64 *)
    apply upd_length in E0. apply PutUint64_length in E2.
    unfold slice_from in E1.
    destruct ((0 <=? 1) && (1 <=? Z.of_nat (length a0))) eqn:Hc; [|discriminate].
    injection E1 as <-. rewrite length_drop in E2.
    apply andb_prop in Hc as [_ Hc%Z.leb_le].
    unfold splice. rewrite !length_app, length_take, length_drop. lia.
  - (* the compact form of OrdUvarint64 *)
    apply upd_length in E0. rewrite <- E0. unfold for_range in H.
    eapply (for_each_length _ length); [|exact H].
    intros i s s' Hb. unfold ordUvarint64.Encode_body in Hb.
    invert_option Hb. by apply upd_length in Hb.
Qed.

Lemma frame_Encode_loop its : ∀ buf i,
  (∀ it, it ∈ its → package_item it) → frame (Encode_loop its buf i).
Proof.
  induction its as [|it its IH]; intros buf i H; cbn [Encode_loop].
  - apply frame_ret.
  - assert (package_item it) by (apply H; constructor).
    apply frame_bind; [by apply package_Size_frame|]. intros size.
    apply frame_bind; [apply frame_lift|]. intros w.
    apply frame_bind; [by apply package_Encode_frame|]. intros w'.
    apply IH. intros it' Hin. apply H. by constructor.
Qed.

(** [Encoding.Encode] over items of the package leaves the store alone. *)
Lemma frame_Encoding_Encode its :
  (∀ it, it ∈ its → package_item it) → frame (Encoding_Encode (New its)).
Proof.
  intros H. unfold Encoding_Encode, New. cbn [items].
  apply frame_bind.
  { apply frame_total_size. intros it Hin. by apply package_Size_frame, H. }
  intros n. apply frame_bind; [apply frame_lift|]. intros buf.
  by apply frame_Encode_loop.
Qed.

Lemma length_splice buf i w :
  0 ≤ i → (Z.to_nat i + length w ≤ length buf)%nat →
  length (splice buf i w) = length buf.
Proof.
  intros Hi Hle. unfold splice.
  rewrite !length_app, length_take, length_drop. lia.
Qed.

Lemma Encode_loop_length its : ∀ buf i σ b σ',
  (∀ it, it ∈ its → package_item it) →
  Encode_loop its buf i σ = (Some b, σ') → length b = length buf.
Proof.
  induction its as [|it its IH]; intros buf i σ b σ' Hpkg H;
    cbn [Encode_loop] in H.
  - by apply ret_inv in H as [<- _].
  - assert (package_item it) as Hit by (apply Hpkg; constructor).
    apply bind_inv in H as (size & σ1 & E1 & H).
    apply bind_inv in H as (w & σ2 & E2 & H).
    apply bind_inv in H as (w' & σ3 & E3 & H).
    apply lift_inv in E2 as [E2 ->].
    apply package_Encode_length in E3; [|done].
    apply IH in H; [|intros it' Hin; apply Hpkg; by constructor].
    rewrite H. unfold slice in E2.
    destruct ((0 <=? i) && (i <=? i + size)
              && (i + size <=? Z.of_nat (length buf))) eqn:Hc; [|discriminate].
    injection E2 as <-.
    apply andb_prop in Hc as [Hc Hc3%Z.leb_le].
    apply andb_prop in Hc as [Hc1%Z.leb_le Hc2%Z.leb_le].
    rewrite length_take, length_drop in E3.
    apply length_splice; lia.
Qed.

(** When [Encoding.Encode] over items of the package returns, the buffer
    is as long as the sum of the sizes of the items. *)
Lemma Encoding_Encode_length its σ b σ' :
  (∀ it, it ∈ its → package_item it) →
  Encoding_Encode (New its) σ = (Some b, σ') →
  σ' = σ ∧ total_size its 0 σ = (Some (len b), σ).
Proof.
  intros Hpkg H.
  pose proof (frame_Encoding_Encode its Hpkg σ) as Hf.
  rewrite H in Hf. cbn [snd] in Hf. subst σ'. split; [done|].
  unfold Encoding_Encode, New in H. cbn [items] in H.
  apply bind_inv in H as (n & σ1 & E1 & H).
  apply bind_inv in H as (buf & σ2 & E2 & H).
  apply lift_inv in E2 as [E2 ->].
  apply Encode_loop_length in H; [|done].
  assert (σ1 = σ) as ->.
  { pose proof (frame_total_size its 0
      (λ it Hin, package_Size_frame it (Hpkg it Hin)) σ) as Hf.
    by rewrite E1 in Hf. }
  rewrite E1. do 2 f_equal. unfold make in E2.
  destruct (Z.ltb_spec n 0); [discriminate|]. injection E2 as <-.
  unfold len. rewrite H, length_replicate. lia.
Qed.

(** ** Truncated input *)

(** [binary.Uvarint] reads the bytes up to the first one below [0x80]:
    what follows them does not matter, and on fewer bytes it returns
    [(0, 0)]. *)
Lemma Uvarint_loop_take bs : ∀ i x s r m,
  Uvarint_loop bs i x s = (r, m) → 0 < m → 0 ≤ i →
  i < m ∧
  (∀ j : nat, Z.of_nat j < m - i → Uvarint_loop (take j bs) i x s = (0, 0)) ∧
  (∀ rest, Uvarint_loop (take (Z.to_nat (m - i)) bs ++ rest) i x s = (r, m)).
Proof.
  induction bs as [|b bs IH]; intros i x s r m H Hm Hi; cbn [Uvarint_loop] in H.
  - injection H as <- <-. lia.
  - destruct (Z.eqb_spec i MaxVarintLen64) as [Hi10|Hi10];
      [injection H as <- <-; lia|].
    destruct (Z.ltb_spec b 0x80) as [Hb|Hb].
    + destruct ((i =? MaxVarintLen64 - 1) && (1 <? b)) eqn:Hov;
        [injection H as <- <-; lia|].
      injection H as <- <-. split; [lia|]. split.
      * intros j Hj. by replace j with 0%nat by lia.
      * intros rest. replace (Z.to_nat (i + 1 - i)) with 1%nat by lia.
        cbn [take app Uvarint_loop].
        destruct (Z.eqb_spec i MaxVarintLen64); [lia|].
        destruct (Z.ltb_spec b 0x80); [|lia]. by rewrite Hov.
    + destruct (IH _ _ _ _ _ H Hm ltac:(lia)) as (Hlt & Hshort & Hfull).
      split; [lia|]. split.
      * intros [|j] Hj; [done|]. cbn [take Uvarint_loop].
        destruct (Z.eqb_spec i MaxVarintLen64); [lia|].
        destruct (Z.ltb_spec b 0x80); [lia|]. apply Hshort. lia.
      * intros rest.
        replace (Z.to_nat (m - i)) with (S (Z.to_nat (m - (i + 1)))) by lia.
        cbn [take app Uvarint_loop].
        destruct (Z.eqb_spec i MaxVarintLen64); [lia|].
        destruct (Z.ltb_spec b 0x80); [lia|]. apply Hfull.
Qed.

Lemma Uvarint_take b x n :
  Uvarint b = (x, n) → 0 < n →
  (∀ j : nat, Z.of_nat j < n → Uvarint (take j b) = (0, 0)) ∧
  (∀ rest, Uvarint (take (Z.to_nat n) b ++ rest) = (x, n)).
Proof.
  intros H Hn. unfold Uvarint in *.
  destruct (Uvarint_loop_take _ _ _ _ _ _ H Hn ltac:(lia)) as (_ & H1 & H2).
  split.
  - intros j Hj. apply H1. lia.
  - intros rest. specialize (H2 rest). by rewrite Z.sub_0_r in H2.
Qed.

(** Every strict prefix of what [binary.PutUvarint] wrote makes
    [Uvarint32] and [Uvarint64] return [io.ErrUnexpectedEOF]. *)
Lemma Uvarint64_truncated x b0 b n (k : nat) p (σ : gmap loc val) :
  0 ≤ x < 2 ^ 64 → PutUvarint b0 x = Some (b, n) → Z.of_nat k < n →
  Decode (Uvarint64 p) (take k b) σ = (Some (io_ErrUnexpectedEOF, take k b), σ) ∧
  Decode (Uvarint32 p) (take k b) σ = (Some (io_ErrUnexpectedEOF, take k b), σ).
Proof.
  intros Hx HP Hk.
  destruct (PutUvarint_Uvarint _ _ _ _ HP Hx) as (HU & Hn & _).
  destruct (Uvarint_take _ _ _ HU ltac:(lia)) as [Hshort _].
  cbn [Decode Uvarint64 Uvarint32].
  unfold uvarint64.Decode, uvarint32.Decode. by rewrite Hshort.
Qed.

(** On the layout that the documentation of [LengthDelimBytes] and
    [LengthDelimString] describes, the varint of the length followed by
    the payload, both decoders return [io.ErrUnexpectedEOF] for every
    strict prefix. *)
Lemma LengthDelim_Decode_truncated
    (v b0 b : list Z) (n : Z) (k : nat) p (σ : gmap loc val) :
  len v < 2 ^ 64 →
  PutUvarint b0 (len v) = Some (b, n) →
  Z.of_nat k < n + len v →
  let buf := take k (take (Z.to_nat n) b ++ v) in
  Decode (LengthDelimBytes p) buf σ = (Some (io_ErrUnexpectedEOF, buf), σ) ∧
  Decode (LengthDelimString p) buf σ = (Some (io_ErrUnexpectedEOF, buf), σ).
Proof.
  intros Hv HP Hk buf. pose proof (len_nonneg v).
  destruct (PutUvarint_Uvarint _ _ _ _ HP ltac:(lia)) as (HU & Hn & Hlen).
  destruct (Uvarint_take _ _ _ HU ltac:(lia)) as [_ Hfull].
  cbn [Decode LengthDelimBytes LengthDelimString].
  unfold lengthDelimBytes.Decode, lengthDelimString.Decode.
  destruct (Z.lt_ge_cases (Z.of_nat k) n) as [Hlt|Hge].
  - destruct (Uvarint_take _ _ _ (Hfull v) ltac:(lia)) as [Hshort _].
    subst buf. by rewrite Hshort.
  - assert (n ≤ len b).
    { unfold PutUvarint in HP.
      assert (∀ f c y i c' m, PutUvarint_loop f c y i = Some (c', m) →
                0 ≤ i → m ≤ len c) as Hbound.
      { clear. induction f as [|f IH]; intros c y i c' m H Hi;
          cbn [PutUvarint_loop] in H; [discriminate|].
        destruct (0x80 <=? y).
        - destruct (upd c i _) as [c1|] eqn:E; [|discriminate].
          apply upd_Some in E as [Hr ->]. apply IH in H; [|lia].
          unfold len in *. rewrite length_insert in H. lia.
        - destruct (upd c i _) as [c1|] eqn:E; [|discriminate].
          apply upd_Some in E as [Hr ->]. injection H as <- <-. lia. }
      apply Hbound in HP; [|lia]. unfold len in *. lia. }
    assert (length (take (Z.to_nat n) b) = Z.to_nat n) as Hlt.
    { rewrite length_take. unfold len in *. lia. }
    assert (buf = take (Z.to_nat n) b ++ take (k - Z.to_nat n) v) as Hbuf.
    { subst buf. rewrite take_app, Hlt. f_equal.
      rewrite take_ge; [done|]. rewrite Hlt. lia. }
    clearbody buf.
    assert (Uvarint buf = (len v, n)) as -> by (rewrite Hbuf; apply Hfull).
    destruct (Z.eqb_spec n 0); [lia|]. destruct (Z.ltb_spec n 0); [lia|].
    assert (slice_from buf n = Some (take (k - Z.to_nat n) v)) as Hs.
    { unfold slice_from. rewrite Hbuf, length_app, Hlt.
      destruct (Z.leb_spec 0 n); [|lia].
      destruct (Z.leb_spec n
        (Z.of_nat (Z.to_nat n + length (take (k - Z.to_nat n) v)))); [|lia].
      cbn [andb]. f_equal. by rewrite drop_app_length'. }
    assert ((u64 (len (take (k - Z.to_nat n) v)) <? len v) = true) as Hshort.
    { unfold u64, len in *. rewrite length_take.
      rewrite Z.mod_small by lia. apply Z.ltb_lt. lia. }
    split.
    + erewrite bind_run; [|by rewrite lift_run, Hs]. by rewrite Hshort.
    + erewrite bind_run; [|by rewrite lift_run, Hs]. by rewrite Hshort.
Qed.

(** The fixed-size items check the length of the buffer first. *)
Lemma fixed_size_truncated (it : Item) (n : Z) (buf : list Z) (σ : gmap loc val) :
  (it = Padding n ∨
   n = 1 ∧ (∃ v, it = Byte v ∨ it = Bool v) ∨
   n = 2 ∧ (∃ v, it = BigEndianUint16 v) ∨
   n = 4 ∧ (∃ v, it = BigEndianUint32 v) ∨
   n = 8 ∧ (∃ v, it = BigEndianUint64 v) ∨
   n = 16 ∧ (∃ v, it = Bytes16 v) ∨
   n = 32 ∧ (∃ v, it = Bytes32 v)) →
  len buf < n →
  Size it σ = (Some n, σ) ∧
  Decode it buf σ = (Some (io_ErrUnexpectedEOF, buf), σ).
Proof.
  intros Hit Hlen.
  assert ((len buf <? n) = true) as Hlt by by apply Z.ltb_lt.
  destruct Hit as [->|[[-> [v [->| ->]]]|[[-> [v ->]]|[[-> [v ->]]|
    [[-> [v ->]]|[[-> [v ->]]|[-> [v ->]]]]]]]];
    (split; [reflexivity|]); cbn [Decode Padding Byte Bool BigEndianUint16
      BigEndianUint32 BigEndianUint64 Bytes16 Bytes32];
    unfold padding.Decode, encByte.Decode, encBool.Decode,
      bigEndianUint16.Decode, bigEndianUint32.Decode, bigEndianUint64.Decode,
      bytes16.Decode, bytes32.Decode; by rewrite Hlt.
Qed.

(** Every strict prefix of an [OrdUvarint64] encoding makes [Decode]
    return [io.ErrUnexpectedEOF]. *)
Lemma OrdUvarint64_truncated x p q (σ σ' : gmap loc val) b (k : nat) :
  0 ≤ x < 2 ^ 64 → σ !! p = Some (VUint64 x) →
  Encoding_Encode (New [OrdUvarint64 p]) σ = (Some b, σ) →
  (k < length b)%nat →
  Decode (OrdUvarint64 q) (take k b) σ'
  = (Some (io_ErrUnexpectedEOF, take k b), σ').
Proof.
  intros Hx Hp HE Hk. cbn [Decode OrdUvarint64]. unfold ordUvarint64.Decode.
  destruct k as [|k]; [reflexivity|].
  destruct (ordUvarint64_Encoding_Encode x p σ Hx Hp)
    as [(_ & _ & HE')|(n & Hn & _ & Hhi & _ & HE')];
    rewrite HE in HE'; injection HE' as ->.
  - unfold escape in *. cbn [take]. set (t := take k _).
    assert (len (0xFF :: t) = 1 + len t) as Hl by apply len_cons.
    assert (len t < 8).
    { subst t. unfold len. rewrite length_take, length_be_bytes.
      cbn [length] in Hk. rewrite length_be_bytes in Hk. lia. }
    pose proof (len_nonneg t). rewrite Hl.
    destruct (Z.ltb_spec (1 + len t) 1); [lia|].
    erewrite bind_run; [|rewrite lift_run; reflexivity]. cbv zeta.
    change (bits_LeadingZeros8 (not8 255)) with 8.
    change ((8 + 1) * 7 =? 63) with true. cbv iota.
    destruct (Z.ltb_spec (1 + len t) 9); [done | lia].
  - destruct (compact_first_byte n x) as (f & t0 & Hc & Hf); [lia..|].
    pose proof (len_compact n x ltac:(lia)) as Hlc.
    rewrite Hc in *. cbn [take]. set (t := take k t0).
    assert (len (f :: t) = 1 + len t) as Hl by apply len_cons.
    assert (1 + len t < n).
    { subst t. unfold len in *. rewrite length_take. cbn [length] in *. lia. }
    pose proof (len_nonneg t). rewrite Hl.
    destruct (Z.ltb_spec (1 + len t) 1); [lia|].
    erewrite bind_run; [|rewrite lift_run; reflexivity]. cbv zeta.
    rewrite (leading_ones _ n) by lia.
    replace (n - 1 + 1) with n by lia.
    destruct (Z.eqb_spec (n * 7) 63); [lia|].
    destruct (Z.ltb_spec (1 + len t) n); [done | lia].
Qed.

(** ** The length-delimited items *)

(** C5. [LengthDelimBytes] bound to the one-byte slice [[0x61]] fills its
    two bytes with [0x01 0x00]: the varint of the length is there, the
    payload is not, since [copy(buf, ( *e.v)[n:])] copies the slice without
    its first [n] bytes to the start of the buffer. With the two-byte
    slice [[0x61; 0x62]] the varint itself is overwritten, and with the
    empty slice [( *e.v)[n:]] panics. [LengthDelimString] does the same. *)
Theorem LengthDelim_Encode_layout :
  Encoding_Encode (New [LengthDelimBytes 1%positive])
    ({[ 1%positive := VBytes [0x61] ]} : gmap loc val)
  = (Some [0x01; 0x00], {[ 1%positive := VBytes [0x61] ]}) ∧
  PutUvarint [0] (len [0x61]) = Some ([0x01], 1) ∧
  Encoding_Encode (New [LengthDelimBytes 1%positive])
    ({[ 1%positive := VBytes [0x61; 0x62] ]} : gmap loc val)
  = (Some [0x62; 0x00; 0x00], {[ 1%positive := VBytes [0x61; 0x62] ]}) ∧
  Encoding_Encode (New [LengthDelimBytes 1%positive])
    ({[ 1%positive := VBytes [] ]} : gmap loc val)
  = (None, {[ 1%positive := VBytes [] ]}) ∧
  Encoding_Encode (New [LengthDelimString 1%positive])
    ({[ 1%positive := VString [0x61] ]} : gmap loc val)
  = (Some [0x01; 0x00], {[ 1%positive := VString [0x61] ]}).
Proof. repeat split; reflexivity. Qed.

(** C4. The sequence of the package documentation, bound to [a = 0],
    [s = "a"] and [c = false], encodes to five bytes, the sum of the three
    sizes, but the bytes are [00 00 01 00 00]: the string's payload is
    missing. Decoding them into fresh variables takes the rest of the
    buffer, [00 00], for the string, steps past the end of the buffer and
    fails on the [bool] with [io.ErrUnexpectedEOF]. *)
Theorem encodableFoo_roundtrip_fails :
  Encoding_Encode (encodableFoo 1%positive 2%positive 3%positive)
    ({[ 1%positive := VUint16 0; 2%positive := VString [0x61];
        3%positive := VBool false ]} : gmap loc val)
  = (Some [0; 0; 1; 0; 0],
     {[ 1%positive := VUint16 0; 2%positive := VString [0x61];
        3%positive := VBool false ]}) ∧
  Encoding_Decode (encodableFoo 1%positive 2%positive 3%positive)
    [0; 0; 1; 0; 0]
    ({[ 1%positive := VUint16 0; 2%positive := VString [];
        3%positive := VBool false ]} : gmap loc val)
  = (Some io_ErrUnexpectedEOF,
     {[ 1%positive := VUint16 0; 2%positive := VString [0; 0];
        3%positive := VBool false ]}).
Proof. split; reflexivity. Qed.

(** ** The signed codec *)

(** C8. The signed order-preserving codec, as the specification lays it
    out, encodes 63 as [BF], 64 as [C0 40], -64 as [40], -65 as [3F BF],
    [-2^63] as nine [00] bytes and [2^63 - 1] as nine [FF] bytes. *)
Theorem OrdVarint64_examples :
  ordVarint64_encode 63 = [0xBF] ∧
  ordVarint64_encode 64 = [0xC0; 0x40] ∧
  ordVarint64_encode (-64) = [0x40] ∧
  ordVarint64_encode (-65) = [0x3F; 0xBF] ∧
  ordVarint64_encode (- 2 ^ 63) = [0; 0; 0; 0; 0; 0; 0; 0; 0] ∧
  ordVarint64_encode (2 ^ 63 - 1)
  = [0xFF; 0xFF; 0xFF; 0xFF; 0xFF; 0xFF; 0xFF; 0xFF; 0xFF].
Proof. repeat split; reflexivity. Qed.

(** The remaining expectations of [TestOrdVarint64]. *)
Example OrdVarint64_test_vectors :
  ordVarint64_encode 0 = [0x80] ∧
  ordVarint64_encode 1 = [0x81] ∧
  ordVarint64_encode (-1) = [0x7F] ∧
  ordVarint64_encode (-2) = [0x7E].
Proof. repeat split; reflexivity. Qed.

(** * Further properties *)

(** ** Sequences of items that keep the contracts *)

Lemma len_replicate n : len (replicate n 0) = Z.of_nat n.
Proof. unfold len. by rewrite length_replicate. Qed.

Lemma len_concat_cons (e : list Z) es : len (concat (e :: es)) = len e + len (concat es).
Proof. cbn [concat]. apply len_app. Qed.

Lemma total_size_encodes its es σ : ∀ acc,
  Forall2 (λ it e, encodes it σ e) its es →
  total_size its acc σ = (Some (acc + len (concat es)), σ).
Proof.
  intros acc H. revert acc.
  induction H as [|it e its es [HS _] _ IH]; intros acc; cbn [total_size].
  - rewrite ret_run. do 2 f_equal. unfold len. simpl. lia.
  - rewrite (bind_run _ _ _ _ _ HS), IH, len_concat_cons.
    do 2 f_equal. lia.
Qed.

Lemma Encode_loop_encodes its es σ : ∀ pre,
  Forall2 (λ it e, encodes it σ e) its es →
  Encode_loop its (pre ++ replicate (length (concat es)) 0) (len pre) σ
  = (Some (pre ++ concat es), σ).
Proof.
  intros pre H. revert pre.
  induction H as [|it e its es [HS HE] _ IH]; intros pre; cbn [Encode_loop].
  - rewrite ret_run. cbn [concat length replicate]. done.
  - rewrite (bind_run _ _ _ _ _ HS).
    pose proof (len_nonneg pre). pose proof (len_nonneg e).
    cbn [concat]. rewrite length_app, replicate_add.
    set (z1 := replicate (length e) 0). set (z2 := replicate _ 0).
    assert (slice (pre ++ z1 ++ z2) (len pre) (len pre + len e) = Some z1)
      as Hs.
    { unfold slice. rewrite !length_app. subst z1. rewrite length_replicate.
      destruct (Z.leb_spec 0 (len pre)); [|lia].
      destruct (Z.leb_spec (len pre) (len pre + len e)); [|lia].
      destruct (Z.leb_spec (len pre + len e)
        (Z.of_nat (length pre + (length e + length z2)))); [|unfold len in *; lia].
      cbn [andb]. f_equal.
      replace (Z.to_nat (len pre)) with (length pre) by (unfold len; lia).
      rewrite drop_app_length.
      replace (Z.to_nat (len pre + len e - len pre)) with
        (length (replicate (length e) 0)) by (rewrite length_replicate; unfold len; lia).
      by rewrite take_app_length. }
    erewrite bind_run; [|by rewrite lift_run, Hs].
    subst z1. rewrite (bind_run _ _ _ _ _ HE).
    assert (splice (pre ++ replicate (length e) 0 ++ z2) (len pre) e
            = (pre ++ e) ++ z2) as ->.
    { unfold splice.
      replace (Z.to_nat (len pre)) with (length pre) by (unfold len; lia).
      rewrite take_app_length, <- app_assoc. do 2 f_equal.
      rewrite app_assoc.
      replace (length pre + length e)%nat with
        (length (pre ++ replicate (length e) 0))
        by (by rewrite length_app, length_replicate).
      by rewrite drop_app_length. }
    rewrite <- len_app. subst z2. rewrite IH. by rewrite <- app_assoc.
Qed.

Lemma Encoding_Encode_of_encodes its es σ :
  Forall2 (λ it e, encodes it σ e) its es →
  Encoding_Encode (New its) σ = (Some (concat es), σ).
Proof.
  intros H. unfold Encoding_Encode, New. cbn [items].
  rewrite (bind_run _ _ _ _ _ (total_size_encodes its es σ 0 H)).
  assert (make (0 + len (concat es))
          = Some (replicate (length (concat es)) 0)) as Hm.
  { unfold make. pose proof (len_nonneg (concat es)).
    destruct (Z.ltb_spec (0 + len (concat es)) 0); [lia|].
    do 2 f_equal. unfold len. lia. }
  erewrite bind_run; [|by rewrite lift_run, Hm].
  exact (Encode_loop_encodes its es σ [] H).
Qed.

Lemma Decode_loop_chain its es σ σ' rest :
  decode_chain its es σ σ' → ∀ pre,
  Decode_loop its (pre ++ concat es ++ rest) (len pre) σ
  = (Some (err_nil, (pre ++ concat es ++ rest, len pre + len (concat es))),
     σ').
Proof.
  induction 1 as [σ|it its e es σ σ1 σ2 HD _ IH]; intros pre;
    cbn [Decode_loop].
  - rewrite ret_run. do 4 f_equal. unfold len. simpl. lia.
  - pose proof (len_nonneg pre).
    assert (Z.to_nat (len pre) = length pre) as Hpre by (unfold len; lia).
    cbn [concat]. rewrite <- (app_assoc e).
    destruct (HD (concat es ++ rest)) as [HDec HS].
    assert (slice_from (pre ++ e ++ concat es ++ rest) (len pre)
            = Some (e ++ concat es ++ rest)) as Hs.
    { unfold slice_from. rewrite length_app.
      destruct (Z.leb_spec 0 (len pre)); [|lia].
      destruct (Z.leb_spec (len pre)
        (Z.of_nat (length pre + length (e ++ concat es ++ rest))));
        [|unfold len in *; lia].
      cbn [andb]. by rewrite Hpre, drop_app_length. }
    erewrite bind_run; [|by rewrite lift_run, Hs].
    rewrite (bind_run _ _ _ _ _ HDec). cbn [fst snd].
    rewrite (bind_run _ _ _ _ _ HS).
    assert (splice (pre ++ e ++ concat es ++ rest) (len pre)
              (e ++ concat es ++ rest) = pre ++ e ++ concat es ++ rest) as ->.
    { unfold splice. rewrite Hpre, take_app_length.
      rewrite drop_ge; [by rewrite app_nil_r|]. rewrite length_app. lia. }
    specialize (IH (pre ++ e)). rewrite len_app, <- !app_assoc in IH.
    rewrite IH, len_app. do 4 f_equal. lia.
Qed.

Lemma Encoding_Decode_of_chain its es σ σ' rest :
  decode_chain its es σ σ' →
  Encoding_Decode (New its) (concat es ++ rest) σ = (Some err_nil, σ').
Proof.
  intros H. unfold Encoding_Decode, New. cbn [items].
  by rewrite (bind_run _ _ _ _ _ (Decode_loop_chain its es σ σ' rest H [])).
Qed.

(** ** The codec of each kind *)

Lemma ltb_len_app (e rest : list Z) n :
  n ≤ len e → (len (e ++ rest) <? n) = false.
Proof.
  intros H. apply Z.ltb_ge. rewrite len_app. pose proof (len_nonneg rest). lia.
Qed.

Lemma ltb_len_take (e : list Z) (k : nat) n :
  (k < length e)%nat → len e ≤ n → (len (take k e) <? n) = true.
Proof.
  intros Hk Hn. apply Z.ltb_lt. unfold len in *. rewrite length_take. lia.
Qed.

Lemma is_byte_range b : is_byte b = true → 0 ≤ b < 256.
Proof.
  unfold is_byte. intros [H1%Z.leb_le H2%Z.ltb_lt]%andb_prop.
  change (2 ^ 8) with 256 in H2. lia.
Qed.

Lemma forallb_is_byte bs :
  forallb is_byte bs = true → Forall (λ b, 0 ≤ b < 256) bs.
Proof.
  intros H. apply Forall_forall. intros b Hb.
  apply is_byte_range. rewrite forallb_forall in H. apply H.
  by apply list_elem_of_In.
Qed.

Lemma range_bool x n : (0 <=? x) && (x <? n) = true → 0 ≤ x < n.
Proof. intros [H1%Z.leb_le H2%Z.ltb_lt]%andb_prop. lia. Qed.

Lemma bound_item σ k p :
  bound σ (FItem k p) = true → ∃ x, σ !! p = Some x ∧ typed k x = true.
Proof. cbn [bound]. destruct (σ !! p); [eauto | discriminate]. Qed.

Lemma be_decode n x :
  0 ≤ x < 2 ^ (8 * Z.of_nat n) → be_combine (be_bytes n x) = x.
Proof. intros H. rewrite be_combine_be_bytes. by apply Z.mod_small. Qed.

Lemma lor_shl_byte_w w lo b s :
  0 ≤ s → s + 8 ≤ w → 0 ≤ lo < 2 ^ s → 0 ≤ b < 256 →
  Z.lor lo (shl w b s) = b * 2 ^ s + lo.
Proof.
  intros Hs Hw Hlo Hb.
  assert (0 < 2 ^ s) by (apply Z.pow_pos_nonneg; lia).
  assert (2 ^ (s + 8) ≤ 2 ^ w) by (apply Z.pow_le_mono_r; lia).
  rewrite Z.pow_add_r in * by lia. change (2 ^ 8) with 256 in *.
  rewrite shl_small by nia.
  by rewrite Z.lor_comm, lor_add by lia.
Qed.

Lemma Uint16_be b0 b1 rest :
  0 ≤ b0 < 256 → 0 ≤ b1 < 256 →
  Uint16 (b0 :: b1 :: rest) = Some (be_combine [b0; b1]).
Proof.
  intros H0 H1.
  assert (Uint16 (b0 :: b1 :: rest) = Some (Z.lor b1 (shl 16 b0 8))) as ->
    by reflexivity.
  f_equal. cbn [be_combine]. unfold len. cbn [length].
  change (8 * Z.of_nat 1) with 8. change (8 * Z.of_nat 0) with 0.
  change (2 ^ 0) with 1.
  rewrite (lor_shl_byte_w 16 _ _ 8) by (change (2 ^ 8) with 256; lia). lia.
Qed.

Lemma Uint32_be b0 b1 b2 b3 rest :
  0 ≤ b0 < 256 → 0 ≤ b1 < 256 → 0 ≤ b2 < 256 → 0 ≤ b3 < 256 →
  Uint32 (b0 :: b1 :: b2 :: b3 :: rest) = Some (be_combine [b0; b1; b2; b3]).
Proof.
  intros H0 H1 H2 H3.
  assert (Uint32 (b0 :: b1 :: b2 :: b3 :: rest)
    = Some (Z.lor (Z.lor (Z.lor b3 (shl 32 b2 8)) (shl 32 b1 16))
                  (shl 32 b0 24))) as -> by reflexivity.
  f_equal. cbn [be_combine]. unfold len. cbn [length].
  change (8 * Z.of_nat 3) with 24. change (8 * Z.of_nat 2) with 16.
  change (8 * Z.of_nat 1) with 8. change (8 * Z.of_nat 0) with 0.
  change (2 ^ 0) with 1.
  rewrite (lor_shl_byte_w 32 _ _ 8) by (change (2 ^ 8) with 256; lia).
  rewrite (lor_shl_byte_w 32 _ _ 16)
    by (change (2 ^ 8) with 256; change (2 ^ 16) with 65536; lia).
  rewrite (lor_shl_byte_w 32 _ _ 24)
    by (change (2 ^ 8) with 256; change (2 ^ 16) with 65536;
        change (2 ^ 24) with 16777216; lia).
  lia.
Qed.

Lemma Uint64_app bs rest :
  length bs = 8%nat → Uint64 (bs ++ rest) = Uint64 bs.
Proof.
  intros Hl.
  destruct bs as [|b0 [|b1 [|b2 [|b3 [|b4 [|b5 [|b6 [|b7 [|? ?]]]]]]]]];
    try discriminate. reflexivity.
Qed.

Lemma Padding_codec σ n :
  0 ≤ n → field_codec σ (FPadding n) (replicate (Z.to_nat n) 0).
Proof.
  intros Hn.
  assert (len (replicate (Z.to_nat n) 0) = n) as Hlen
    by (rewrite len_replicate; lia).
  split; [|split].
  - split; cbn [item Size Encode Padding]; unfold padding.Size, padding.Encode.
    + by rewrite ret_run, Hlen.
    + by rewrite ret_run, length_replicate.
  - intros σ' _ rest. cbn [item Decode Size Padding written].
    unfold padding.Decode, padding.Size.
    rewrite ltb_len_app by lia. by rewrite !ret_run, Hlen.
  - intros k σ' Hk. cbn [item Decode Padding]. unfold padding.Decode.
    by rewrite ltb_len_take by (done || lia).
Qed.

Lemma Byte_codec σ p b :
  σ !! p = Some (VByte b) → field_codec σ (FItem KByte p) [b].
Proof.
  intros Hp. split; [|split].
  - split; cbn [item Size Encode Byte]; unfold encByte.Size, encByte.Encode.
    + reflexivity.
    + erewrite bind_run; [|by eapply load_run]. reflexivity.
  - intros σ' [x [Hx _]]%bound_item rest.
    cbn [item Decode Size Byte written]. rewrite Hp.
    unfold encByte.Decode, encByte.Size.
    rewrite ltb_len_app by (unfold len; simpl; lia).
    erewrite bind_run; [|rewrite lift_run; reflexivity].
    erewrite bind_run; [|by apply assign_run]. done.
  - intros k σ' Hk. cbn [item Decode Byte]. unfold encByte.Decode.
    by rewrite ltb_len_take by (done || unfold len; simpl; lia).
Qed.

Lemma Bool_codec σ p (b : bool) :
  σ !! p = Some (VBool b) →
  field_codec σ (FItem KBool p) [if b then 1 else 0].
Proof.
  intros Hp. split; [|split].
  - split; cbn [item Size Encode Bool]; unfold encBool.Size, encBool.Encode.
    + reflexivity.
    + erewrite bind_run; [|by eapply load_run]. by destruct b.
  - intros σ' [x [Hx _]]%bound_item rest.
    cbn [item Decode Size Bool written]. rewrite Hp.
    unfold encBool.Decode, encBool.Size.
    rewrite ltb_len_app by (unfold len; simpl; lia).
    erewrite bind_run; [|rewrite lift_run; reflexivity].
    erewrite bind_run; [|by apply assign_run]. by destruct b.
  - intros k σ' Hk. cbn [item Decode Bool]. unfold encBool.Decode.
    by rewrite ltb_len_take by (done || unfold len; simpl; lia).
Qed.

Lemma BigEndianUint16_codec σ p x :
  σ !! p = Some (VUint16 x) → 0 ≤ x < 2 ^ 16 →
  field_codec σ (FItem KBigEndianUint16 p) (be_bytes 2 x).
Proof.
  intros Hp Hx. split; [|split].
  - split; cbn [item Size Encode BigEndianUint16];
      unfold bigEndianUint16.Size, bigEndianUint16.Encode.
    + reflexivity.
    + erewrite bind_run; [|by eapply load_run]. reflexivity.
  - intros σ' [y [Hy _]]%bound_item rest.
    cbn [item Decode Size BigEndianUint16 written]. rewrite Hp.
    unfold bigEndianUint16.Decode, bigEndianUint16.Size.
    rewrite ltb_len_app by (unfold len; simpl; lia).
    cbn [be_bytes app].
    erewrite bind_run;
      [|rewrite lift_run, Uint16_be by apply u8_range; reflexivity].
    erewrite bind_run; [|by apply assign_run].
    rewrite ret_run. split; [|reflexivity]. do 3 f_equal.
    exact (be_decode 2 x Hx).
  - intros k σ' Hk. cbn [item Decode BigEndianUint16].
    unfold bigEndianUint16.Decode.
    by rewrite ltb_len_take by (done || unfold len; simpl; lia).
Qed.

Lemma BigEndianUint32_codec σ p x :
  σ !! p = Some (VUint32 x) → 0 ≤ x < 2 ^ 32 →
  field_codec σ (FItem KBigEndianUint32 p) (be_bytes 4 x).
Proof.
  intros Hp Hx. split; [|split].
  - split; cbn [item Size Encode BigEndianUint32];
      unfold bigEndianUint32.Size, bigEndianUint32.Encode.
    + reflexivity.
    + erewrite bind_run; [|by eapply load_run]. reflexivity.
  - intros σ' [y [Hy _]]%bound_item rest.
    cbn [item Decode Size BigEndianUint32 written]. rewrite Hp.
    unfold bigEndianUint32.Decode, bigEndianUint32.Size.
    rewrite ltb_len_app by (unfold len; simpl; lia).
    cbn [be_bytes app].
    erewrite bind_run;
      [|rewrite lift_run, Uint32_be by apply u8_range; reflexivity].
    erewrite bind_run; [|by apply assign_run].
    rewrite ret_run. split; [|reflexivity]. do 3 f_equal.
    exact (be_decode 4 x Hx).
  - intros k σ' Hk. cbn [item Decode BigEndianUint32].
    unfold bigEndianUint32.Decode.
    by rewrite ltb_len_take by (done || unfold len; simpl; lia).
Qed.

Lemma BigEndianUint64_codec σ p x :
  σ !! p = Some (VUint64 x) → 0 ≤ x < 2 ^ 64 →
  field_codec σ (FItem KBigEndianUint64 p) (be_bytes 8 x).
Proof.
  intros Hp Hx. split; [|split].
  - split; cbn [item Size Encode BigEndianUint64];
      unfold bigEndianUint64.Size, bigEndianUint64.Encode.
    + reflexivity.
    + erewrite bind_run; [|by eapply load_run]. reflexivity.
  - intros σ' [y [Hy _]]%bound_item rest.
    cbn [item Decode Size BigEndianUint64 written]. rewrite Hp.
    unfold bigEndianUint64.Decode, bigEndianUint64.Size.
    rewrite ltb_len_app by (unfold len; simpl; lia).
    erewrite bind_run;
      [|rewrite lift_run, Uint64_app, Uint64_spec;
        [reflexivity | apply length_be_bytes | apply be_bytes_range
        | apply length_be_bytes]].
    erewrite bind_run; [|by apply assign_run].
    rewrite ret_run. split; [|reflexivity]. do 3 f_equal.
    exact (be_decode 8 x Hx).
  - intros k σ' Hk. cbn [item Decode BigEndianUint64].
    unfold bigEndianUint64.Decode.
    by rewrite ltb_len_take by (done || unfold len; simpl; lia).
Qed.

Lemma copy_same_length (dst src : list Z) :
  length dst = length src → copy dst src = src.
Proof.
  intros H. unfold copy. rewrite H, take_ge, drop_ge by lia.
  apply app_nil_r.
Qed.

Lemma slice_to_app (e rest : list Z) n :
  n = len e → slice_to (e ++ rest) n = Some e.
Proof.
  intros ->. unfold slice_to, len. rewrite length_app.
  destruct (Z.leb_spec 0 (Z.of_nat (length e))); [|lia].
  destruct (Z.leb_spec (Z.of_nat (length e))
    (Z.of_nat (length e + length rest))); [|lia].
  cbn [andb]. f_equal. rewrite Nat2Z.id. apply take_app_length.
Qed.

Lemma Bytes16_codec σ p a :
  σ !! p = Some (VArray16 a) → len a = 16 →
  field_codec σ (FItem KBytes16 p) a.
Proof.
  intros Hp Ha. assert (length a = 16%nat) as Hl by (unfold len in Ha; lia).
  split; [|split].
  - split; cbn [item Size Encode Bytes16]; unfold bytes16.Size, bytes16.Encode.
    + by rewrite ret_run, Ha.
    + erewrite bind_run; [|by eapply load_run].
      by rewrite ret_run, copy_same_length by (by rewrite length_replicate).
  - intros σ' [y [Hy Hty]]%bound_item rest.
    cbn [item Decode Size Bytes16 written]. rewrite Hp.
    unfold bytes16.Decode, bytes16.Size.
    rewrite ltb_len_app by lia.
    destruct y; try discriminate. cbn [typed] in Hty.
    apply andb_prop in Hty as [Hla%Z.eqb_eq _].
    erewrite bind_run; [|by eapply load_run].
    erewrite bind_run; [|by rewrite lift_run, slice_to_app].
    erewrite bind_run; [|apply assign_run; eauto].
    rewrite !ret_run, Ha, copy_same_length by (unfold len in *; lia). done.
  - intros k σ' Hk. cbn [item Decode Bytes16]. unfold bytes16.Decode.
    by rewrite ltb_len_take by (done || lia).
Qed.

Lemma Bytes32_codec σ p a :
  σ !! p = Some (VArray32 a) → len a = 32 →
  field_codec σ (FItem KBytes32 p) a.
Proof.
  intros Hp Ha. assert (length a = 32%nat) as Hl by (unfold len in Ha; lia).
  split; [|split].
  - split; cbn [item Size Encode Bytes32]; unfold bytes32.Size, bytes32.Encode.
    + by rewrite ret_run, Ha.
    + erewrite bind_run; [|by eapply load_run].
      by rewrite ret_run, copy_same_length by (by rewrite length_replicate).
  - intros σ' [y [Hy Hty]]%bound_item rest.
    cbn [item Decode Size Bytes32 written]. rewrite Hp.
    unfold bytes32.Decode, bytes32.Size.
    rewrite ltb_len_app by lia.
    destruct y; try discriminate. cbn [typed] in Hty.
    apply andb_prop in Hty as [Hla%Z.eqb_eq _].
    erewrite bind_run; [|by eapply load_run].
    erewrite bind_run; [|by rewrite lift_run, slice_to_app].
    erewrite bind_run; [|apply assign_run; eauto].
    rewrite !ret_run, Ha, copy_same_length by (unfold len in *; lia). done.
  - intros k σ' Hk. cbn [item Decode Bytes32]. unfold bytes32.Decode.
    by rewrite ltb_len_take by (done || lia).
Qed.

(** What [binary.PutUvarint] writes and returns does not depend on the
    buffer, as long as the buffer is long enough. *)
Lemma PutUvarint_loop_indep fuel : ∀ b x i b' n c,
  PutUvarint_loop fuel b x i = Some (b', n) → 0 ≤ i → n ≤ len c →
  ∃ c', PutUvarint_loop fuel c x i = Some (c', n) ∧
        ∀ j, (Z.to_nat i ≤ j < Z.to_nat n)%nat → c' !! j = b' !! j.
Proof.
  induction fuel as [|fuel IH]; intros b x i b' n c H Hi Hn;
    cbn [PutUvarint_loop] in *; [discriminate|].
  destruct (0x80 <=? x).
  - destruct (upd b i _) as [b1|] eqn:E; cbn [mbind option_bind] in H;
      [|discriminate].
    apply upd_Some in E as [Hr ->].
    pose proof (PutUvarint_loop_prefix _ _ _ _ _ _ H ltac:(lia))
      as (Hl & Hlt & Hp).
    rewrite upd_run by lia. cbn [mbind option_bind].
    destruct (IH _ _ _ _ _ (<[Z.to_nat i:=Z.lor (u8 x) 128]> c) H ltac:(lia))
      as (c' & Hc & Hag).
    { unfold len in *. rewrite length_insert. lia. }
    exists c'. split; [done|]. intros j Hj.
    destruct (decide (j = Z.to_nat i)) as [->|Hne]; [|apply Hag; lia].
    pose proof (PutUvarint_loop_prefix _ _ _ _ _ _ Hc ltac:(lia))
      as (_ & _ & Hp').
    rewrite Hp, Hp' by lia.
    rewrite !list_lookup_insert_eq; [done | unfold len in *; lia..].
  - destruct (upd b i _) as [b1|] eqn:E; cbn [mbind option_bind] in H;
      [|discriminate].
    apply upd_Some in E as [Hr ->]. injection H as <- <-.
    rewrite upd_run by lia. cbn [mbind option_bind].
    eexists. split; [done|]. intros j Hj.
    replace j with (Z.to_nat i) by lia.
    rewrite !list_lookup_insert_eq; [done | unfold len in *; lia..].
Qed.

(** The bytes of the conventional varint of [x], and their number. *)
Lemma uvarint_bytes x :
  0 ≤ x < 2 ^ 64 →
  ∃ e, uvarintSize x = Some (len e) ∧ 1 ≤ len e ≤ 10 ∧
       PutUvarint (replicate (length e) 0) x = Some (e, len e) ∧
       (∀ rest, Uvarint (e ++ rest) = (x, len e)) ∧
       (∀ k : nat, (k < length e)%nat → Uvarint (take k e) = (0, 0)).
Proof.
  intros Hx. destruct (uvarintSize_Some x Hx) as (n & HS & Hn).
  unfold uvarintSize in HS.
  change (make MaxVarintLen64) with (Some (replicate 10%nat 0)) in HS.
  cbn [mbind option_bind] in HS.
  destruct (PutUvarint (replicate 10 0) x) as [[b n']|] eqn:HP;
    [|discriminate].
  cbn in HS. injection HS as ->.
  destruct (PutUvarint_Uvarint _ _ _ _ HP Hx) as (HU & _ & Hlb).
  rewrite length_replicate in Hlb.
  destruct (PutUvarint_loop_indep _ _ _ _ _ _ (replicate (Z.to_nat n) 0) HP)
    as (c' & Hc & Hag); [lia | rewrite len_replicate; lia |].
  destruct (PutUvarint_loop_prefix _ _ _ _ _ _ Hc ltac:(lia)) as (Hlc & _ & _).
  rewrite length_replicate in Hlc.
  assert (c' = take (Z.to_nat n) b) as ->.
  { apply list_eq. intros j. destruct (decide (j < Z.to_nat n)%nat).
    - rewrite lookup_take_lt by done. apply Hag. lia.
    - rewrite lookup_take_ge by lia. apply lookup_ge_None. lia. }
  exists (take (Z.to_nat n) b).
  assert (len (take (Z.to_nat n) b) = n) as Hlen by (unfold len; lia).
  rewrite Hlen, Hlc.
  destruct (Uvarint_take _ _ _ HU ltac:(lia)) as [Hshort Hfull].
  unfold uvarintSize.
  change (make MaxVarintLen64) with (Some (replicate 10%nat 0)).
  cbn [mbind option_bind]. rewrite HP.
  split; [done|]. split; [lia|]. split; [exact Hc|]. split; [done|].
  intros k Hk. rewrite take_take.
  replace (k `min` Z.to_nat n)%nat with k by lia. apply Hshort. lia.
Qed.

Lemma Uvarint64_codec σ p x :
  σ !! p = Some (VUint64 x) → 0 ≤ x < 2 ^ 64 →
  ∃ e, field_codec σ (FItem KUvarint64 p) e.
Proof.
  intros Hp Hx. destruct (uvarint_bytes x Hx) as (e & HS & Hn & HP & HU & HT).
  exists e. split; [|split].
  - split; cbn [item Size Encode Uvarint64];
      unfold uvarint64.Size, uvarint64.Encode.
    + erewrite bind_run; [|by eapply load_run]. by rewrite lift_run, HS.
    + erewrite bind_run; [|by eapply load_run].
      erewrite bind_run; [|by rewrite lift_run, HP]. done.
  - intros σ' [y [Hy _]]%bound_item rest.
    cbn [item Decode Size Uvarint64 written]. rewrite Hp.
    unfold uvarint64.Decode, uvarint64.Size. rewrite HU.
    destruct (Z.eqb_spec (len e) 0); [lia|].
    destruct (Z.ltb_spec (len e) 0); [lia|].
    erewrite bind_run; [|by apply assign_run]. split; [done|].
    erewrite bind_run; [|eapply load_run; [apply lookup_insert_eq | done]].
    by rewrite lift_run, HS.
  - intros k σ' Hk. cbn [item Decode Uvarint64]. unfold uvarint64.Decode.
    by rewrite HT.
Qed.

Lemma Uvarint32_codec σ p x :
  σ !! p = Some (VUint32 x) → 0 ≤ x < 2 ^ 32 →
  ∃ e, field_codec σ (FItem KUvarint32 p) e.
Proof.
  intros Hp Hx.
  assert (2 ^ 32 < 2 ^ 64) by done.
  assert (u64 x = x) as Hu by (unfold u64; apply Z.mod_small; lia).
  assert (u32 x = x) as Hu' by (unfold u32; apply Z.mod_small; lia).
  destruct (uvarint_bytes x ltac:(lia)) as (e & HS & Hn & HP & HU & HT).
  exists e. split; [|split].
  - split; cbn [item Size Encode Uvarint32];
      unfold uvarint32.Size, uvarint32.Encode.
    + erewrite bind_run; [|by eapply load_run]. by rewrite lift_run, Hu, HS.
    + erewrite bind_run; [|by eapply load_run].
      erewrite bind_run; [|by rewrite lift_run, Hu, HP]. done.
  - intros σ' [y [Hy _]]%bound_item rest.
    cbn [item Decode Size Uvarint32 written]. rewrite Hp.
    unfold uvarint32.Decode, uvarint32.Size. rewrite HU.
    destruct (Z.eqb_spec (len e) 0); [lia|].
    destruct (Z.ltb_spec (len e) 0); [lia|].
    destruct (Z.ltb_spec math_MaxUint32 (len e));
      [unfold math_MaxUint32 in *; lia|].
    erewrite bind_run; [|by apply assign_run]. rewrite Hu'. split; [done|].
    erewrite bind_run; [|eapply load_run; [apply lookup_insert_eq | done]].
    by rewrite lift_run, Hu, HS.
  - intros k σ' Hk. cbn [item Decode Uvarint32]. unfold uvarint32.Decode.
    by rewrite HT.
Qed.

(** The loop of [ordUvarint64.Decode] reads the first [nBytes] bytes of a
    longer slice as one big-endian number. *)
Lemma Decode_loop_front buf n rest : ∀ suf pre acc,
  buf = pre ++ suf ++ rest → n = len pre + len suf → n ≤ 8 →
  Forall (λ b, 0 ≤ b < 256) suf →
  for_each (ordUvarint64.Decode_body buf n) (seqZ (len pre) (len suf))
    (acc * 2 ^ (8 * len suf))
  = Some (acc * 2 ^ (8 * len suf) + be_combine suf).
Proof.
  induction suf as [|b t IH]; intros pre acc Hbuf Hn Hle Hr.
  - simpl. f_equal. lia.
  - apply Forall_cons in Hr as [Hb Hr].
    pose proof (len_nonneg pre). pose proof (len_nonneg t).
    rewrite len_cons in Hn.
    rewrite seqZ_cons by (rewrite len_cons; lia).
    cbn [for_each]. rewrite Hbuf at 1. cbn [app].
    rewrite Decode_body_run. cbn [mbind option_bind].
    replace (n * 8 - len pre * 8 - 8) with (8 * len t) by lia.
    rewrite uint_small by (change (2 ^ 64) with 18446744073709551616; lia).
    assert (0 < 2 ^ (8 * len t)) by (apply Z.pow_pos_nonneg; lia).
    assert (2 ^ (8 * len t + 8) ≤ 2 ^ 64) by (apply Z.pow_le_mono_r; lia).
    assert (2 ^ (8 * len t + 8) = 256 * 2 ^ (8 * len t)) as Hp.
    { rewrite Z.pow_add_r by lia. change (2 ^ 8) with 256. lia. }
    rewrite shl_small by nia.
    rewrite len_cons. replace (8 * (1 + len t)) with (8 * len t + 8) by lia.
    rewrite lor_add by nia.
    pose proof (IH (pre ++ [b]) (acc * 256 + b)) as IH'.
    rewrite len_app in IH'. change (len [b]) with 1 in IH'.
    replace (Z.succ (len pre)) with (len pre + 1) by lia.
    replace (Z.pred (1 + len t)) with (len t) by lia.
    replace (acc * 2 ^ (8 * len t + 8) + b * 2 ^ (8 * len t))
      with ((acc * 256 + b) * 2 ^ (8 * len t)) by nia.
    rewrite IH'; [| by rewrite <- app_assoc | lia | done | done].
    cbn [be_combine]. f_equal. nia.
Qed.

Lemma ordUvarint64_Decode_compact_front x n p (σ : gmap loc val) rest :
  1 ≤ n ≤ 8 → 0 ≤ x < 2 ^ (7 * n) → is_Some (σ !! p) →
  Decode (OrdUvarint64 p) (compact n x ++ rest) σ
  = (Some (err_nil, compact n x ++ rest), <[p := VUint64 x]> σ).
Proof.
  intros Hn Hx Hp. cbn [Decode OrdUvarint64]. unfold ordUvarint64.Decode.
  pose proof (len_compact n x ltac:(lia)) as Hlen.
  pose proof (len_nonneg rest).
  assert (len (compact n x ++ rest) = n + len rest) as Hl
    by (by rewrite len_app, Hlen).
  rewrite Hl.
  destruct (Z.ltb_spec (n + len rest) 1); [lia|].
  erewrite bind_run; [|rewrite lift_run; reflexivity]. cbv zeta.
  pose proof (top_bits n x Hn Hx) as Hq.
  assert (0 < 2 ^ (8 - n)) by (apply Z.pow_pos_nonneg; lia).
  assert (2 ^ (9 - n) = 2 * 2 ^ (8 - n)) as Hp2.
  { replace (9 - n) with (1 + (8 - n)) by lia. by rewrite Z.pow_add_r by lia. }
  rewrite (leading_ones _ n) by lia.
  replace (n - 1 + 1) with n by lia.
  destruct (Z.eqb_spec (n * 7) 63); [lia|].
  destruct (Z.ltb_spec (n + len rest) n); [lia|].
  assert (idiv (n * 7 + 8) 8 = n) as -> by (cases_1_8 n; reflexivity).
  pose proof (Decode_loop_front (compact n x ++ rest) n rest
                (compact n x) [] 0 eq_refl) as HL.
  rewrite Hlen in HL. change (len []) with 0 in HL.
  rewrite Z.mul_0_l, Z.add_0_l in HL.
  unfold for_range.
  erewrite bind_run;
    [|rewrite lift_run, HL by (by (lia || apply compact_range)); reflexivity].
  erewrite bind_run; [|by apply assign_run].
  rewrite ret_run, mask_value, Z.land_ones by lia.
  by rewrite ?Z.add_0_l, be_combine_compact.
Qed.

Lemma ordUvarint64_Decode_escape_front x p (σ : gmap loc val) rest :
  0 ≤ x < 2 ^ 64 → is_Some (σ !! p) →
  Decode (OrdUvarint64 p) (escape x ++ rest) σ
  = (Some (err_nil, escape x ++ rest), <[p := VUint64 x]> σ).
Proof.
  intros Hx Hp. cbn [Decode OrdUvarint64]. unfold ordUvarint64.Decode.
  pose proof (len_nonneg rest).
  assert (len (escape x ++ rest) = 9 + len rest) as Hl
    by (by rewrite len_app).
  rewrite Hl.
  destruct (Z.ltb_spec (9 + len rest) 1); [lia|].
  erewrite bind_run; [|rewrite lift_run; reflexivity]. cbv zeta.
  change (bits_LeadingZeros8 (not8 255)) with 8.
  change ((8 + 1) * 7 =? 63) with true. cbv iota.
  destruct (Z.ltb_spec (9 + len rest) 9); [lia|].
  assert (slice_from (escape x ++ rest) 1 = Some (be_bytes 8 x ++ rest)) as Hs.
  { unfold slice_from. fold (len (escape x ++ rest)). rewrite Hl.
    destruct (Z.leb_spec 1 (9 + len rest)); [|lia]. reflexivity. }
  erewrite bind_run; [|by rewrite lift_run, Hs].
  erewrite bind_run;
    [|rewrite lift_run, Uint64_app, Uint64_spec;
      [reflexivity | apply length_be_bytes | apply be_bytes_range
      | apply length_be_bytes]].
  erewrite bind_run; [|by apply assign_run].
  rewrite ret_run, be_combine_be_bytes.
  change (2 ^ (8 * Z.of_nat 8)) with (2 ^ 64). by rewrite Z.mod_small.
Qed.

Lemma OrdUvarint64_codec σ p x :
  σ !! p = Some (VUint64 x) → 0 ≤ x < 2 ^ 64 →
  ∃ e, field_codec σ (FItem KOrdUvarint64 p) e.
Proof.
  intros Hp Hx.
  assert (∀ σ', Size (OrdUvarint64 p) (<[p := VUint64 x]> σ')
                = (Some (if 56 <? bits_Len64 x then 9
                         else 1 + idiv (bits_Len64 x - 1) 7),
                   <[p := VUint64 x]> σ')) as HS'.
  { intros σ'. apply ordUvarint64_Size_run, lookup_insert_eq. }
  pose proof (ordUvarint64_Size_run x p σ Hp) as HS.
  destruct (ordUvarint64_Encoding_Encode x p σ Hx Hp)
    as [(Hbig & HS9 & HE)|(n & Hn & Hlo & Hhi & HSn & HE)].
  - rewrite HS in HS9. injection HS9 as HS9. exists (escape x).
    split; [|split].
    + split; cbn [item]; [by rewrite HS, HS9|].
      by apply ordUvarint64_Encode_escape.
    + intros σ' [y [Hy _]]%bound_item rest. cbn [item written]. rewrite Hp.
      split; [by apply ordUvarint64_Decode_escape_front|].
      by rewrite HS', HS9.
    + intros k σ' Hk. cbn [item].
      by apply (OrdUvarint64_truncated x p p σ σ').
  - rewrite HS in HSn. injection HSn as HSn. exists (compact n x).
    pose proof (len_compact n x ltac:(lia)) as Hlen.
    destruct (size_class x) as (m & Hm & _ & Hmhi & Hl & HSz & Hq).
    { split; [lia|]. apply Z.lt_le_trans with (2 ^ (7 * n)); [done|].
      apply Z.pow_le_mono_r; lia. }
    destruct (Z.ltb_spec 56 (bits_Len64 x)); [lia|].
    assert (m = n) as -> by lia.
    split; [|split].
    + split; cbn [item]; [by rewrite HS, HSn, Hlen|].
      replace (length (compact n x)) with (Z.to_nat n)
        by (unfold len in Hlen; lia).
      apply ordUvarint64_Encode_compact; [done | done | lia | done |].
      destruct Hq as [->|Hq]; [|by right]. left. split; [done|].
      revert HSz. vm_compute. lia.
    + intros σ' [y [Hy _]]%bound_item rest. cbn [item written]. rewrite Hp.
      split; [apply ordUvarint64_Decode_compact_front; (done || lia)|].
      rewrite HS'. destruct (Z.ltb_spec 56 (bits_Len64 x)); [lia|].
      by rewrite HSn, Hlen.
    + intros k σ' Hk. cbn [item].
      by apply (OrdUvarint64_truncated x p p σ σ').
Qed.

(** Every sound field whose variable holds a value of its type has a codec. *)
Lemma sound_field_codec σ f :
  sound f = true → bound σ f = true → ∃ e, field_codec σ f e.
Proof.
  intros Hs Hb. destruct f as [n|k p].
  - cbn [bound] in Hb. apply Z.leb_le in Hb. eexists. by apply Padding_codec.
  - apply bound_item in Hb as (x & Hp & Hty).
    destruct k, x; try discriminate; cbn [typed] in Hty.
    + eexists. by apply Byte_codec.
    + eexists. by apply Bool_codec.
    + eexists. apply BigEndianUint16_codec; [done | by apply range_bool].
    + eexists. apply BigEndianUint32_codec; [done | by apply range_bool].
    + eexists. apply BigEndianUint64_codec; [done | by apply range_bool].
    + eapply Uvarint32_codec; [done | by apply range_bool].
    + eapply Uvarint64_codec; [done | by apply range_bool].
    + eapply OrdUvarint64_codec; [done | by apply range_bool].
    + apply andb_prop in Hty as [Hl%Z.eqb_eq _]. eexists. by apply Bytes16_codec.
    + apply andb_prop in Hty as [Hl%Z.eqb_eq _]. eexists. by apply Bytes32_codec.
Qed.

(** ** Sequences of sound fields *)

Lemma bound_written σ σ' f g :
  bound σ g = true → bound σ' g = true → bound (written σ f σ') g = true.
Proof.
  intros Hg Hg'. destruct f as [n|k p]; [done|]. cbn [written].
  destruct (σ !! p) as [x|] eqn:Hp; [|done].
  destruct g as [m|k' q]; [done|]. cbn [bound] in *.
  destruct (decide (p = q)) as [->|Hne].
  - rewrite lookup_insert_eq. by rewrite Hp in Hg.
  - by rewrite lookup_insert_ne.
Qed.

Lemma forallb_bound_written σ σ' f fs :
  forallb (bound σ) fs = true → forallb (bound σ') fs = true →
  forallb (bound (written σ f σ')) fs = true.
Proof.
  rewrite !forallb_forall. intros H H' g Hg. apply bound_written; auto.
Qed.

Lemma sequence_codec σ fs :
  forallb sound fs = true → forallb (bound σ) fs = true →
  ∃ es, Forall2 (field_codec σ) fs es.
Proof.
  induction fs as [|f fs IH]; cbn [forallb]; intros Hs Hb.
  - exists []. constructor.
  - apply andb_prop in Hs as [Hs Hss]. apply andb_prop in Hb as [Hb Hbs].
    destruct (sound_field_codec σ f Hs Hb) as [e He].
    destruct (IH Hss Hbs) as [es Hes].
    exists (e :: es). by constructor.
Qed.

Lemma encodes_of_codecs σ fs es :
  Forall2 (field_codec σ) fs es →
  Forall2 (λ it e, encodes it σ e) (item <$> fs) es.
Proof.
  induction 1 as [|f e fs es [He _] _ IH]; cbn [fmap list_fmap];
    by constructor.
Qed.

Lemma chain_of_codecs σ fs es :
  Forall2 (field_codec σ) fs es → forallb (bound σ) fs = true →
  ∀ σ', forallb (bound σ') fs = true →
  decode_chain (item <$> fs) es σ' (foldl (λ s f, written σ f s) σ' fs).
Proof.
  induction 1 as [|f e fs es (_ & Hd & _) _ IH]; cbn [forallb];
    intros Hb σ' Hb'.
  - constructor.
  - apply andb_prop in Hb as [Hb Hbs]. apply andb_prop in Hb' as [Hb' Hbs'].
    cbn [fmap list_fmap foldl]. econstructor; [by apply Hd|].
    apply IH; [done|]. by apply forallb_bound_written.
Qed.

Lemma lookup_foldl_written_keep σ fs q : ∀ σ',
  σ' !! q = σ !! q →
  foldl (λ s f, written σ f s) σ' fs !! q = σ !! q.
Proof.
  induction fs as [|f fs IH]; intros σ' H; cbn [foldl]; [done|].
  apply IH. destruct f as [n|k p]; [done|]. cbn [written].
  destruct (σ !! p) as [x|] eqn:Hp; [|done].
  destruct (decide (p = q)) as [->|Hne].
  - by rewrite lookup_insert_eq.
  - by rewrite lookup_insert_ne.
Qed.

Lemma lookup_foldl_written σ fs : ∀ σ',
  forallb (bound σ) fs = true →
  (∀ k v, FItem k v ∈ fs →
     foldl (λ s f, written σ f s) σ' fs !! v = σ !! v) ∧
  (∀ q, (∀ k, FItem k q ∉ fs) →
     foldl (λ s f, written σ f s) σ' fs !! q = σ' !! q).
Proof.
  induction fs as [|f fs IH]; intros σ' Hb; cbn [foldl forallb] in *.
  - split; [intros k v Hin; by apply elem_of_nil in Hin | done].
  - apply andb_prop in Hb as [Hb Hbs].
    destruct (IH (written σ f σ') Hbs) as [IH1 IH2]. split.
    + intros k v [<-|Hin]%elem_of_cons; [|by eapply IH1].
      apply lookup_foldl_written_keep. cbn [written].
      apply bound_item in Hb as (x & -> & _). by rewrite lookup_insert_eq.
    + intros q Hq. rewrite IH2.
      * destruct f as [n|k p]; [done|]. cbn [written].
        destruct (σ !! p); [|done]. apply lookup_insert_ne.
        intros ->. apply (Hq k). by left.
      * intros k Hin. apply (Hq k). by right.
Qed.

(** ** Sizes within the limits *)

Lemma int_small z : - 2 ^ 63 ≤ z < 2 ^ 63 → int z = z.
Proof. intros H. unfold int. rewrite Z.mod_small; lia. Qed.

(** While the sizes, none negative, sum up to at most [maxAlloc], the
    64-bit sum of the program is their sum. *)
Lemma totalSize_int_sum ns :
  Forall (λ n, 0 ≤ n) ns → sum_sizes ns ≤ maxAlloc →
  totalSize_int ns = sum_sizes ns.
Proof.
  unfold totalSize_int.
  assert (∀ acc, 0 ≤ acc → Forall (λ n, 0 ≤ n) ns →
            acc + sum_sizes ns ≤ maxAlloc →
            foldl (λ t n, int (t + n)) acc ns = acc + sum_sizes ns) as H.
  { induction ns as [|n ns IH]; cbn [foldl sum_sizes foldr];
      intros acc Hacc Hns Hle.
    - lia.
    - apply Forall_cons in Hns as [Hn Hns]. fold (sum_sizes ns) in *.
      assert (0 ≤ sum_sizes ns) as Hsum.
      { clear -Hns. induction Hns; cbn [sum_sizes foldr]; [lia|].
        fold (sum_sizes l). lia. }
      unfold maxAlloc in Hle. change (2 ^ 48) with 281474976710656 in Hle.
      rewrite int_small
        by (change (2 ^ 63) with 9223372036854775808; lia).
      rewrite IH; [lia | lia | done | unfold maxAlloc;
        change (2 ^ 48) with 281474976710656; lia]. }
  intros Hns Hle. by rewrite H.
Qed.

Lemma sizes_of_codecs σ fs es ns :
  Forall2 (field_codec σ) fs es →
  Forall2 (λ f n, Size (item f) σ = (Some n, σ)) fs ns →
  ns = len <$> es.
Proof.
  intros Hes. revert ns.
  induction Hes as [|f e fs es ((HS & _) & _) _ IH]; intros ns Hns.
  - by inversion Hns.
  - inversion Hns as [|? n ? ns' Hn Hns']; subst.
    rewrite HS in Hn. injection Hn as <-. cbn [fmap list_fmap].
    f_equal. by apply IH.
Qed.

Lemma sum_sizes_len es : sum_sizes (len <$> es) = len (concat es).
Proof.
  induction es as [|e es IH]; [done|].
  cbn [fmap list_fmap sum_sizes foldr concat]. fold (sum_sizes (len <$> es)).
  by rewrite len_app, IH.
Qed.

(** The buffer of a sequence of sound fields whose sizes stay within the
    limits has the length that the program computes in [int], and [make]
    accepts it. *)
Lemma sequence_fits σ fs es ns :
  Forall2 (field_codec σ) fs es →
  Forall2 (λ f n, Size (item f) σ = (Some n, σ)) fs ns →
  sum_sizes ns ≤ maxAlloc →
  totalSize_int ns = len (concat es) ∧ len (concat es) ≤ maxAlloc.
Proof.
  intros Hes Hns Hle. rewrite (sizes_of_codecs _ _ _ _ Hes Hns) in *.
  rewrite totalSize_int_sum, sum_sizes_len; [| |done].
  - split; [done|]. by rewrite <- sum_sizes_len.
  - apply Forall_fmap, Forall_forall. intros e _. apply len_nonneg.
Qed.

(** X3. Any sequence built from [Padding] (of a size that is not
    negative), [Byte], [Bool], [BigEndianUint16/32/64], [Uvarint32/64],
    [OrdUvarint64], [Bytes16] and [Bytes32] whose sizes [ns] sum up to at
    most [maxAlloc] round-trips. When the variables hold values of their
    types, [Encoding.Encode] returns a buffer and leaves the store; the
    length of the buffer is the sum that the program computes in [int],
    and [make] accepts it. [Encoding.Decode] of that buffer, followed by
    any bytes, into variables of the same types returns no error;
    afterwards every variable of the sequence holds the value that was
    encoded, and every other variable is as it was. *)
Theorem sequence_roundtrip
    (fs : list field) (ns : list Z) (σ σ' : gmap loc val) :
  forallb sound fs = true →
  forallb (bound σ) fs = true →
  forallb (bound σ') fs = true →
  Forall2 (λ f n, Size (item f) σ = (Some n, σ)) fs ns →
  sum_sizes ns ≤ maxAlloc →
  ∃ b σ'',
    Encoding_Encode (New (item <$> fs)) σ = (Some b, σ) ∧
    totalSize_int ns = len b ∧ len b ≤ maxAlloc ∧
    (∀ rest,
       Encoding_Decode (New (item <$> fs)) (b ++ rest) σ'
       = (Some err_nil, σ'')) ∧
    (∀ k v, FItem k v ∈ fs → σ'' !! v = σ !! v) ∧
    (∀ q, (∀ k, FItem k q ∉ fs) → σ'' !! q = σ' !! q).
Proof.
  intros Hs Hb Hb' Hns Hle. destruct (sequence_codec σ fs Hs Hb) as [es Hes].
  destruct (sequence_fits σ fs es ns Hes Hns Hle) as [Hint Hfit].
  exists (concat es), (foldl (λ s f, written σ f s) σ' fs).
  split; [|split; [exact Hint|split; [exact Hfit|split]]].
  - by apply Encoding_Encode_of_encodes, encodes_of_codecs.
  - intros rest. by apply Encoding_Decode_of_chain, chain_of_codecs.
  - by apply lookup_foldl_written.
Qed.

(** ** [Decode] does not panic *)

Lemma idx_is_Some buf i : 0 ≤ i < len buf → is_Some (idx buf i).
Proof.
  intros H. rewrite idx_run by lia. apply lookup_lt_is_Some.
  unfold len in H. lia.
Qed.

Lemma shl_nonneg w x s : 0 ≤ w → 0 ≤ shl w x s.
Proof.
  intros Hw. unfold shl. destruct (w <=? s); [done|].
  apply Z.mod_pos_bound. apply Z.pow_pos_nonneg; lia.
Qed.

Lemma Uvarint_loop_bounds bs : ∀ i x s l n,
  Uvarint_loop bs i x s = (l, n) → 0 ≤ x → 0 ≤ i →
  0 ≤ l ∧ n ≤ i + len bs.
Proof.
  induction bs as [|b bs IH]; intros i x s l n H Hx Hi;
    cbn [Uvarint_loop] in H.
  - injection H as <- <-. unfold len. simpl. lia.
  - rewrite len_cons. pose proof (len_nonneg bs).
    destruct (i =? MaxVarintLen64); [injection H as <- <-; lia|].
    destruct (b <? 0x80).
    + destruct ((i =? MaxVarintLen64 - 1) && (1 <? b));
        injection H as <- <-; [lia|].
      split; [|lia]. apply Z.lor_nonneg. split; [done | by apply shl_nonneg].
    + apply IH in H; [lia | | lia].
      apply Z.lor_nonneg. split; [done | by apply shl_nonneg].
Qed.

Lemma Uvarint_bounds buf l n : Uvarint buf = (l, n) → 0 ≤ l ∧ n ≤ len buf.
Proof.
  intros H. unfold Uvarint in H.
  apply Uvarint_loop_bounds in H; lia.
Qed.

Lemma slice_from_run (buf : list Z) n :
  0 ≤ n ≤ len buf → slice_from buf n = Some (drop (Z.to_nat n) buf).
Proof.
  intros H. unfold slice_from. fold (len buf).
  destruct (Z.leb_spec 0 n), (Z.leb_spec n (len buf)); try lia. done.
Qed.

Lemma slice_to_run (buf : list Z) n :
  0 ≤ n ≤ len buf → slice_to buf n = Some (take (Z.to_nat n) buf).
Proof.
  intros H. unfold slice_to. fold (len buf).
  destruct (Z.leb_spec 0 n), (Z.leb_spec n (len buf)); try lia. done.
Qed.

Lemma Uint16_is_Some buf : 2 ≤ len buf → is_Some (Uint16 buf).
Proof.
  intros H. destruct buf as [|b0 [|b1 r]];
    try (unfold len in H; simpl in H; lia). by eexists.
Qed.

Lemma Uint32_is_Some buf : 4 ≤ len buf → is_Some (Uint32 buf).
Proof.
  intros H. destruct buf as [|b0 [|b1 [|b2 [|b3 r]]]];
    try (unfold len in H; simpl in H; lia). by eexists.
Qed.

Lemma Uint64_is_Some buf : 8 ≤ len buf → is_Some (Uint64 buf).
Proof.
  intros H.
  destruct buf as [|b0 [|b1 [|b2 [|b3 [|b4 [|b5 [|b6 [|b7 r]]]]]]]];
    try (unfold len in H; simpl in H; lia). by eexists.
Qed.

Lemma for_each_Decode_body_is_Some buf rBytes : ∀ (m : nat) i acc,
  0 ≤ i → i + Z.of_nat m ≤ len buf →
  is_Some (for_each (ordUvarint64.Decode_body buf rBytes)
             (seqZ i (Z.of_nat m)) acc).
Proof.
  induction m as [|m IH]; intros i acc Hi Hle.
  - by eexists.
  - rewrite seqZ_cons by lia. cbn [for_each].
    destruct (idx_is_Some buf i ltac:(lia)) as [b Hb].
    assert (ordUvarint64.Decode_body buf rBytes i acc
            = Some (Z.lor acc (shl 64 b (uint (rBytes * 8 - i * 8 - 8)))))
      as -> by (unfold ordUvarint64.Decode_body; by rewrite Hb).
    cbn [mbind option_bind].
    replace (Z.pred (Z.of_nat (S m))) with (Z.of_nat m) by lia.
    apply IH; lia.
Qed.

Lemma for_range_Decode_body_is_Some buf rBytes n :
  n ≤ len buf → is_Some (for_range n (ordUvarint64.Decode_body buf rBytes) 0).
Proof.
  intros H. unfold for_range. destruct (Z.le_gt_cases n 0).
  - rewrite seqZ_nil by done. by eexists.
  - replace n with (Z.of_nat (Z.to_nat n)) at 1 by lia.
    apply for_each_Decode_body_is_Some; lia.
Qed.

Lemma typed_is_Some σ k p :
  bound σ (FItem k p) = true → is_Some (σ !! p).
Proof. intros (x & -> & _)%bound_item. by eexists. Qed.

Lemma Decode_returns k p buf σ :
  bound σ (FItem k p) = true →
  ∃ e w σ', Decode (item (FItem k p)) buf σ = (Some (e, w), σ').
Proof.
  intros Hb. pose proof (typed_is_Some _ _ _ Hb) as Hp.
  pose proof (len_nonneg buf) as Hlen.
  destruct k; cbn [item Decode Byte Bool BigEndianUint16 BigEndianUint32
      BigEndianUint64 Uvarint32 Uvarint64 OrdUvarint64 LengthDelimBytes
      LengthDelimString Bytes16 Bytes32];
    unfold encByte.Decode, encBool.Decode, bigEndianUint16.Decode,
      bigEndianUint32.Decode, bigEndianUint64.Decode, uvarint32.Decode,
      uvarint64.Decode, ordUvarint64.Decode, lengthDelimBytes.Decode,
      lengthDelimString.Decode, bytes16.Decode, bytes32.Decode.
  - destruct (Z.ltb_spec (len buf) 1); [by eexists _, _, _|].
    destruct (idx_is_Some buf 0 ltac:(lia)) as [b Hb0].
    erewrite bind_run; [|by rewrite lift_run, Hb0].
    erewrite bind_run; [|by apply assign_run]. by eexists _, _, _.
  - destruct (Z.ltb_spec (len buf) 1); [by eexists _, _, _|].
    destruct (idx_is_Some buf 0 ltac:(lia)) as [b Hb0].
    erewrite bind_run; [|by rewrite lift_run, Hb0].
    erewrite bind_run; [|by apply assign_run]. by eexists _, _, _.
  - destruct (Z.ltb_spec (len buf) 2); [by eexists _, _, _|].
    destruct (Uint16_is_Some buf ltac:(lia)) as [x Hx].
    erewrite bind_run; [|by rewrite lift_run, Hx].
    erewrite bind_run; [|by apply assign_run]. by eexists _, _, _.
  - destruct (Z.ltb_spec (len buf) 4); [by eexists _, _, _|].
    destruct (Uint32_is_Some buf ltac:(lia)) as [x Hx].
    erewrite bind_run; [|by rewrite lift_run, Hx].
    erewrite bind_run; [|by apply assign_run]. by eexists _, _, _.
  - destruct (Z.ltb_spec (len buf) 8); [by eexists _, _, _|].
    destruct (Uint64_is_Some buf ltac:(lia)) as [x Hx].
    erewrite bind_run; [|by rewrite lift_run, Hx].
    erewrite bind_run; [|by apply assign_run]. by eexists _, _, _.
  - destruct (Uvarint buf) as [l n].
    destruct (n =? 0); [by eexists _, _, _|].
    destruct (n <? 0); [by eexists _, _, _|].
    destruct (math_MaxUint32 <? n); [by eexists _, _, _|].
    erewrite bind_run; [|by apply assign_run]. by eexists _, _, _.
  - destruct (Uvarint buf) as [l n].
    destruct (n =? 0); [by eexists _, _, _|].
    destruct (n <? 0); [by eexists _, _, _|].
    erewrite bind_run; [|by apply assign_run]. by eexists _, _, _.
  - destruct (Z.ltb_spec (len buf) 1); [by eexists _, _, _|].
    destruct (idx_is_Some buf 0 ltac:(lia)) as [b0 Hb0].
    erewrite bind_run; [|by rewrite lift_run, Hb0]. cbv zeta.
    destruct (_ =? 63).
    + destruct (Z.ltb_spec (len buf) 9); [by eexists _, _, _|].
      erewrite bind_run; [|by rewrite lift_run, slice_from_run by lia].
      destruct (Uint64_is_Some (drop (Z.to_nat 1) buf)) as [x Hx].
      { unfold len in *. rewrite length_drop. lia. }
      erewrite bind_run; [|by rewrite lift_run, Hx].
      erewrite bind_run; [|by apply assign_run]. by eexists _, _, _.
    + destruct (Z.ltb_spec (len buf) (bits_LeadingZeros8 (not8 b0) + 1));
        [by eexists _, _, _|].
      edestruct for_range_Decode_body_is_Some as [r Hr]; [eassumption|].
      erewrite bind_run; [|by rewrite lift_run, Hr].
      erewrite bind_run; [|by apply assign_run]. by eexists _, _, _.
  - destruct (Uvarint buf) as [l n] eqn:HU.
    apply Uvarint_bounds in HU as [Hl Hn].
    destruct (Z.eqb_spec n 0); [by eexists _, _, _|].
    destruct (Z.ltb_spec n 0); [by eexists _, _, _|].
    erewrite bind_run; [|by rewrite lift_run, slice_from_run by lia].
    destruct (_ <? l); [by eexists _, _, _|].
    assert (make l = Some (replicate (Z.to_nat l) 0)) as Hm.
    { unfold make. destruct (Z.ltb_spec l 0); [lia | done]. }
    erewrite bind_run; [|by rewrite lift_run, Hm].
    erewrite bind_run; [|by apply assign_run]. by eexists _, _, _.
  - destruct (Uvarint buf) as [l n] eqn:HU.
    apply Uvarint_bounds in HU as [Hl Hn].
    destruct (Z.eqb_spec n 0); [by eexists _, _, _|].
    destruct (Z.ltb_spec n 0); [by eexists _, _, _|].
    erewrite bind_run; [|by rewrite lift_run, slice_from_run by lia].
    destruct (_ <? l); [by eexists _, _, _|].
    erewrite bind_run; [|by apply assign_run]. by eexists _, _, _.
  - destruct (Z.ltb_spec (len buf) 16); [by eexists _, _, _|].
    apply bound_item in Hb as (x & Hx & Hty).
    destruct x; try discriminate.
    erewrite bind_run; [|by eapply load_run].
    erewrite bind_run; [|by rewrite lift_run, slice_to_run by lia].
    erewrite bind_run; [|by apply assign_run]. by eexists _, _, _.
  - destruct (Z.ltb_spec (len buf) 32); [by eexists _, _, _|].
    apply bound_item in Hb as (x & Hx & Hty).
    destruct x; try discriminate.
    erewrite bind_run; [|by eapply load_run].
    erewrite bind_run; [|by rewrite lift_run, slice_to_run by lia].
    erewrite bind_run; [|by apply assign_run]. by eexists _, _, _.
Qed.

(** ** A truncated sequence *)

Lemma Decode_loop_truncated σ fs es :
  Forall2 (field_codec σ) fs es → forallb (bound σ) fs = true →
  ∀ σ' pre (k : nat), forallb (bound σ') fs = true →
  (k < length (concat es))%nat →
  ∃ r σ'', Decode_loop (item <$> fs) (pre ++ take k (concat es)) (len pre) σ'
           = (Some (io_ErrUnexpectedEOF, r), σ'').
Proof.
  induction 1 as [|f e fs es (_ & Hd & Ht) _ IH]; cbn [forallb];
    intros Hb σ' pre k Hb' Hk.
  - cbn in Hk. lia.
  - apply andb_prop in Hb as [Hb Hbs]. apply andb_prop in Hb' as [Hb' Hbs'].
    cbn [fmap list_fmap Decode_loop concat] in *.
    pose proof (len_nonneg pre).
    assert (Z.to_nat (len pre) = length pre) as Hpre by (unfold len; lia).
    destruct (decide (k < length e)%nat) as [Hlt|Hge].
    + rewrite take_app_le by lia.
      erewrite bind_run;
        [|rewrite lift_run, slice_from_run, Hpre, drop_app_length;
          [done | rewrite len_app; pose proof (len_nonneg (take k e)); lia]].
      rewrite (bind_run _ _ _ _ _ (Ht k σ' Hlt)). cbn [fst snd].
      rewrite ret_run. by eexists _, _.
    + rewrite take_app_ge by lia.
      set (t := take (k - length e) (concat es)).
      destruct (Hd σ' Hb' t) as [HDec HS].
      erewrite bind_run;
        [|rewrite lift_run, slice_from_run, Hpre, drop_app_length;
          [done | rewrite len_app; pose proof (len_nonneg (e ++ t)); lia]].
      rewrite (bind_run _ _ _ _ _ HDec). cbn [fst snd].
      rewrite (bind_run _ _ _ _ _ HS).
      assert (splice (pre ++ e ++ t) (len pre) (e ++ t) = (pre ++ e) ++ t)
        as ->.
      { unfold splice. rewrite Hpre, take_app_length.
        rewrite drop_ge by (rewrite length_app; lia).
        by rewrite app_nil_r, app_assoc. }
      rewrite <- len_app. subst t. apply IH; [done | |].
      * by apply forallb_bound_written.
      * rewrite length_app in Hk. lia.
Qed.

(** ** What the length-delimited decoders store *)

Lemma u64_le x : 0 ≤ x → u64 x ≤ x.
Proof. intros H. unfold u64. apply Z.mod_le; lia. Qed.

Lemma lengthDelimBytes_Decode_nil p buf σ w σ' :
  Decode (LengthDelimBytes p) buf σ = (Some (err_nil, w), σ') →
  ∃ l n, Uvarint buf = (l, n) ∧ 0 < n ≤ len buf ∧ 0 ≤ l ≤ len buf - n ∧
         σ' = <[p := VBytes (replicate (Z.to_nat l) 0)]> σ ∧
         w = take (Z.to_nat n) buf ++ replicate (Z.to_nat l) 0
               ++ drop (Z.to_nat (n + l)) buf.
Proof.
  intros H. cbn [Decode LengthDelimBytes] in H.
  unfold lengthDelimBytes.Decode in H.
  destruct (Uvarint buf) as [l n] eqn:HU.
  pose proof (Uvarint_bounds _ _ _ HU) as [Hl Hn].
  destruct (Z.eqb_spec n 0); [by apply ret_inv in H as [[=] _]|].
  destruct (Z.ltb_spec n 0); [by apply ret_inv in H as [[=] _]|].
  apply bind_inv in H as (t & σ1 & E1 & H).
  apply lift_inv in E1 as [E1 ->]. rewrite slice_from_run in E1 by lia.
  injection E1 as <-.
  assert (len (drop (Z.to_nat n) buf) = len buf - n) as Hld
    by (unfold len in *; rewrite length_drop; lia).
  rewrite Hld in H.
  destruct (Z.ltb_spec (u64 (len buf - n)) l);
    [by apply ret_inv in H as [[=] _]|].
  pose proof (u64_le (len buf - n) ltac:(lia)).
  apply bind_inv in H as (bs & σ2 & E2 & H).
  apply lift_inv in E2 as [E2 ->]. unfold make in E2.
  destruct (Z.ltb_spec l 0); [lia|]. injection E2 as <-.
  apply bind_inv in H as ([] & σ3 & E3 & H).
  unfold assign in E3. destruct (σ !! p); [|discriminate].
  injection E3 as <-. apply ret_inv in H as [[= <-] <-].
  exists l, n. split; [done|]. split; [lia|]. split; [lia|]. split; [done|].
  set (t := drop (Z.to_nat n) buf). set (bs := replicate (Z.to_nat l) 0).
  assert (length bs = Z.to_nat l) as Hbs by apply length_replicate.
  assert (length t = (length buf - Z.to_nat n)%nat) as Ht
    by apply length_drop.
  assert (copy t bs = bs ++ drop (Z.to_nat l) t) as ->.
  { unfold copy. rewrite Hbs, take_ge; [done|]. unfold len in *. lia. }
  unfold splice.
  assert (drop (Z.to_nat n + length (bs ++ drop (Z.to_nat l) t)) buf = [])
    as ->.
  { apply drop_ge. rewrite length_app, length_drop. unfold len in *. lia. }
  assert (drop (Z.to_nat l) t = drop (Z.to_nat (n + l)) buf) as ->.
  { subst t. rewrite drop_drop. f_equal. lia. }
  by rewrite app_nil_r.
Qed.

Lemma lengthDelimString_Decode_nil p buf σ w σ' :
  Decode (LengthDelimString p) buf σ = (Some (err_nil, w), σ') →
  ∃ l n, Uvarint buf = (l, n) ∧ 0 < n ≤ len buf ∧ 0 ≤ l ≤ len buf - n ∧
         σ' = <[p := VString (drop (Z.to_nat n) buf)]> σ ∧ w = buf.
Proof.
  intros H. cbn [Decode LengthDelimString] in H.
  unfold lengthDelimString.Decode in H.
  destruct (Uvarint buf) as [l n] eqn:HU.
  pose proof (Uvarint_bounds _ _ _ HU) as [Hl Hn].
  destruct (Z.eqb_spec n 0); [by apply ret_inv in H as [[=] _]|].
  destruct (Z.ltb_spec n 0); [by apply ret_inv in H as [[=] _]|].
  apply bind_inv in H as (t & σ1 & E1 & H).
  apply lift_inv in E1 as [E1 ->]. rewrite slice_from_run in E1 by lia.
  injection E1 as <-.
  assert (len (drop (Z.to_nat n) buf) = len buf - n) as Hld
    by (unfold len in *; rewrite length_drop; lia).
  rewrite Hld in H.
  destruct (Z.ltb_spec (u64 (len buf - n)) l);
    [by apply ret_inv in H as [[=] _]|].
  pose proof (u64_le (len buf - n) ltac:(lia)).
  apply bind_inv in H as ([] & σ3 & E3 & H).
  unfold assign in E3. destruct (σ !! p); [|discriminate].
  injection E3 as <-. apply ret_inv in H as [[= <-] <-].
  exists l, n. split; [done|]. split; [lia|]. split; [lia|]. done.
Qed.

(** ** The sizes of the conventional varints *)

Lemma PutUvarint_loop_size fuel : ∀ b x i b' n,
  PutUvarint_loop fuel b x i = Some (b', n) → 0 ≤ x → 0 ≤ i →
  x < 2 ^ (7 * (n - i)) ∧ (n = i + 1 ∨ 2 ^ (7 * (n - i - 1)) ≤ x).
Proof.
  induction fuel as [|fuel IH]; intros b x i b' n H Hx Hi;
    cbn [PutUvarint_loop] in H; [discriminate|].
  destruct (Z.leb_spec 0x80 x) as [Hge|Hlt].
  - destruct (upd b i _) as [b1|] eqn:E; cbn [mbind option_bind] in H;
      [|discriminate].
    pose proof (PutUvarint_loop_prefix _ _ _ _ _ _ H ltac:(lia))
      as (_ & Hn & _).
    rewrite shr_small in H by lia. change (2 ^ 7) with 128 in H.
    apply IH in H as [Hhi Hlo]; [| apply Z.div_pos; lia | lia].
    replace (n - (i + 1)) with (n - i - 1) in * by lia.
    assert (2 ^ (7 * (n - i)) = 128 * 2 ^ (7 * (n - i - 1))) as ->.
    { replace (7 * (n - i)) with (7 + 7 * (n - i - 1)) by lia.
      by rewrite Z.pow_add_r by lia. }
    pose proof (Z.div_mod x 128 ltac:(lia)).
    pose proof (Z.mod_pos_bound x 128 ltac:(lia)).
    split; [lia|]. right. destruct Hlo as [->|Hlo].
    + replace (i + 1 + 1 - i - 1) with 1 by lia. change (2 ^ (7 * 1)) with 128.
      lia.
    + assert (2 ^ (7 * (n - i - 1)) = 128 * 2 ^ (7 * (n - i - 1 - 1))) as ->.
      { replace (7 * (n - i - 1)) with (7 + 7 * (n - i - 1 - 1)) by lia.
        by rewrite Z.pow_add_r by lia. }
      lia.
  - destruct (upd b i _) as [b1|] eqn:E; cbn [mbind option_bind] in H;
      [|discriminate].
    injection H as <- <-. replace (i + 1 - i) with 1 by lia.
    change (2 ^ (7 * 1)) with 128. split; [lia | by left].
Qed.

Lemma uvarintSize_bounds x :
  0 ≤ x < 2 ^ 64 →
  ∃ n, uvarintSize x = Some n ∧ 1 ≤ n ≤ 10 ∧
       x < 2 ^ (7 * n) ∧ (n = 1 ∨ 2 ^ (7 * (n - 1)) ≤ x).
Proof.
  intros Hx. destruct (uvarintSize_Some x Hx) as (n & HS & Hn).
  exists n. split; [done|]. split; [done|].
  unfold uvarintSize in HS.
  change (make MaxVarintLen64) with (Some (replicate 10%nat 0)) in HS.
  cbn [mbind option_bind] in HS.
  destruct (PutUvarint (replicate 10 0) x) as [[b n']|] eqn:HP;
    [|discriminate].
  cbn in HS. injection HS as ->.
  apply PutUvarint_loop_size in HP; [|lia..].
  by rewrite !Z.sub_0_r in HP.
Qed.

Lemma testbit_high a k n : 0 ≤ a < 2 ^ k → 0 ≤ k ≤ n → Z.testbit a n = false.
Proof.
  intros Ha Hk. destruct (Z.eq_dec a 0) as [->|]; [apply Z.bits_0|].
  apply Z.bits_above_log2; [lia|].
  apply Z.lt_le_trans with k; [|lia]. apply Z.log2_lt_pow2; lia.
Qed.

Lemma lxor_ones_64 a : 0 ≤ a < 2 ^ 64 → Z.lxor a (2 ^ 64 - 1) = 2 ^ 64 - 1 - a.
Proof.
  intros Ha. change (2 ^ 64 - 1) with (Z.ones 64).
  assert (Z.land (Z.lxor a (Z.ones 64)) a = 0) as Hland.
  { apply Z.bits_inj'. intros n Hn.
    rewrite Z.land_spec, Z.lxor_spec, Z.bits_0.
    destruct (Z.lt_ge_cases n 64).
    - rewrite Z.ones_spec_low by lia. by destruct (Z.testbit a n).
    - rewrite (testbit_high a 64 n) by lia. apply andb_false_r. }
  apply Z.add_nocarry_lxor in Hland.
  rewrite (Z.lxor_comm a), Z.lxor_assoc, Z.lxor_nilpotent, Z.lxor_0_r
    in Hland.
  rewrite (Z.lxor_comm a). lia.
Qed.

Lemma zigzag x :
  - 2 ^ 63 ≤ x < 2 ^ 63 →
  (if x <? 0 then Z.lxor (shl 64 (u64 x) 1) (2 ^ 64 - 1)
   else shl 64 (u64 x) 1)
  = if x <? 0 then - 2 * x - 1 else 2 * x.
Proof.
  intros Hx. change (2 ^ 63) with 9223372036854775808 in Hx.
  destruct (Z.ltb_spec x 0).
  - assert (u64 x = x + 2 ^ 64) as ->.
    { unfold u64. replace x with (x + 2 ^ 64 + (-1) * 2 ^ 64) at 1 by lia.
      rewrite Z.mod_add by lia. apply Z.mod_small.
      change (2 ^ 64) with 18446744073709551616. lia. }
    assert (shl 64 (x + 2 ^ 64) 1 = 2 * x + 2 ^ 64) as ->.
    { unfold shl. change (64 <=? 1) with false. cbv iota.
      rewrite Z.shiftl_mul_pow2 by lia. change (2 ^ 1) with 2.
      replace ((x + 2 ^ 64) * 2) with (2 * x + 2 ^ 64 + 1 * 2 ^ 64) by lia.
      rewrite Z.mod_add by lia. apply Z.mod_small.
      change (2 ^ 64) with 18446744073709551616. lia. }
    rewrite lxor_ones_64 by (change (2 ^ 64) with 18446744073709551616; lia).
    lia.
  - assert (u64 x = x) as ->.
    { unfold u64. apply Z.mod_small.
      change (2 ^ 64) with 18446744073709551616. lia. }
    rewrite shl_small; change (2 ^ 1) with 2;
      change (2 ^ 64) with 18446744073709551616; lia.
Qed.

(** ** Varints that overflow *)

Lemma Uvarint_loop_skip cs : ∀ tl i x s,
  Forall (λ c, 0x80 ≤ c) cs → 0 ≤ i → i + len cs ≤ 10 →
  ∃ x', Uvarint_loop (cs ++ tl) i x s
        = Uvarint_loop tl (i + len cs) x' (s + 7 * len cs).
Proof.
  induction cs as [|c cs IH]; intros tl i x s Hcs Hi Hle.
  - exists x. cbn [app]. change (len []) with 0. by rewrite !Z.add_0_r.
  - apply Forall_cons in Hcs as [Hc Hcs]. rewrite len_cons in *.
    pose proof (len_nonneg cs). cbn [app Uvarint_loop].
    destruct (Z.eqb_spec i MaxVarintLen64); [unfold MaxVarintLen64 in *; lia|].
    destruct (Z.ltb_spec c 0x80); [lia|].
    destruct (IH tl (i + 1) (Z.lor x (shl 64 (Z.land c 127) s)) (s + 7) Hcs)
      as [x' Hx']; [lia..|].
    exists x'. rewrite Hx'. f_equal; lia.
Qed.

Lemma Uvarint_overflow cs b rest :
  Forall (λ c, 0x80 ≤ c) cs →
  (len cs = 9 ∧ 2 ≤ b < 0x80) ∨ len cs = 10 →
  ∃ n, Uvarint (cs ++ b :: rest) = (0, n) ∧ n < 0.
Proof.
  intros Hcs Hcase. unfold Uvarint.
  destruct (Uvarint_loop_skip cs (b :: rest) 0 0 0 Hcs) as [x' ->];
    [lia.. |].
  destruct Hcase as [[-> Hb]| ->]; cbn [Uvarint_loop].
  - change (0 + 9 =? MaxVarintLen64) with false. cbv iota.
    destruct (Z.ltb_spec b 0x80); [|lia].
    change (0 + 9 =? MaxVarintLen64 - 1) with true.
    destruct (Z.ltb_spec 1 b); [|lia]. cbn [andb]. by eexists.
  - change (0 + 10 =? MaxVarintLen64) with true. cbv iota. by eexists.
Qed.

(** ** The properties *)



(** X2. When the items of a sequence decode the byte strings
    [e_1, ..., e_n] one after the other (each from the front of whatever
    follows it, reporting afterwards the size of what it read),
    [Encoding.Decode] of [e_1 ++ ... ++ e_n], followed by any bytes,
    returns no error and the store the last item left. This holds for any
    implementation of [Item]. *)
Theorem Encoding_Decode_chain
    (its : list Item) (es : list (list Z)) (σ σ' : gmap loc val)
    (rest : list Z) :
  decode_chain its es σ σ' →
  Encoding_Decode (New its) (concat es ++ rest) σ = (Some err_nil, σ').
Proof. apply Encoding_Decode_of_chain. Qed.

Lemma Encoding_Decode_chain_witness :
  Encoding_Decode (New [Byte 1%positive]) (concat [[7]] ++ [9; 9])
    ({[ 1%positive := VByte 0 ]} : gmap loc val)
  = (Some err_nil, <[ 1%positive := VByte 7 ]> {[ 1%positive := VByte 0 ]}).
Proof.
  apply (Encoding_Decode_chain [Byte 1%positive] [[7]]).
  econstructor; [|constructor].
  exact (proj1 (proj2 (Byte_codec {[ 1%positive := VByte 7 ]} 1%positive 7
                         eq_refl)) {[ 1%positive := VByte 0 ]} eq_refl).
Defined.

Lemma sequence_roundtrip_witness :
  ∃ b σ'',
    Encoding_Encode
      (New (item <$> [FItem KBigEndianUint16 1%positive; FPadding 2;
                      FItem KOrdUvarint64 2%positive; FItem KBool 3%positive]))
      {[ 1%positive := VUint16 258; 2%positive := VUint64 300;
         3%positive := VBool true ]}
    = (Some b, {[ 1%positive := VUint16 258; 2%positive := VUint64 300;
                  3%positive := VBool true ]}) ∧
    totalSize_int [2; 2; 2; 1] = len b ∧ len b ≤ maxAlloc ∧
    (∀ rest,
       Encoding_Decode
         (New (item <$> [FItem KBigEndianUint16 1%positive; FPadding 2;
                         FItem KOrdUvarint64 2%positive;
                         FItem KBool 3%positive]))
         (b ++ rest)
         {[ 1%positive := VUint16 0; 2%positive := VUint64 0;
            3%positive := VBool false; 4%positive := VByte 5 ]}
       = (Some err_nil, σ'')) ∧
    (∀ k v,
       FItem k v ∈ [FItem KBigEndianUint16 1%positive; FPadding 2;
                    FItem KOrdUvarint64 2%positive; FItem KBool 3%positive] →
       σ'' !! v
       = ({[ 1%positive := VUint16 258; 2%positive := VUint64 300;
             3%positive := VBool true ]} : gmap loc val) !! v) ∧
    (∀ q,
       (∀ k,
          FItem k q ∉ [FItem KBigEndianUint16 1%positive; FPadding 2;
                       FItem KOrdUvarint64 2%positive;
                       FItem KBool 3%positive]) →
       σ'' !! q
       = ({[ 1%positive := VUint16 0; 2%positive := VUint64 0;
             3%positive := VBool false; 4%positive := VByte 5 ]}
          : gmap loc val) !! q).
Proof.
  apply (sequence_roundtrip
           [FItem KBigEndianUint16 1%positive; FPadding 2;
            FItem KOrdUvarint64 2%positive; FItem KBool 3%positive]
           [2; 2; 2; 1]).
  - reflexivity.
  - reflexivity.
  - reflexivity.
  - repeat (constructor; [reflexivity|]). constructor.
  - vm_compute. discriminate.
Defined.

(** X4. For any sequence of the same kinds whose sizes [ns] sum up to at
    most [maxAlloc], every strict prefix of the buffer that
    [Encoding.Encode] returns makes [Encoding.Decode] return
    [io.ErrUnexpectedEOF]. The length of the buffer is the sum that the
    program computes in [int], and [make] accepts it. *)
Theorem sequence_truncated
    (fs : list field) (ns : list Z) (σ σ' : gmap loc val) :
  forallb sound fs = true →
  forallb (bound σ) fs = true →
  forallb (bound σ') fs = true →
  Forall2 (λ f n, Size (item f) σ = (Some n, σ)) fs ns →
  sum_sizes ns ≤ maxAlloc →
  ∃ b,
    Encoding_Encode (New (item <$> fs)) σ = (Some b, σ) ∧
    totalSize_int ns = len b ∧ len b ≤ maxAlloc ∧
    ∀ k : nat, (k < length b)%nat →
      ∃ σ'', Encoding_Decode (New (item <$> fs)) (take k b) σ'
             = (Some io_ErrUnexpectedEOF, σ'').
Proof.
  intros Hs Hb Hb' Hns Hle. destruct (sequence_codec σ fs Hs Hb) as [es Hes].
  destruct (sequence_fits σ fs es ns Hes Hns Hle) as [Hint Hfit].
  exists (concat es). split; [|split; [exact Hint|split; [exact Hfit|]]].
  - by apply Encoding_Encode_of_encodes, encodes_of_codecs.
  - intros k Hk.
    destruct (Decode_loop_truncated σ fs es Hes Hb σ' [] k Hb' Hk)
      as (r & σ'' & Hloop).
    exists σ''. unfold Encoding_Decode, New. cbn [items].
    cbn [app] in Hloop. change (len []) with 0 in Hloop.
    by rewrite (bind_run _ _ _ _ _ Hloop).
Qed.

Lemma sequence_truncated_witness :
  ∃ b,
    Encoding_Encode
      (New (item <$> [FItem KUvarint64 1%positive; FPadding 3;
                      FItem KBytes16 2%positive]))
      ({[ 1%positive := VUint64 300;
          2%positive := VArray16 (replicate 16 7) ]} : gmap loc val)
    = (Some b, {[ 1%positive := VUint64 300;
                  2%positive := VArray16 (replicate 16 7) ]}) ∧
    totalSize_int [2; 3; 16] = len b ∧ len b ≤ maxAlloc ∧
    ∀ k : nat, (k < length b)%nat →
      ∃ σ'',
        Encoding_Decode
          (New (item <$> [FItem KUvarint64 1%positive; FPadding 3;
                          FItem KBytes16 2%positive]))
          (take k b)
          ({[ 1%positive := VUint64 0;
              2%positive := VArray16 (replicate 16 0) ]} : gmap loc val)
        = (Some io_ErrUnexpectedEOF, σ'').
Proof.
  apply (sequence_truncated
           [FItem KUvarint64 1%positive; FPadding 3;
            FItem KBytes16 2%positive] [2; 3; 16]).
  - reflexivity.
  - reflexivity.
  - reflexivity.
  - repeat (constructor; [reflexivity|]). constructor.
  - vm_compute. discriminate.
Defined.

(** X5. On the layout that the documentation of [LengthDelimBytes] and
    [LengthDelimString] describes (the varint of the length of [v], then
    [v]), both decoders return [io.ErrUnexpectedEOF] for every strict
    prefix and leave the store and the buffer. *)
Theorem LengthDelim_layout_truncated
    (v b0 b : list Z) (n : Z) (k : nat) (p : loc) (σ : gmap loc val) :
  len v < 2 ^ 64 →
  PutUvarint b0 (len v) = Some (b, n) →
  Z.of_nat k < n + len v →
  Decode (LengthDelimBytes p) (take k (take (Z.to_nat n) b ++ v)) σ
  = (Some (io_ErrUnexpectedEOF, take k (take (Z.to_nat n) b ++ v)), σ) ∧
  Decode (LengthDelimString p) (take k (take (Z.to_nat n) b ++ v)) σ
  = (Some (io_ErrUnexpectedEOF, take k (take (Z.to_nat n) b ++ v)), σ).
Proof. intros Hv HP Hk. by apply (LengthDelim_Decode_truncated v b0 b n). Qed.

Lemma LengthDelim_layout_truncated_witness :
  Decode (LengthDelimBytes 1%positive)
    (take 2 (take (Z.to_nat 1) [3; 0] ++ [0x61; 0x62; 0x63]))
    ({[ 1%positive := VBytes [] ]} : gmap loc val)
  = (Some (io_ErrUnexpectedEOF,
           take 2 (take (Z.to_nat 1) [3; 0] ++ [0x61; 0x62; 0x63])),
     {[ 1%positive := VBytes [] ]}) ∧
  Decode (LengthDelimString 1%positive)
    (take 2 (take (Z.to_nat 1) [3; 0] ++ [0x61; 0x62; 0x63]))
    ({[ 1%positive := VBytes [] ]} : gmap loc val)
  = (Some (io_ErrUnexpectedEOF,
           take 2 (take (Z.to_nat 1) [3; 0] ++ [0x61; 0x62; 0x63])),
     {[ 1%positive := VBytes [] ]}).
Proof.
  apply (LengthDelim_layout_truncated [0x61; 0x62; 0x63] [0; 0] [3; 0] 1 2).
  - reflexivity.
  - reflexivity.
  - reflexivity.
Defined.

(** X6. On an empty buffer the [Decode] of every item bound to a variable
    returns [io.ErrUnexpectedEOF] and touches nothing; a padding does so
    exactly when its size is positive. *)
Theorem Decode_empty_buffer (σ : gmap loc val) :
  (∀ k p,
     Decode (item (FItem k p)) [] σ = (Some (io_ErrUnexpectedEOF, []), σ)) ∧
  (∀ n,
     Decode (Padding n) [] σ
     = (Some (if 0 <? n then io_ErrUnexpectedEOF else err_nil, []), σ)).
Proof.
  split.
  - intros k p. by destruct k.
  - intros n. cbn [Decode Padding]. unfold padding.Decode.
    change (len []) with 0. by destruct (0 <? n).
Qed.

(** X7. The [Decode] of an item whose variable exists and has the item's
    type returns on every buffer: it never panics. *)
Theorem Decode_never_panics
    (k : kind) (p : loc) (buf : list Z) (σ : gmap loc val) :
  bound σ (FItem k p) = true →
  ∃ e w σ', Decode (item (FItem k p)) buf σ = (Some (e, w), σ').
Proof. apply Decode_returns. Qed.

Lemma Decode_never_panics_witness :
  ∃ e w σ',
    Decode (item (FItem KLengthDelimBytes 1%positive)) [0xFF; 0xFF; 3]
      ({[ 1%positive := VBytes [] ]} : gmap loc val)
    = (Some (e, w), σ').
Proof.
  apply (Decode_never_panics KLengthDelimBytes 1%positive).
  reflexivity.
Defined.

(** X8. When the [Decode] of an item of the package returns an error, it
    has written neither to the store nor to the buffer. *)
Theorem Decode_error_writes_nothing
    (it : Item) (w w' : list Z) (σ σ' : gmap loc val) (e : error) :
  package_item it →
  Decode it w σ = (Some (e, w'), σ') →
  e ≠ err_nil →
  σ' = σ ∧ w' = w.
Proof. apply package_Decode_error. Qed.

Lemma Decode_error_writes_nothing_witness :
  ({[ 1%positive := VBytes [1] ]} : gmap loc val)
  = {[ 1%positive := VBytes [1] ]} ∧
  [5; 0x61] = [5; 0x61].
Proof.
  apply (Decode_error_writes_nothing (LengthDelimBytes 1%positive)
           [5; 0x61] [5; 0x61] {[ 1%positive := VBytes [1] ]}
           {[ 1%positive := VBytes [1] ]} io_ErrUnexpectedEOF).
  - apply pi_LengthDelimBytes.
  - reflexivity.
  - discriminate.
Defined.

Lemma item_package f : package_item (item f).
Proof. destruct f as [n|k p]; [|destruct k]; constructor. Qed.


(** X10. The size of [OrdUvarint64] lies between 1 and 9 and does not
    decrease when the value grows. *)
Theorem OrdUvarint64_Size_monotone
    (a b : Z) (p q : loc) (σa σb : gmap loc val) :
  0 ≤ a → a ≤ b → b < 2 ^ 64 →
  σa !! p = Some (VUint64 a) →
  σb !! q = Some (VUint64 b) →
  ∃ na nb,
    Size (OrdUvarint64 p) σa = (Some na, σa) ∧
    Size (OrdUvarint64 q) σb = (Some nb, σb) ∧
    1 ≤ na ∧ na ≤ nb ∧ nb ≤ 9.
Proof.
  intros Ha Hab Hb Hp Hq.
  destruct (ordUvarint64_Encoding_Encode a p σa ltac:(lia) Hp)
    as [(Hbiga & HSa & _)|(na & Hna & Hloa & Hhia & HSa & _)];
  destruct (ordUvarint64_Encoding_Encode b q σb ltac:(lia) Hq)
    as [(Hbigb & HSb & _)|(nb & Hnb & Hlob & Hhib & HSb & _)];
  eexists _, _; (split; [exact HSa|]); (split; [exact HSb|]); try lia.
  - assert (2 ^ (7 * nb) ≤ 2 ^ 56) by (apply Z.pow_le_mono_r; lia). lia.
  - split; [lia|]. split; [|lia].
    destruct (Z.le_gt_cases na nb) as [|Hgt]; [done|].
    destruct Hloa as [->|Hloa]; [lia|].
    assert (2 ^ (7 * nb) ≤ 2 ^ (7 * (na - 1))) by (apply Z.pow_le_mono_r; lia).
    lia.
Qed.

Lemma OrdUvarint64_Size_monotone_witness :
  ∃ na nb,
    Size (OrdUvarint64 1%positive) {[ 1%positive := VUint64 127 ]}
    = (Some na, {[ 1%positive := VUint64 127 ]}) ∧
    Size (OrdUvarint64 2%positive) {[ 2%positive := VUint64 (2 ^ 60) ]}
    = (Some nb, {[ 2%positive := VUint64 (2 ^ 60) ]}) ∧
    1 ≤ na ∧ na ≤ nb ∧ nb ≤ 9.
Proof.
  apply (OrdUvarint64_Size_monotone 127 (2 ^ 60) 1%positive 2%positive).
  - lia.
  - lia.
  - lia.
  - reflexivity.
  - reflexivity.
Defined.

Lemma ordUvarint64_Decode_front x p (σ : gmap loc val) e :
  0 ≤ x < 2 ^ 64 → σ !! p = Some (VUint64 x) →
  Encoding_Encode (New [OrdUvarint64 p]) σ = (Some e, σ) →
  ∀ rest, Decode (OrdUvarint64 p) (e ++ rest) σ
          = (Some (err_nil, e ++ rest), <[p := VUint64 x]> σ).
Proof.
  intros Hx Hp HE rest.
  destruct (ordUvarint64_Encoding_Encode x p σ Hx Hp)
    as [(_ & _ & HE')|(n & Hn & _ & Hhi & _ & HE')];
    rewrite HE in HE'; injection HE' as ->.
  - by apply ordUvarint64_Decode_escape_front.
  - apply ordUvarint64_Decode_compact_front; (done || lia).
Qed.

(** X11. No [OrdUvarint64] encoding is a prefix of the encoding of another
    value: if the encoding of [b] starts with the encoding of [a], then
    [a = b]. In particular different values have different encodings. *)
Theorem OrdUvarint64_prefix_free
    (a b : Z) (p : loc) (σa σb : gmap loc val) (ea eb rest : list Z) :
  0 ≤ a < 2 ^ 64 → 0 ≤ b < 2 ^ 64 →
  σa !! p = Some (VUint64 a) →
  σb !! p = Some (VUint64 b) →
  Encoding_Encode (New [OrdUvarint64 p]) σa = (Some ea, σa) →
  Encoding_Encode (New [OrdUvarint64 p]) σb = (Some eb, σb) →
  eb = ea ++ rest →
  a = b.
Proof.
  intros Ha Hb Hp Hq HEa HEb Heq.
  pose proof (ordUvarint64_Decode_front a p σa ea Ha Hp HEa rest) as Da.
  assert (Decode (OrdUvarint64 p) (eb ++ []) σa
          = (Some (err_nil, eb ++ []), <[p := VUint64 b]> σa)) as Db.
  { destruct (ordUvarint64_Encoding_Encode b p σb Hb Hq)
      as [(_ & _ & HE')|(n & Hn & _ & Hhi & _ & HE')];
      rewrite HEb in HE'; injection HE' as ->.
    - apply ordUvarint64_Decode_escape_front; [done | by eexists].
    - apply ordUvarint64_Decode_compact_front; [done | lia | by eexists]. }
  rewrite app_nil_r, Heq, Da in Db.
  injection Db as Db. apply (f_equal (λ m, m !! p)) in Db.
  rewrite !lookup_insert_eq in Db. by injection Db.
Qed.

Lemma OrdUvarint64_prefix_free_witness : 300 = 300.
Proof.
  apply (OrdUvarint64_prefix_free 300 300 1%positive
           {[ 1%positive := VUint64 300 ]} {[ 1%positive := VUint64 300 ]}
           [0x81; 0x2C] [0x81; 0x2C] []).
  - lia.
  - lia.
  - reflexivity.
  - reflexivity.
  - reflexivity.
  - reflexivity.
  - reflexivity.
Defined.

(** X12. When [LengthDelimBytes] decodes without error, with [(l, n)] the
    length and the byte count that [binary.Uvarint] read, the variable
    holds [l] zero bytes and the [l] bytes of the buffer after the varint
    have been overwritten with zeros: [copy(buf[n:], *e.v)] copies from
    the fresh slice into the buffer. *)
Theorem LengthDelimBytes_Decode_stores_zeros
    (p : loc) (buf w : list Z) (σ σ' : gmap loc val) :
  Decode (LengthDelimBytes p) buf σ = (Some (err_nil, w), σ') →
  ∃ l n,
    Uvarint buf = (l, n) ∧ 0 < n ≤ len buf ∧ 0 ≤ l ≤ len buf - n ∧
    σ' = <[p := VBytes (replicate (Z.to_nat l) 0)]> σ ∧
    w = take (Z.to_nat n) buf ++ replicate (Z.to_nat l) 0
          ++ drop (Z.to_nat (n + l)) buf.
Proof. apply lengthDelimBytes_Decode_nil. Qed.

Lemma LengthDelimBytes_Decode_stores_zeros_witness :
  ∃ l n,
    Uvarint [2; 7; 8; 9] = (l, n) ∧ 0 < n ≤ len [2; 7; 8; 9] ∧
    0 ≤ l ≤ len [2; 7; 8; 9] - n ∧
    (<[ 1%positive := VBytes [0; 0] ]> {[ 1%positive := VBytes [] ]}
     : gmap loc val)
    = <[ 1%positive := VBytes (replicate (Z.to_nat l) 0) ]>
        {[ 1%positive := VBytes [] ]} ∧
    [2; 0; 0; 9]
    = take (Z.to_nat n) [2; 7; 8; 9] ++ replicate (Z.to_nat l) 0
        ++ drop (Z.to_nat (n + l)) [2; 7; 8; 9].
Proof.
  apply (LengthDelimBytes_Decode_stores_zeros 1%positive [2; 7; 8; 9]
           [2; 0; 0; 9] {[ 1%positive := VBytes [] ]}).
  reflexivity.
Defined.

(** X13. When [LengthDelimString] decodes without error, with [(l, n)]
    what [binary.Uvarint] read, the variable holds all of [buf[n:]], which
    has at least [l] bytes, and the buffer is untouched. *)
Theorem LengthDelimString_Decode_stores_rest
    (p : loc) (buf w : list Z) (σ σ' : gmap loc val) :
  Decode (LengthDelimString p) buf σ = (Some (err_nil, w), σ') →
  ∃ l n,
    Uvarint buf = (l, n) ∧ 0 < n ≤ len buf ∧ 0 ≤ l ≤ len buf - n ∧
    σ' = <[p := VString (drop (Z.to_nat n) buf)]> σ ∧ w = buf.
Proof. apply lengthDelimString_Decode_nil. Qed.

Lemma LengthDelimString_Decode_stores_rest_witness :
  ∃ l n,
    Uvarint [1; 7; 8; 9] = (l, n) ∧ 0 < n ≤ len [1; 7; 8; 9] ∧
    0 ≤ l ≤ len [1; 7; 8; 9] - n ∧
    (<[ 1%positive := VString [7; 8; 9] ]> {[ 1%positive := VString [] ]}
     : gmap loc val)
    = <[ 1%positive := VString (drop (Z.to_nat n) [1; 7; 8; 9]) ]>
        {[ 1%positive := VString [] ]} ∧
    [1; 7; 8; 9] = [1; 7; 8; 9].
Proof.
  apply (LengthDelimString_Decode_stores_rest 1%positive [1; 7; 8; 9]
           [1; 7; 8; 9] {[ 1%positive := VString [] ]}).
  reflexivity.
Defined.

(** X14. The size of [Uvarint64] follows the table of its documentation:
    it is the [n] between 1 and 10 with [x < 2^(7n)] that is 1 or has
    [2^(7(n-1)) <= x]. *)
Theorem Uvarint64_Size_table (x : Z) (p : loc) (σ : gmap loc val) :
  0 ≤ x < 2 ^ 64 →
  σ !! p = Some (VUint64 x) →
  ∃ n, Size (Uvarint64 p) σ = (Some n, σ) ∧ 1 ≤ n ≤ 10 ∧
       x < 2 ^ (7 * n) ∧ (n = 1 ∨ 2 ^ (7 * (n - 1)) ≤ x).
Proof.
  intros Hx Hp. destruct (uvarintSize_bounds x Hx) as (n & HS & Hn).
  exists n. split; [|done].
  cbn [Size Uvarint64]. unfold uvarint64.Size.
  erewrite bind_run; [|by eapply load_run]. by rewrite lift_run, HS.
Qed.

Lemma Uvarint64_Size_table_witness :
  ∃ n,
    Size (Uvarint64 1%positive) {[ 1%positive := VUint64 (2 ^ 63) ]}
    = (Some n, {[ 1%positive := VUint64 (2 ^ 63) ]}) ∧
    1 ≤ n ≤ 10 ∧ 2 ^ 63 < 2 ^ (7 * n) ∧ (n = 1 ∨ 2 ^ (7 * (n - 1)) ≤ 2 ^ 63).
Proof.
  apply (Uvarint64_Size_table (2 ^ 63) 1%positive).
  - lia.
  - reflexivity.
Defined.

Ltac cases_1_10 n :=
  let H := fresh in
  assert (n = 1 ∨ n = 2 ∨ n = 3 ∨ n = 4 ∨ n = 5 ∨ n = 6 ∨ n = 7 ∨ n = 8
          ∨ n = 9 ∨ n = 10) as H by lia;
  destruct H as [->|[->|[->|[->|[->|[->|[->|[->|[->| ->]]]]]]]]].

(** X15. [varintSize] returns for every [int64] the [n] between 1 and 10
    with [-2^(7n-1) <= x < 2^(7n-1)] that is 1 or whose predecessor does
    not hold [x]. *)
Theorem varintSize_table (x : Z) :
  - 2 ^ 63 ≤ x < 2 ^ 63 →
  ∃ n, varintSize x = Some n ∧ 1 ≤ n ≤ 10 ∧
       - 2 ^ (7 * n - 1) ≤ x < 2 ^ (7 * n - 1) ∧
       (n = 1 ∨ x < - 2 ^ (7 * (n - 1) - 1) ∨ 2 ^ (7 * (n - 1) - 1) ≤ x).
Proof.
  intros Hx. unfold varintSize, PutVarint. cbv zeta.
  rewrite (zigzag x Hx).
  set (ux := if x <? 0 then - 2 * x - 1 else 2 * x).
  assert (0 ≤ ux < 2 ^ 64) as Hux.
  { subst ux. change (2 ^ 63) with 9223372036854775808 in Hx.
    change (2 ^ 64) with 18446744073709551616.
    destruct (Z.ltb_spec x 0); lia. }
  destruct (uvarintSize_bounds ux Hux) as (n & HS & Hn & Hhi & Hlo).
  exists n. split; [exact HS|]. split; [done|].
  subst ux. cases_1_10 n; eval_pow2; destruct (Z.ltb_spec x 0); lia.
Qed.

Lemma varintSize_table_witness :
  ∃ n, varintSize (-65) = Some n ∧ 1 ≤ n ≤ 10 ∧
       - 2 ^ (7 * n - 1) ≤ -65 < 2 ^ (7 * n - 1) ∧
       (n = 1 ∨ -65 < - 2 ^ (7 * (n - 1) - 1) ∨ 2 ^ (7 * (n - 1) - 1) ≤ -65).
Proof.
  apply (varintSize_table (-65)). lia.
Defined.

(** X16. A buffer that starts with nine bytes with the continuation bit
    followed by a byte from 2 to [0x7F], or with ten bytes with the
    continuation bit followed by any byte, makes [Uvarint32], [Uvarint64],
    [LengthDelimBytes] and [LengthDelimString] return [errOverflowVarint]
    and touch nothing. *)
Theorem varint_overflow
    (cs rest : list Z) (b : Z) (p : loc) (σ : gmap loc val) :
  Forall (λ c, 0x80 ≤ c) cs →
  (len cs = 9 ∧ 2 ≤ b < 0x80) ∨ len cs = 10 →
  Decode (Uvarint32 p) (cs ++ b :: rest) σ
  = (Some (errOverflowVarint, cs ++ b :: rest), σ) ∧
  Decode (Uvarint64 p) (cs ++ b :: rest) σ
  = (Some (errOverflowVarint, cs ++ b :: rest), σ) ∧
  Decode (LengthDelimBytes p) (cs ++ b :: rest) σ
  = (Some (errOverflowVarint, cs ++ b :: rest), σ) ∧
  Decode (LengthDelimString p) (cs ++ b :: rest) σ
  = (Some (errOverflowVarint, cs ++ b :: rest), σ).
Proof.
  intros Hcs Hcase.
  destruct (Uvarint_overflow cs b rest Hcs Hcase) as (n & HU & Hn).
  cbn [Decode Uvarint32 Uvarint64 LengthDelimBytes LengthDelimString].
  unfold uvarint32.Decode, uvarint64.Decode, lengthDelimBytes.Decode,
    lengthDelimString.Decode.
  rewrite HU. destruct (Z.eqb_spec n 0); [lia|].
  destruct (Z.ltb_spec n 0); [done | lia].
Qed.

Lemma varint_overflow_witness :
  Decode (Uvarint32 1%positive)
    (replicate 9 0x80 ++ 2 :: []) ({[ 1%positive := VUint32 0 ]} : gmap loc val)
  = (Some (errOverflowVarint, replicate 9 0x80 ++ 2 :: []),
     {[ 1%positive := VUint32 0 ]}) ∧
  Decode (Uvarint64 1%positive)
    (replicate 9 0x80 ++ 2 :: []) ({[ 1%positive := VUint32 0 ]} : gmap loc val)
  = (Some (errOverflowVarint, replicate 9 0x80 ++ 2 :: []),
     {[ 1%positive := VUint32 0 ]}) ∧
  Decode (LengthDelimBytes 1%positive)
    (replicate 9 0x80 ++ 2 :: []) ({[ 1%positive := VUint32 0 ]} : gmap loc val)
  = (Some (errOverflowVarint, replicate 9 0x80 ++ 2 :: []),
     {[ 1%positive := VUint32 0 ]}) ∧
  Decode (LengthDelimString 1%positive)
    (replicate 9 0x80 ++ 2 :: []) ({[ 1%positive := VUint32 0 ]} : gmap loc val)
  = (Some (errOverflowVarint, replicate 9 0x80 ++ 2 :: []),
     {[ 1%positive := VUint32 0 ]}).
Proof.
  apply (varint_overflow (replicate 9 0x80) [] 2 1%positive).
  - repeat constructor; lia.
  - left. split; [reflexivity | lia].
Defined.

(** ** Truncated encodings *)

Lemma valid_encoding_sound σ f e :
  sound f = true → bound σ f = true → valid_encoding σ f e →
  (∃ n, f = FPadding n ∧ len e = n) ∨ field_codec σ f e.
Proof.
  intros Hs Hb Hv. destruct f as [n|k p]; [left; by exists n|]. right.
  destruct (sound_field_codec σ (FItem k p) Hs Hb) as [e0 He0].
  assert (Encoding_Encode (New [item (FItem k p)]) σ = (Some e0, σ)) as HE.
  { pose proof (Encoding_Encode_of_encodes [item (FItem k p)] [e0] σ) as H.
    cbn [concat] in H. rewrite app_nil_r in H. apply H.
    constructor; [apply He0 | constructor]. }
  assert (Encoding_Encode (New [item (FItem k p)]) σ = (Some e, σ)) as HE'.
  { destruct k; try discriminate; exact Hv. }
  rewrite HE in HE'. by injection HE' as <-.
Qed.

(** Every field whose variable holds a value of its type, of a length
    that a [uint64] holds, has a valid encoding. *)
Lemma valid_encoding_exists σ f :
  bound σ f = true →
  (∀ k p v, f = FItem k p →
     σ !! p = Some (VBytes v) ∨ σ !! p = Some (VString v) → len v < 2 ^ 64) →
  ∃ e, valid_encoding σ f e.
Proof.
  intros Hb Hlen.
  assert (∀ v, len v < 2 ^ 64 →
            ∃ b n, PutUvarint (replicate (Z.to_nat MaxVarintLen64) 0) (len v)
                   = Some (b, n)) as HP.
  { intros v Hv. pose proof (len_nonneg v).
    destruct (uvarintSize_Some (len v) ltac:(lia)) as (n & Hn & _).
    unfold uvarintSize, make in Hn.
    change (MaxVarintLen64 <? 0) with false in Hn.
    cbn [mbind option_bind] in Hn.
    destruct (PutUvarint (replicate (Z.to_nat MaxVarintLen64) 0) (len v))
      as [[b n']|] eqn:HPut; [|done].
    by exists b, n'. }
  destruct (sound f) eqn:Hs.
  - destruct f as [n|k p].
    + cbn [bound] in Hb. apply Z.leb_le in Hb.
      exists (replicate (Z.to_nat n) 0). cbn [valid_encoding].
      rewrite len_replicate; lia.
    + destruct (sound_field_codec σ (FItem k p) Hs Hb) as [e0 He0].
      exists e0.
      pose proof (Encoding_Encode_of_encodes [item (FItem k p)] [e0] σ) as H.
      cbn [concat] in H. rewrite app_nil_r in H.
      destruct k; try discriminate; apply H;
        (constructor; [apply He0 | constructor]).
  - destruct f as [n|k p]; [done|].
    pose proof Hb as Hb0.
    apply bound_item in Hb as (x & Hp & Hty).
    destruct k; try discriminate; destruct x; try discriminate.
    + destruct (HP bs) as (b & n & HPut);
        [by apply (Hlen KLengthDelimBytes p); [|left]|].
      eexists. cbn [valid_encoding]. exists bs, b, n.
      repeat split; [done | by apply (Hlen KLengthDelimBytes p); [|left]
                     | done].
    + destruct (HP s) as (b & n & HPut);
        [by apply (Hlen KLengthDelimString p); [|right]|].
      eexists. cbn [valid_encoding]. exists s, b, n.
      repeat split; [done | by apply (Hlen KLengthDelimString p); [|right]
                     | done].
Qed.

Lemma truncated_layout v b n (k : nat) :
  len v < 2 ^ 64 →
  PutUvarint (replicate (Z.to_nat MaxVarintLen64) 0) (len v) = Some (b, n) →
  (k < length (take (Z.to_nat n) b ++ v))%nat →
  Z.of_nat k < n + len v.
Proof.
  intros Hv HP Hk. pose proof (len_nonneg v).
  destruct (PutUvarint_Uvarint _ _ _ _ HP ltac:(lia)) as (_ & Hn & _).
  rewrite length_app, length_take in Hk. unfold len. lia.
Qed.

(** C6. For every kind of item: every strict prefix of a valid encoding
    of the value makes [Decode] return [io.ErrUnexpectedEOF], and the
    store and the buffer are as before, so that no value has been
    produced. *)
Theorem truncated_encoding_is_EOF
    (f : field) (σ σ' : gmap loc val) (e : list Z) (k : nat) :
  bound σ f = true →
  valid_encoding σ f e →
  (k < length e)%nat →
  Decode (item f) (take k e) σ'
  = (Some (io_ErrUnexpectedEOF, take k e), σ').
Proof.
  intros Hb Hv Hk. destruct (sound f) eqn:Hs.
  - destruct (valid_encoding_sound σ f e Hs Hb Hv) as [(n & -> & Hn)|Hc].
    + cbn [item Decode Padding]. unfold padding.Decode.
      by rewrite (ltb_len_take e k n) by lia.
    + destruct Hc as (_ & _ & Ht). by apply Ht.
  - destruct f as [n|kd p]; [done|].
    destruct kd; try discriminate; cbn [valid_encoding] in Hv;
      destruct Hv as (v & b & n & _ & Hlen & HP & ->);
      pose proof (truncated_layout v b n k Hlen HP Hk) as Hk';
      destruct (LengthDelim_Decode_truncated v _ b n k p σ' Hlen HP Hk')
        as [HB HS]; cbn [item]; [exact HB | exact HS].
Qed.

Lemma truncated_encoding_is_EOF_witness :
  Decode (item (FItem KLengthDelimBytes 1%positive))
    (take 2 [2; 0x61; 0x62]) ({[ 1%positive := VBytes [7] ]} : gmap loc val)
  = (Some (io_ErrUnexpectedEOF, take 2 [2; 0x61; 0x62]),
     {[ 1%positive := VBytes [7] ]}) ∧
  Decode (item (FItem KOrdUvarint64 1%positive))
    (take 1 [0x81; 0x2C]) ({[ 1%positive := VUint64 0 ]} : gmap loc val)
  = (Some (io_ErrUnexpectedEOF, take 1 [0x81; 0x2C]),
     {[ 1%positive := VUint64 0 ]}).
Proof.
  split.
  - apply (truncated_encoding_is_EOF (FItem KLengthDelimBytes 1%positive)
             {[ 1%positive := VBytes [0x61; 0x62] ]}).
    + reflexivity.
    + exists [0x61; 0x62], [2; 0; 0; 0; 0; 0; 0; 0; 0; 0], 1.
      repeat split; reflexivity.
    + simpl. lia.
  - apply (truncated_encoding_is_EOF (FItem KOrdUvarint64 1%positive)
             {[ 1%positive := VUint64 300 ]}).
    + reflexivity.
    + reflexivity.
    + simpl. lia.
Defined.
